(** * ChronoFrise: the event store of [src/archive/App.jsx]

    A shallow embedding of the single React component of the repository:
    the JavaScript values it stores, the built-ins it leans on
    ([JSON.stringify], [JSON.parse], [parseFloat], [Number.prototype.toString]),
    the component state, its event handlers and its effects.

    Conventions of the embedding.
    - Text is 8-bit: a JavaScript string is a [string] of Rocq, a sequence of
      code units below 256.  A [\uXXXX] escape that denotes a code unit
      above 255 is outside the alphabet and is rejected by [JSON.parse].
    - A finite Number is an exact decimal: sign, significant digits and a
      power of ten.  [Number.prototype.toString] prints exactly that decimal
      the way ECMA-262 prescribes; rounding to binary64 is not modelled.
    - Records are immutable trees.  No handler of the component mutates a
      record in place, so sharing is not observable except through [===] on
      two objects, which the embedding decides by structure. *)

From Stdlib Require Import ZArith NArith List String Ascii Bool Lia.
From stdpp Require Import base tactics option list strings gmap.
Import ListNotations.

Local Open Scope Z_scope.
Local Open Scope list_scope.

(** ** Characters *)

Module Chars.
Definition quote : ascii := "034"%char.
Definition backslash : ascii := "092"%char.
Definition LF : ascii := "010"%char.
Definition SP : ascii := " "%char.

(** JSON white space: tab, line feed, carriage return, space. *)
Definition is_ws (c : ascii) : bool :=
  match c with
  | "009" | "010" | "013" | " " => true
  | _ => false
  end%char.

(** [StrWhiteSpaceChar] of ECMA-262 restricted to the 8-bit alphabet:
    TAB, LF, VT, FF, CR, SP and NBSP. *)
Definition is_str_ws (c : ascii) : bool :=
  match c with
  | "009" | "010" | "011" | "012" | "013" | " " | "160" => true
  | _ => false
  end%char.

Definition text := list ascii.
Definition lit (s : string) : text := list_ascii_of_string s.
End Chars.
Import Chars.

(** ** Numbers *)

Module Num.

Inductive digit := d0 | d1 | d2 | d3 | d4 | d5 | d6 | d7 | d8 | d9.

Definition digit_char (d : digit) : ascii :=
  match d with
  | d0 => "0" | d1 => "1" | d2 => "2" | d3 => "3" | d4 => "4"
  | d5 => "5" | d6 => "6" | d7 => "7" | d8 => "8" | d9 => "9"
  end%char.

Definition char_digit (c : ascii) : option digit :=
  match c with
  | "0" => Some d0 | "1" => Some d1 | "2" => Some d2 | "3" => Some d3
  | "4" => Some d4 | "5" => Some d5 | "6" => Some d6 | "7" => Some d7
  | "8" => Some d8 | "9" => Some d9 | _ => None
  end%char.

Definition digit_val (d : digit) : N :=
  match d with
  | d0 => 0 | d1 => 1 | d2 => 2 | d3 => 3 | d4 => 4
  | d5 => 5 | d6 => 6 | d7 => 7 | d8 => 8 | d9 => 9
  end%N.

Definition digit_of_N (n : N) : digit :=
  match n with
  | 0 => d0 | 1 => d1 | 2 => d2 | 3 => d3 | 4 => d4
  | 5 => d5 | 6 => d6 | 7 => d7 | 8 => d8 | _ => d9
  end%N.

#[global] Instance digit_eq_dec : EqDecision digit.
Proof. solve_decision. Defined.

Definition is_d0 (d : digit) : bool := match d with d0 => true | _ => false end.

(** The value of a digit sequence, most significant digit first. *)
Definition N_of_digits (ds : list digit) : N :=
  fold_left (fun acc d => (10 * acc + digit_val d)%N) ds 0%N.

(** Decimal expansion by repeated division; [fuel] bounds the number of
    digits. *)
Fixpoint digits_of_N_aux (fuel : nat) (n : N) (acc : list digit) : list digit :=
  match fuel with
  | O => acc
  | S f =>
      if (n <? 10)%N then digit_of_N n :: acc
      else digits_of_N_aux f (n / 10)%N (digit_of_N (n mod 10)%N :: acc)
  end.

Definition digits_of_N (n : N) : list digit :=
  digits_of_N_aux (S (N.to_nat (N.log2 n))) n [].

(** A Number value.  [Finite neg mant e] is [(-1)^neg * mant * 10^e] where
    [mant] is read as a decimal numeral. *)
Inductive jsnum :=
| NaN
| Infinity (neg : bool)
| Finite (neg : bool) (mant : list digit) (e : Z).

Fixpoint strip_zeros (ds : list digit) : list digit :=
  match ds with
  | d0 :: r => strip_zeros r
  | _ => ds
  end.

(** Canonical form: no leading zero, no trailing zero, and zero is the
    empty numeral with exponent 0 (its sign is kept: [-0] exists). *)
Definition normalize (neg : bool) (ds : list digit) (e : Z) : jsnum :=
  let ds1 := strip_zeros ds in
  let r := strip_zeros (rev ds1) in
  match r with
  | [] => Finite neg [] 0
  | _ => Finite neg (rev r) (e + Z.of_nat (length ds1 - length r))
  end.

Definition norm (x : jsnum) : jsnum :=
  match x with
  | Finite neg ds e => normalize neg ds e
  | _ => x
  end.

Definition canonical (x : jsnum) : bool :=
  match x with
  | Finite neg ds e =>
      match ds, rev ds with
      | d :: _, d' :: _ => negb (is_d0 d) && negb (is_d0 d')
      | _, _ => (e =? 0)
      end
  | _ => true
  end.

Definition is_finite (x : jsnum) : bool :=
  match x with Finite _ _ _ => true | _ => false end.

Definition is_zero (x : jsnum) : bool :=
  match x with Finite _ ds _ => forallb is_d0 ds | _ => false end.

Definition of_Z (z : Z) : jsnum :=
  normalize (z <? 0) (digits_of_N (Z.abs_N z)) 0.

(** [x === y] on Numbers: NaN differs from everything, the two zeros are
    equal. *)
Definition num_eq (x y : jsnum) : bool :=
  match norm x, norm y with
  | Infinity a, Infinity b => Bool.eqb a b
  | Finite a ds e, Finite b ds' e' =>
      bool_decide (ds = ds') && (e =? e')
        && (Bool.eqb a b || match ds with [] => true | _ => false end)
  | _, _ => false
  end.

(** *** Number to text: [Number::toString] of ECMA-262, radix 10 *)

Definition digits_text (ds : list digit) : text := map digit_char ds.

Definition zeros (n : nat) : list digit := repeat d0 n.

(** [ds] is the digit string [s] of the standard, [k] its length and
    [n = e + k] the position of the decimal point. *)
Definition finite_toString (ds : list digit) (e : Z) : text :=
  let k := Z.of_nat (length ds) in
  let n := e + k in
  if (k <=? n) && (n <=? 21) then
    digits_text ds ++ digits_text (zeros (Z.to_nat (n - k)))
  else if (0 <? n) && (n <=? 21) then
    digits_text (firstn (Z.to_nat n) ds)
      ++ "."%char :: digits_text (skipn (Z.to_nat n) ds)
  else if (-6 <? n) && (n <=? 0) then
    "0"%char :: "."%char :: digits_text (zeros (Z.to_nat (- n))) ++ digits_text ds
  else
    let sign := if n - 1 <? 0 then "-"%char else "+"%char in
    let expo := digits_text (digits_of_N (Z.abs_N (n - 1))) in
    match ds with
    | [] => []
    | [d] => digit_char d :: "e"%char :: sign :: expo
    | d :: r => digit_char d :: "."%char :: digits_text r ++ "e"%char :: sign :: expo
    end.

Definition toString (x : jsnum) : text :=
  match norm x with
  | NaN => lit "NaN"
  | Infinity false => lit "Infinity"
  | Infinity true => lit "-Infinity"
  | Finite _ [] _ => lit "0"
  | Finite neg ds e => (if neg then ["-"%char] else []) ++ finite_toString ds e
  end.

(** *** Text to number *)

Fixpoint take_digits (s : text) : list digit * text :=
  match s with
  | c :: r =>
      match char_digit c with
      | Some d => let (ds, r') := take_digits r in (d :: ds, r')
      | None => ([], s)
      end
  | [] => ([], [])
  end.

(** [ExponentPart]: [e] or [E], an optional sign, at least one digit.
    [None] when [s] does not start with a complete exponent part. *)
Definition exponent_part (s : text) : option (Z * text) :=
  match s with
  | c :: r =>
      if (Ascii.eqb c "e" || Ascii.eqb c "E")%char then
        let '(neg, r1) :=
          match r with
          | "-"%char :: r' => (true, r')
          | "+"%char :: r' => (false, r')
          | _ => (false, r)
          end in
        match take_digits r1 with
        | ([], _) => None
        | (ds, r2) =>
            let v := Z.of_N (N_of_digits ds) in
            Some (if neg then - v else v, r2)
        end
      else None
  | [] => None
  end.

Definition with_exponent (s : text) : Z * text :=
  match exponent_part s with
  | Some p => p
  | None => (0, s)
  end.

(** The longest prefix of [s] that is a JSON number, with its value: an
    optional minus sign, an integer part without superfluous leading zero,
    an optional fraction (a dot and at least one digit) and an optional
    exponent part. *)
Definition json_integer (s : text) : option (list digit * text) :=
  match s with
  | c :: r =>
      match char_digit c with
      | None => None
      | Some d => Some (if is_d0 d then ([d0], r) else take_digits s)
      end
  | [] => None
  end.

Definition json_fraction (s : text) : list digit * text :=
  match s with
  | "."%char :: r =>
      match take_digits r with
      | ([], _) => ([], s)
      | p => p
      end
  | _ => ([], s)
  end.

Definition json_unsigned (neg : bool) (s : text) : option (jsnum * text) :=
  match json_integer s with
  | None => None
  | Some (int, s2) =>
      let '(frac, s3) := json_fraction s2 in
      let '(ex, s4) := with_exponent s3 in
      Some (normalize neg (int ++ frac) (ex - Z.of_nat (length frac)), s4)
  end.

Definition json_number (s : text) : option (jsnum * text) :=
  match s with
  | "-"%char :: r => json_unsigned true r
  | _ => json_unsigned false s
  end.

Fixpoint trim_start (s : text) : text :=
  match s with
  | c :: r => if is_str_ws c then trim_start r else s
  | [] => []
  end.

Fixpoint strip_prefix (p s : text) : option text :=
  match p, s with
  | [], _ => Some s
  | a :: p', b :: s' => if Ascii.eqb a b then strip_prefix p' s' else None
  | _ :: _, [] => None
  end.

(** [parseFloat(string)]: leading white space is dropped, then the longest
    prefix that is a [StrDecimalLiteral] is converted; [NaN] when there is
    none. *)
Definition parseFloat (input : string) : jsnum :=
  let s := trim_start (lit input) in
  let '(neg, s1) :=
    match s with
    | "-"%char :: r => (true, r)
    | "+"%char :: r => (false, r)
    | _ => (false, s)
    end in
  match strip_prefix (lit "Infinity") s1 with
  | Some _ => Infinity neg
  | None =>
      let '(int, s2) := take_digits s1 in
      let '(frac, s3) :=
        match s2 with
        | "."%char :: r2 => take_digits r2
        | _ => ([], s2)
        end in
      match int ++ frac with
      | [] => NaN
      | ds => let '(ex, _) := with_exponent s3 in
              normalize neg ds (ex - Z.of_nat (length frac))
      end
  end.

End Num.

Import Num.

(** ** JavaScript values *)

Module JS.

(** The values the component stores and compares.  An object is the list
    of its own properties in property-enumeration order. *)
#[warnings="-register-all"]
Inductive jsval :=
| JUndefined
| JNull
| JBool (b : bool)
| JNum (n : jsnum)
| JStr (s : string)
| JArr (elems : list jsval)
| JObj (props : list (string * jsval)).

(** Abrupt completions.  The component can raise a [TypeError] (property
    access on [null] or [undefined]); [JSON.parse] raises a [SyntaxError]. *)
Inductive error := TypeError | SyntaxError.

Inductive completion (A : Type) :=
| Normal (a : A)
| Throw (e : error).
Arguments Normal {A} a.
Arguments Throw {A} e.

Definition bind {A B} (c : completion A) (k : A -> completion B) : completion B :=
  match c with
  | Normal a => k a
  | Throw e => Throw e
  end.

Notation "'let!' x ':=' c 'in' k" := (bind c (fun x => k))
  (at level 10, x name, c at level 100, k at level 200).

(** [ToBoolean]. *)
Definition truthy (v : jsval) : bool :=
  match v with
  | JUndefined | JNull => false
  | JBool b => b
  | JNum NaN => false
  | JNum n => negb (is_zero n)
  | JStr s => negb (String.eqb s "")
  | JArr _ | JObj _ => true
  end.

(** [a || b]. *)
Definition or_else (a b : jsval) : jsval := if truthy a then a else b.

#[global] Instance jsnum_eq_dec : EqDecision jsnum.
Proof. solve_decision. Defined.

(** Structural equality of two values. *)
Fixpoint jsval_eqb (a b : jsval) : bool :=
  match a, b with
  | JUndefined, JUndefined => true
  | JNull, JNull => true
  | JBool x, JBool y => Bool.eqb x y
  | JNum x, JNum y => bool_decide (x = y)
  | JStr x, JStr y => String.eqb x y
  | JArr xs, JArr ys =>
      (fix go (xs ys : list jsval) : bool :=
         match xs, ys with
         | [], [] => true
         | x :: xs', y :: ys' => jsval_eqb x y && go xs' ys'
         | _, _ => false
         end) xs ys
  | JObj ps, JObj qs =>
      (fix go (ps qs : list (string * jsval)) : bool :=
         match ps, qs with
         | [], [] => true
         | (k, x) :: ps', (k', y) :: qs' =>
             String.eqb k k' && jsval_eqb x y && go ps' qs'
         | _, _ => false
         end) ps qs
  | _, _ => false
  end.

(** [a === b].  Numbers compare by value; two objects (or arrays) are the
    same reference in JavaScript, here the same tree. *)
Definition strict_eq (a b : jsval) : bool :=
  match a, b with
  | JNum x, JNum y => num_eq x y
  | _, _ => jsval_eqb a b
  end.

(** *** Properties *)

Definition props := list (string * jsval).

(** The value of own property [k], [undefined] when there is none. *)
Fixpoint lookup_prop (k : string) (ps : props) : jsval :=
  match ps with
  | [] => JUndefined
  | (k', v) :: r => if String.eqb k k' then v else lookup_prop k r
  end.

Fixpoint has_prop (k : string) (ps : props) : bool :=
  match ps with
  | [] => false
  | (k', _) :: r => String.eqb k k' || has_prop k r
  end.

(** [item.id].  Reading a property of [null] or [undefined] throws; an
    object answers with its own property.  Numbers, booleans, strings and
    arrays have no property named [id], neither own nor inherited. *)
Definition get_id (v : jsval) : completion jsval :=
  match v with
  | JUndefined | JNull => Throw TypeError
  | JObj ps => Normal (lookup_prop "id" ps)
  | _ => Normal JUndefined
  end.

(** An array index is the canonical numeral of an integer below 2^32 - 1.
    Such keys are enumerated first, in ascending order. *)
Definition array_index (k : string) : option N :=
  match take_digits (lit k) with
  | (d :: ds, []) =>
      let n := N_of_digits (d :: ds) in
      if (negb (is_d0 d) || match ds with [] => true | _ => false end)
         && (n <? 4294967295)%N
      then Some n else None
  | _ => None
  end.

(** Does a new key [k] go before the existing key [k'] ? *)
Definition goes_before (k k' : string) : bool :=
  match array_index k, array_index k' with
  | Some i, Some j => (i <? j)%N
  | Some _, None => true
  | None, _ => false
  end.

Fixpoint insert_prop (k : string) (v : jsval) (ps : props) : props :=
  match ps with
  | [] => [(k, v)]
  | (k', v') :: r =>
      if goes_before k k' then (k, v) :: ps else (k', v') :: insert_prop k v r
  end.

Fixpoint replace_prop (k : string) (v : jsval) (ps : props) : props :=
  match ps with
  | [] => []
  | (k', v') :: r =>
      if String.eqb k k' then (k, v) :: r else (k', v') :: replace_prop k v r
  end.

(** [CreateDataProperty]: an existing property keeps its place and takes
    the new value; a new one is placed by the enumeration order. *)
Definition define_prop (ps : props) (kv : string * jsval) : props :=
  let (k, v) := kv in
  if has_prop k ps then replace_prop k v ps else insert_prop k v ps.

Definition define_all (ps : props) (kvs : props) : props :=
  fold_left define_prop kvs ps.

(** The own enumerable properties an object spread [{...v}] copies. *)
Definition index_key (i : nat) : string :=
  string_of_list_ascii (digits_text (digits_of_N (N.of_nat i))).

Definition own_props (v : jsval) : props :=
  match v with
  | JObj ps => ps
  | JArr l => imap (fun i x => (index_key i, x)) l
  | JStr s =>
      imap (fun i c => (index_key i, JStr (String c EmptyString)))
           (list_ascii_of_string s)
  | _ => []
  end.

(** An object literal [{...src, k1: v1, ..., kn: vn}]. *)
Definition object_literal (src : jsval) (kvs : props) : jsval :=
  JObj (define_all (own_props src) kvs).

(** [array.find(pred)] and [array.filter(pred)], [array.map(f)] with a
    callback that can throw. *)
Fixpoint find_c (p : jsval -> completion bool) (l : list jsval) : completion jsval :=
  match l with
  | [] => Normal JUndefined
  | x :: r => let! b := p x in if b then Normal x else find_c p r
  end.

Fixpoint filter_c (p : jsval -> completion bool) (l : list jsval)
  : completion (list jsval) :=
  match l with
  | [] => Normal []
  | x :: r =>
      let! b := p x in
      let! r' := filter_c p r in
      Normal (if b then x :: r' else r')
  end.

Fixpoint map_c (f : jsval -> completion jsval) (l : list jsval)
  : completion (list jsval) :=
  match l with
  | [] => Normal []
  | x :: r =>
      let! y := f x in
      let! r' := map_c f r in
      Normal (y :: r')
  end.

End JS.
Import JS.

(** ** JSON *)

Module JSON.

(** *** [QuoteJSONString] *)

Definition hex_char (n : N) : ascii :=
  match n with
  | 0 => "0" | 1 => "1" | 2 => "2" | 3 => "3" | 4 => "4" | 5 => "5"
  | 6 => "6" | 7 => "7" | 8 => "8" | 9 => "9" | 10 => "a" | 11 => "b"
  | 12 => "c" | 13 => "d" | 14 => "e" | _ => "f"
  end%N%char.

Definition hex_val (c : ascii) : option N :=
  match char_digit c with
  | Some d => Some (digit_val d)
  | None =>
      match c with
      | "a" | "A" => Some 10 | "b" | "B" => Some 11 | "c" | "C" => Some 12
      | "d" | "D" => Some 13 | "e" | "E" => Some 14 | "f" | "F" => Some 15
      | _ => None
      end%N%char
  end.

(** One code unit of a string, as it appears between the quotes. *)
Definition escape_char (c : ascii) : text :=
  match c with
  | "008" => [backslash; "b"]
  | "009" => [backslash; "t"]
  | "010" => [backslash; "n"]
  | "012" => [backslash; "f"]
  | "013" => [backslash; "r"]
  | "034" => [backslash; quote]
  | "092" => [backslash; backslash]
  | _ =>
      let n := N_of_ascii c in
      if (n <? 32)%N
      then [backslash; "u"; "0"; "0"; hex_char (n / 16); hex_char (n mod 16)]
      else [c]
  end%char.

Definition quote_text (s : string) : text :=
  quote :: flat_map escape_char (list_ascii_of_string s) ++ [quote].

(** *** [JSON.stringify(value, null, space)] *)

Fixpoint join (sep : text) (parts : list text) : text :=
  match parts with
  | [] => []
  | [x] => x
  | x :: r => x ++ sep ++ join sep r
  end.

(** [SerializeJSONArray] and [SerializeJSONObject] once the parts are
    serialized: [open] and [close] are the brackets, [stepback] the
    indentation before this value and [gap] one more level. *)
Definition wrap (open close : ascii) (gap stepback : text) (parts : list text) : text :=
  match parts with
  | [] => [open; close]
  | _ =>
      match gap with
      | [] => open :: join [","%char] parts ++ [close]
      | _ =>
          let indent := stepback ++ gap in
          open :: LF :: indent ++ join (","%char :: LF :: indent) parts
            ++ LF :: stepback ++ [close]
      end
  end.

(** [SerializeJSONProperty]: [None] stands for the result [undefined]. *)
Fixpoint serialize (gap indent : text) (v : jsval) : option text :=
  match v with
  | JUndefined => None
  | JNull => Some (lit "null")
  | JBool true => Some (lit "true")
  | JBool false => Some (lit "false")
  | JNum n => Some (if is_finite n then Num.toString n else lit "null")
  | JStr s => Some (quote_text s)
  | JArr l =>
      let part x :=
        match serialize gap (indent ++ gap) x with
        | Some t => t
        | None => lit "null"
        end in
      Some (wrap "[" "]" gap indent (map part l))
  | JObj ps =>
      let member (kv : string * jsval) :=
        match serialize gap (indent ++ gap) (snd kv) with
        | Some t =>
            [quote_text (fst kv) ++ ":"%char
               :: match gap with [] => [] | _ => [SP] end ++ t]
        | None => []
        end in
      Some (wrap "{" "}" gap indent (flat_map member ps))
  end.

(** The [gap] of a numeric [space] argument: that many spaces, at most 10. *)
Definition gap_of_space (space : nat) : text := repeat SP (Nat.min space 10).

Definition stringify (v : jsval) (space : nat) : option string :=
  string_of_list_ascii <$> serialize (gap_of_space space) [] v.

(** *** [JSON.parse(text)] *)

Fixpoint skip_ws (s : text) : text :=
  match s with
  | c :: r => if is_ws c then skip_ws r else s
  | [] => []
  end.

Definition hex4 (a b c d : ascii) : option N :=
  match hex_val a, hex_val b, hex_val c, hex_val d with
  | Some x, Some y, Some z, Some w => Some (((x * 16 + y) * 16 + z) * 16 + w)%N
  | _, _, _, _ => None
  end.

(** The character a one-letter escape stands for. *)
Definition unescape (e : ascii) : option ascii :=
  match e with
  | "034" => Some quote
  | "092" => Some backslash
  | "/" => Some "/"
  | "b" => Some "008"
  | "f" => Some "012"
  | "n" => Some "010"
  | "r" => Some "013"
  | "t" => Some "009"
  | _ => None
  end%char.

(** The characters of a string literal after its opening quote, and what
    follows the closing quote. *)
Fixpoint string_body (s : text) : option (text * text) :=
  match s with
  | [] => None
  | c :: r =>
      if Ascii.eqb c quote then Some ([], r)
      else if Ascii.eqb c backslash then
        match r with
        | [] => None
        | e :: r' =>
            if Ascii.eqb e "u" then
              match r' with
              | h1 :: h2 :: h3 :: h4 :: r'' =>
                  match hex4 h1 h2 h3 h4 with
                  | Some n =>
                      if (n <? 256)%N then
                        match string_body r'' with
                        | Some (cs, rest) => Some (ascii_of_N n :: cs, rest)
                        | None => None
                        end
                      else None
                  | None => None
                  end
              | _ => None
              end
            else
              match unescape e with
              | Some x =>
                  match string_body r' with
                  | Some (cs, rest) => Some (x :: cs, rest)
                  | None => None
                  end
              | None => None
              end
        end
      else if (N_of_ascii c <? 32)%N then None
      else
        match string_body r with
        | Some (cs, rest) => Some (c :: cs, rest)
        | None => None
        end
  end.

(** A literal name: the rest of [s] after [name], if [s] starts with it. *)
Definition keyword (name : string) (v : jsval) (s : text) : option (jsval * text) :=
  match strip_prefix (lit name) s with
  | Some rest => Some (v, rest)
  | None => None
  end.

(** A value, the elements of an array after its opening bracket and the
    members of an object after its opening brace.  Every call passes a
    smaller [fuel]; [S (length s)] is enough for any text [s]. *)
Fixpoint value (fuel : nat) (s : text) : option (jsval * text) :=
  match fuel with
  | O => None
  | S f =>
      match s with
      | [] => None
      | c :: r =>
          if Ascii.eqb c "n" then keyword "null" JNull s
          else if Ascii.eqb c "t" then keyword "true" (JBool true) s
          else if Ascii.eqb c "f" then keyword "false" (JBool false) s
          else if Ascii.eqb c quote then
            match string_body r with
            | Some (cs, rest) => Some (JStr (string_of_list_ascii cs), rest)
            | None => None
            end
          else if Ascii.eqb c "[" then
            match skip_ws r with
            | [] => None
            | c' :: rest =>
                if Ascii.eqb c' "]" then Some (JArr [], rest)
                else
                  match elements f (c' :: rest) with
                  | Some (vs, rest') => Some (JArr vs, rest')
                  | None => None
                  end
            end
          else if Ascii.eqb c "{" then
            match skip_ws r with
            | [] => None
            | c' :: rest =>
                if Ascii.eqb c' "}" then Some (JObj [], rest)
                else
                  match members f (c' :: rest) with
                  | Some (kvs, rest') => Some (JObj (define_all [] kvs), rest')
                  | None => None
                  end
            end
          else
            match json_number s with
            | Some (n, rest) => Some (JNum n, rest)
            | None => None
            end
      end
  end
with elements (fuel : nat) (s : text) : option (list jsval * text) :=
  match fuel with
  | O => None
  | S f =>
      match value f s with
      | Some (v, r) =>
          match skip_ws r with
          | [] => None
          | c :: r' =>
              if Ascii.eqb c "," then
                match elements f (skip_ws r') with
                | Some (vs, rest) => Some (v :: vs, rest)
                | None => None
                end
              else if Ascii.eqb c "]" then Some ([v], r')
              else None
          end
      | None => None
      end
  end
with members (fuel : nat) (s : text) : option (props * text) :=
  match fuel with
  | O => None
  | S f =>
      match s with
      | [] => None
      | q :: r =>
          if Ascii.eqb q quote then
            match string_body r with
            | Some (k, r1) =>
                match skip_ws r1 with
                | [] => None
                | c1 :: r2 =>
                    if Ascii.eqb c1 ":" then
                      match value f (skip_ws r2) with
                      | Some (v, r3) =>
                          let kv := (string_of_list_ascii k, v) in
                          match skip_ws r3 with
                          | [] => None
                          | c :: r4 =>
                              if Ascii.eqb c "," then
                                match members f (skip_ws r4) with
                                | Some (kvs, rest) => Some (kv :: kvs, rest)
                                | None => None
                                end
                              else if Ascii.eqb c "}" then Some ([kv], r4)
                              else None
                          end
                      | None => None
                      end
                    else None
                end
            | None => None
            end
          else None
      end
  end.

(** [JSON.parse]: one value between optional white space; [None] stands
    for a thrown [SyntaxError]. *)
Definition parse (s : string) : option jsval :=
  let t := skip_ws (lit s) in
  match value (S (length t)) t with
  | Some (v, rest) =>
      match skip_ws rest with
      | [] => Some v
      | _ => None
      end
  | None => None
  end.

End JSON.

(** ** The component [App] *)

Definition LOCAL_STORAGE_KEY : string := "timeline-events".

(** The values of the named controls of a submitted form
    ([form.title.value], [form.start.value], ...). *)
Module Form.
Record t := {
  title : string;
  start : string;
  end_ : string;
  description : string;
  image : string;
  locationName : string;
  lat : string;
  lng : string
}.
End Form.

(** What the component can observe of the timeline widget: the item set it
    was last given and the item it was last told to select and focus. *)
Record Timeline := {
  itemsData : list jsval;
  selection : jsval
}.

(** The state of the mounted component and of its surroundings: the three
    [useState] cells, the [pendingSelection] ref, the widget, the browser's
    local storage, the callbacks waiting in [setTimeout] (the id to select
    and the [items] they closed over), the alerts shown and the files
    offered for download. *)
Record App := {
  items : list jsval;
  selectedEvent : jsval;
  isEditing : bool;
  pendingSelection : jsval;
  timelineInstance : Timeline;
  localStorage : gmap string string;
  timers : list (jsval * list jsval);
  alerts : list string;
  downloads : list (string * string)
}.

Definition setItems (l : list jsval) (st : App) : App :=
  {| items := l; selectedEvent := selectedEvent st; isEditing := isEditing st;
     pendingSelection := pendingSelection st;
     timelineInstance := timelineInstance st; localStorage := localStorage st;
     timers := timers st; alerts := alerts st; downloads := downloads st |}.

Definition setSelectedEvent (v : jsval) (st : App) : App :=
  {| items := items st; selectedEvent := v; isEditing := isEditing st;
     pendingSelection := pendingSelection st;
     timelineInstance := timelineInstance st; localStorage := localStorage st;
     timers := timers st; alerts := alerts st; downloads := downloads st |}.

Definition setIsEditing (b : bool) (st : App) : App :=
  {| items := items st; selectedEvent := selectedEvent st; isEditing := b;
     pendingSelection := pendingSelection st;
     timelineInstance := timelineInstance st; localStorage := localStorage st;
     timers := timers st; alerts := alerts st; downloads := downloads st |}.

Definition setPendingSelection (v : jsval) (st : App) : App :=
  {| items := items st; selectedEvent := selectedEvent st;
     isEditing := isEditing st; pendingSelection := v;
     timelineInstance := timelineInstance st; localStorage := localStorage st;
     timers := timers st; alerts := alerts st; downloads := downloads st |}.

Definition setTimeline (w : Timeline) (st : App) : App :=
  {| items := items st; selectedEvent := selectedEvent st;
     isEditing := isEditing st; pendingSelection := pendingSelection st;
     timelineInstance := w; localStorage := localStorage st;
     timers := timers st; alerts := alerts st; downloads := downloads st |}.

Definition setLocalStorage (m : gmap string string) (st : App) : App :=
  {| items := items st; selectedEvent := selectedEvent st;
     isEditing := isEditing st; pendingSelection := pendingSelection st;
     timelineInstance := timelineInstance st; localStorage := m;
     timers := timers st; alerts := alerts st; downloads := downloads st |}.

Definition setTimers (q : list (jsval * list jsval)) (st : App) : App :=
  {| items := items st; selectedEvent := selectedEvent st;
     isEditing := isEditing st; pendingSelection := pendingSelection st;
     timelineInstance := timelineInstance st; localStorage := localStorage st;
     timers := q; alerts := alerts st; downloads := downloads st |}.

Definition alert (msg : string) (st : App) : App :=
  {| items := items st; selectedEvent := selectedEvent st;
     isEditing := isEditing st; pendingSelection := pendingSelection st;
     timelineInstance := timelineInstance st; localStorage := localStorage st;
     timers := timers st; alerts := alerts st ++ [msg];
     downloads := downloads st |}.

Definition download (name data : string) (st : App) : App :=
  {| items := items st; selectedEvent := selectedEvent st;
     isEditing := isEditing st; pendingSelection := pendingSelection st;
     timelineInstance := timelineInstance st; localStorage := localStorage st;
     timers := timers st; alerts := alerts st;
     downloads := downloads st ++ [(name, data)] |}.

(** [JSON.stringify(items)] and [JSON.stringify(items, null, 2)] as the
    text handed to [localStorage.setItem] and to [Blob]; both turn the
    result [undefined] into the text "undefined" (it never is, for an
    array). *)
Definition stringify_text (v : jsval) (space : nat) : string :=
  match JSON.stringify v space with
  | Some s => s
  | None => "undefined"
  end.

(** The second effect, [useEffect(..., [items])] of lines 56-76: push the
    items to the widget and, when an add is pending, queue the deferred
    selection. *)
Definition effect_timeline (st : App) : App :=
  let st1 :=
    setTimeline {| itemsData := items st;
                   selection := selection (timelineInstance st) |} st in
  if truthy (pendingSelection st1) then
    let idToSelect := pendingSelection st1 in
    setTimers (timers st1 ++ [(idToSelect, items st1)])
              (setPendingSelection JNull st1)
  else st1.

(** The third effect, lines 78-80. *)
Definition effect_persist (st : App) : App :=
  setLocalStorage
    (<[LOCAL_STORAGE_KEY := stringify_text (JArr (items st)) 0]> (localStorage st))
    st.

(** A render that installed a new [items] array runs both effects. *)
Definition commit_items (st : App) : App := effect_persist (effect_timeline st).

(** The [useState] initializer of lines 24-27.  [getItem] answers [null]
    for a missing key, and the empty string is falsy. *)
Definition initial_items (storage : gmap string string) : completion jsval :=
  match storage !! LOCAL_STORAGE_KEY with
  | Some stored =>
      if truthy (JStr stored) then
        match JSON.parse stored with
        | Some v => Normal v
        | None => Throw SyntaxError
        end
      else Normal (JArr [])
  | None => Normal (JArr [])
  end.

(** Mounting the component over a given local storage.  The embedding
    covers the stores that are arrays: with a stored text that does not
    parse, or parses to something else, there is no mounted state. *)
Definition mount (storage : gmap string string) : option App :=
  match initial_items storage with
  | Normal (JArr l) =>
      Some (commit_items
              {| items := l; selectedEvent := JNull; isEditing := false;
                 pendingSelection := JNull;
                 timelineInstance := {| itemsData := l; selection := JNull |};
                 localStorage := storage; timers := []; alerts := [];
                 downloads := [] |})
  | _ => None
  end.

(** The record both forms build, lines 87-97 and 149-159. *)
Definition location_of (f : Form.t) : jsval :=
  JObj (define_all []
    [("name", JStr (Form.locationName f));
     ("lat", JNum (parseFloat (Form.lat f)));
     ("lng", JNum (parseFloat (Form.lng f)))]).

Definition newEvent (f : Form.t) (now : Z) : jsval :=
  object_literal (JObj [])
    [("id", JStr (string_of_list_ascii (Num.toString (Num.of_Z now))));
     ("content", JStr (Form.title f));
     ("start", JStr (Form.start f));
     ("end", or_else (JStr (Form.end_ f)) JNull);
     ("title", JStr (Form.title f));
     ("description", JStr (Form.description f));
     ("image", JStr (Form.image f));
     ("location", location_of f);
     ("linksTo", JArr [])].

(** [handleAddEvent], lines 82-105; [now] is what [Date.now()] answers. *)
Definition handleAddEvent (f : Form.t) (now : Z) (st : App) : App :=
  let ev := newEvent f now in
  let st1 := setPendingSelection (lookup_prop "id" (own_props ev)) st in
  let st2 := setItems (items st1 ++ [ev]) st1 in
  let st3 := setSelectedEvent ev st2 in
  commit_items st3.

(** [handleExport], lines 107-116. *)
Definition export_document (st : App) : string :=
  stringify_text (JArr (items st)) 2.

Definition handleExport (st : App) : App :=
  download "timeline-export.json" (export_document st) st.

(** [reader.onload] of [handleImport], lines 123-134. *)
Definition alert_not_array : string := "Le fichier n'est pas un tableau valide.".
Definition alert_import_error : string :=
  "Erreur lors de l'importation du fichier JSON.".

Definition reader_onload (result : string) (st : App) : App :=
  match JSON.parse result with
  | Some (JArr data) => commit_items (setItems data st)
  | Some _ => alert alert_not_array st
  | None => alert alert_import_error st
  end.

(** [handleImport], lines 118-136: [file] is the text of [e.target.files[0]],
    if any.  The callback reads nothing of the component state, so it makes
    the same transition whenever the read completes. *)
Definition handleImport (file : option string) (st : App) : App :=
  match file with
  | None => st
  | Some result => reader_onload result st
  end.

(** [item.id !== selectedEvent.id] and [item.id === updatedEvent.id]. *)
Definition same_id (item other : jsval) : completion bool :=
  let! a := get_id item in
  let! b := get_id other in
  Normal (strict_eq a b).

Definition other_id (item other : jsval) : completion bool :=
  let! b := same_id item other in Normal (negb b).

(** [handleDeleteEvent], lines 138-142.  An exception raised by the
    callback of [filter] leaves the handler before any state is set. *)
Definition handleDeleteEvent (st : App) : completion App :=
  if negb (truthy (selectedEvent st)) then Normal st
  else
    let! kept :=
      filter_c (fun item => other_id item (selectedEvent st)) (items st) in
    Normal (commit_items (setSelectedEvent JNull (setItems kept st))).

(** [handleEditSubmit], lines 144-164. *)
Definition updatedEvent (sel : jsval) (f : Form.t) : jsval :=
  object_literal sel
    [("content", JStr (Form.title f));
     ("start", JStr (Form.start f));
     ("end", or_else (JStr (Form.end_ f)) JNull);
     ("title", JStr (Form.title f));
     ("description", JStr (Form.description f));
     ("image", JStr (Form.image f));
     ("location", location_of f)].

Definition handleEditSubmit (f : Form.t) (st : App) : completion App :=
  let upd := updatedEvent (selectedEvent st) f in
  let! l :=
    map_c (fun item =>
             let! b := same_id item upd in
             Normal (if b then upd else item)) (items st) in
  Normal (commit_items
            (setIsEditing false (setSelectedEvent upd (setItems l st)))).

(** The [select] listener of the widget, lines 44-50.  [found] is what
    the widget's item set answered for the clicked id ([undefined] when
    nothing is selected). *)
Definition on_select (found : jsval) (st : App) : App :=
  setIsEditing false (setSelectedEvent (or_else found JNull) st).

(** The deferred callback of lines 65-73, for the oldest pending timer:
    the widget is told to select and focus the id, then the record is
    looked up among the items the callback closed over.  An exception
    raised by the lookup ends the callback there. *)
Definition timer_callback (st : App) : App :=
  match timers st with
  | [] => st
  | (idToSelect, closed_items) :: rest =>
      let st1 :=
        setTimeline {| itemsData := itemsData (timelineInstance st);
                       selection := idToSelect |} (setTimers rest st) in
      match find_c (fun e => let! i := get_id e in
                             Normal (strict_eq i idToSelect)) closed_items with
      | Normal ev => if truthy ev then setSelectedEvent ev st1 else st1
      | Throw _ => st1
      end
  end.

(** *** The component as a transition system *)

Inductive event :=
| SubmitAdd (f : Form.t) (now : Z)
| SubmitEdit (f : Form.t)
| ClickDelete
| ClickEdit
| ClickCancel
| ClickExport
| ChooseFile (file : option string)
| TimelineSelect (found : jsval)
| TimerFires.

(** An uncaught exception ends the handler; [handleEditSubmit] and
    [handleDeleteEvent] have set no state by then. *)
Definition settle (st : App) (c : completion App) : App :=
  match c with
  | Normal st' => st'
  | Throw _ => st
  end.

Definition step (st : App) (ev : event) : App :=
  match ev with
  | SubmitAdd f now => handleAddEvent f now st
  | SubmitEdit f => settle st (handleEditSubmit f st)
  | ClickDelete => settle st (handleDeleteEvent st)
  | ClickEdit => setIsEditing true st
  | ClickCancel => setIsEditing false st
  | ClickExport => handleExport st
  | ChooseFile file => handleImport file st
  | TimelineSelect found => on_select found st
  | TimerFires => timer_callback st
  end.

Definition run (st : App) (evs : list event) : App := fold_left step evs st.

(** What the rendered page lets the user do (lines 189-279): the detail
    panel exists while an event is selected, with either the edit form or
    the two buttons; both forms require a title and a start date. *)
Definition form_valid (f : Form.t) : bool :=
  negb (String.eqb (Form.title f) "") && negb (String.eqb (Form.start f) "").

Definition offered (st : App) (ev : event) : bool :=
  match ev with
  | SubmitAdd f _ => form_valid f
  | SubmitEdit f => truthy (selectedEvent st) && isEditing st && form_valid f
  | ClickDelete | ClickEdit => truthy (selectedEvent st) && negb (isEditing st)
  | ClickCancel => truthy (selectedEvent st) && isEditing st
  | ClickExport | ChooseFile _ | TimelineSelect _ => true
  | TimerFires => match timers st with [] => false | _ => true end
  end.

Fixpoint offered_all (st : App) (evs : list event) : bool :=
  match evs with
  | [] => true
  | ev :: r => offered st ev && offered_all (step st ev) r
  end.

(** The states the user can reach from a fresh browser. *)
Inductive reachable : App -> Prop :=
| reach_mount st : mount ∅ = Some st -> reachable st
| reach_step st ev : reachable st -> offered st ev = true -> reachable (step st ev).


(** ** Vocabulary of the properties *)

(** Two stores hold the same records. *)
Definition same_records (a b : list jsval) : Prop := forall r, In r a <-> In r b.

Definition is_record (v : jsval) : bool :=
  match v with JObj _ => true | _ => false end.

Definition is_array (v : jsval) : bool :=
  match v with JArr _ => true | _ => false end.

(** Two records share their id when [a.id === b.id] evaluates to [true]. *)
Definition shares_id (a b : jsval) : bool :=
  match same_id a b with
  | Normal b => b
  | Throw _ => false
  end.

Fixpoint unique_ids (l : list jsval) : bool :=
  match l with
  | [] => true
  | x :: r => forallb (fun y => negb (shares_id x y)) r && unique_ids r
  end.

(** The persisted mirror holds the serialization of the current store. *)
Definition mirror_in_sync (st : App) : Prop :=
  localStorage st !! LOCAL_STORAGE_KEY = JSON.stringify (JArr (items st)) 0.

(** The successful mutations of the store. *)
Inductive mutation : App -> App -> Prop :=
| mutation_add f now st :
    mutation st (handleAddEvent f now st)
| mutation_edit f st st' :
    handleEditSubmit f st = Normal st' -> mutation st st'
| mutation_delete st st' :
    truthy (selectedEvent st) = true ->
    handleDeleteEvent st = Normal st' -> mutation st st'
| mutation_import result data st :
    JSON.parse result = Some (JArr data) ->
    mutation st (handleImport (Some result) st).

(** A text written with apostrophes where JSON has double quotes. *)
Definition json_text (s : string) : string :=
  string_of_list_ascii
    (map (fun c => if Ascii.eqb c "'" then Chars.quote else c)
         (list_ascii_of_string s)).

(** The component right after its first render in a fresh browser. *)
Definition fresh : App :=
  commit_items
    {| items := []; selectedEvent := JNull; isEditing := false;
       pendingSelection := JNull;
       timelineInstance := {| itemsData := []; selection := JNull |};
       localStorage := ∅; timers := []; alerts := []; downloads := [] |}.

Definition launch : Form.t :=
  {| Form.title := "Launch"; Form.start := "2024-01-01"; Form.end_ := "";
     Form.description := ""; Form.image := ""; Form.locationName := "";
     Form.lat := "0"; Form.lng := "0" |}.

Definition zero : jsnum := Finite false [] 0.

(** *** Values that JSON can carry

    A Number survives [JSON.stringify] when it is finite and is not the
    negative zero (a [NaN] or an infinity is written [null], [-0] is written
    [0]); it is kept here in canonical form. *)
Definition json_number_ok (n : jsnum) : bool :=
  match n with
  | Finite neg [] e => negb neg && (e =? 0)
  | Finite _ _ _ => canonical n
  | _ => false
  end.

(** The keys of an object as JavaScript enumerates them: no key twice, and
    no key that would have been placed before an earlier one. *)
Fixpoint keys_ordered (ks : list string) : bool :=
  match ks with
  | [] => true
  | k :: r =>
      forallb (fun k' => negb (String.eqb k' k) && negb (goes_before k' k)) r
        && keys_ordered r
  end.

Fixpoint json_value (v : jsval) : bool :=
  match v with
  | JUndefined => false
  | JNull | JBool _ | JStr _ => true
  | JNum n => json_number_ok n
  | JArr l => forallb json_value l
  | JObj ps =>
      keys_ordered (map fst ps) && forallb (fun kv => json_value (snd kv)) ps
  end.

(** The representation invariant of a value: numbers in canonical form and
    object keys in enumeration order.  Every value the component meets has
    it; what makes a value one JSON can carry is the other half, that it
    holds no [undefined], no [NaN], no infinity and no negative zero. *)
Fixpoint well_formed (v : jsval) : bool :=
  match v with
  | JNum n => canonical n
  | JArr l => forallb well_formed l
  | JObj ps =>
      keys_ordered (map fst ps) && forallb (fun kv => well_formed (snd kv)) ps
  | _ => true
  end.

Fixpoint carriable (v : jsval) : bool :=
  match v with
  | JUndefined => false
  | JNum (Finite neg ds _) => negb (neg && forallb is_d0 ds)
  | JNum _ => false
  | JArr l => forallb carriable l
  | JObj ps => forallb (fun kv => carriable (snd kv)) ps
  | _ => true
  end.

(** What the widget can answer to a selection: a well-formed record, or
    nothing. *)
Definition record_or_nothing (v : jsval) : bool :=
  well_formed v && (is_record v || negb (truthy v)).

Definition answer_ok (ev : event) : bool :=
  match ev with
  | TimelineSelect found => record_or_nothing found
  | _ => true
  end.

(** The representation invariant of a state: well-formed records in the
    store and in the items closed over by pending timers, a selection that
    is a well-formed record or nothing, pending ids that are strings. *)
Definition id_or_null (v : jsval) : bool :=
  match v with JNull | JStr _ => true | _ => false end.

Definition timer_ok (t : jsval * list jsval) : bool :=
  match fst t with JStr _ => forallb well_formed (snd t) | _ => false end.

Definition sound (st : App) : Prop :=
  forallb well_formed (items st) = true
  /\ record_or_nothing (selectedEvent st) = true
  /\ id_or_null (pendingSelection st) = true
  /\ forallb timer_ok (timers st) = true.

(** The fuel [JSON.value] needs for a value. *)
Fixpoint value_size (v : jsval) : nat :=
  match v with
  | JArr l => S (list_sum (map (fun x => S (value_size x)) l))
  | JObj ps => S (list_sum (map (fun kv => S (value_size (snd kv))) ps))
  | _ => 1
  end.

(** What can follow a value in a serialized document. *)
Definition delimited (rest : text) : bool :=
  match rest with
  | [] => true
  | c :: _ =>
      Ascii.eqb c "," || Ascii.eqb c "]" || Ascii.eqb c "}" || Ascii.eqb c LF
  end.

(** The shape of a canonical numeral other than zero. *)
Definition significant (ds : list digit) : Prop :=
  exists d ds' d' ds'',
    ds = d :: ds' /\ rev ds = d' :: ds'' /\ is_d0 d = false /\ is_d0 d' = false.

Definition no_digit_ahead (rest : text) : Prop :=
  match rest with
  | [] => True
  | c :: _ => char_digit c = None
  end.

(** What a serialized value starts with: not white space, not a closing
    bracket. *)
Definition opens (t : text) : bool :=
  match t with
  | [] => false
  | c :: _ => negb (is_ws c) && negb (Ascii.eqb c "]") && negb (Ascii.eqb c "}")
  end.

(** A text [t] parses back to [v] whatever delimited text follows it. *)
Definition reads_back (v : jsval) (t : text) : Prop :=
  opens t = true
  /\ forall rest fuel,
       delimited rest = true -> (value_size v <= fuel)%nat ->
       JSON.value fuel (t ++ rest) = Some (v, rest).

(** The text of an object member: the quoted key, a colon, the separating
    space if any, and a text that parses back to the member's value. *)
Definition member_reads_back (sp : text) (kv : string * jsval) (mt : text) : Prop :=
  exists t,
    mt = JSON.quote_text (fst kv) ++ ":"%char :: sp ++ t /\ reads_back (snd kv) t.

(** [v] survives its serialization with gap [gap]: at every indentation
    it is serialized to a text that parses back to it. *)
Definition survives (gap : text) (v : jsval) : Prop :=
  forall indent, forallb is_ws indent = true ->
    exists t, JSON.serialize gap indent v = Some t /\ reads_back v t.



(** An event that cannot break the uniqueness of ids: an add whose
    fresh record shares its id with no record of the store, an import whose
    array has pairwise distinct ids, and any other event. *)
Definition keeps_ids_apart (st : App) (ev : event) : bool :=
  match ev with
  | SubmitAdd f now =>
      forallb (fun item => negb (shares_id item (newEvent f now))) (items st)
  | ChooseFile (Some result) =>
      match JSON.parse result with
      | Some (JArr data) => unique_ids data
      | _ => true
      end
  | _ => true
  end.

Fixpoint keeps_ids_apart_all (st : App) (evs : list event) : bool :=
  match evs with
  | [] => true
  | ev :: r => keeps_ids_apart st ev && keeps_ids_apart_all (step st ev) r
  end.

(** Two sample records, [A] and [B] of the delete scenario. *)
Definition landing : Form.t :=
  {| Form.title := "Landing"; Form.start := "2024-02-01";
     Form.end_ := "2024-02-02"; Form.description := "back"; Form.image := "";
     Form.locationName := "Pacific"; Form.lat := "-12.5"; Form.lng := "170" |}.

(** A submission whose latitude and longitude fields were left empty, and
    one whose fields hold the word that [parseFloat] reads as an infinity. *)
Definition nowhere : Form.t :=
  {| Form.title := "Launch"; Form.start := "2024-01-01"; Form.end_ := "";
     Form.description := ""; Form.image := ""; Form.locationName := "";
     Form.lat := ""; Form.lng := "" |}.

Definition far_away : Form.t :=
  {| Form.title := "Launch"; Form.start := "2024-01-01"; Form.end_ := "";
     Form.description := ""; Form.image := ""; Form.locationName := "";
     Form.lat := "Infinity"; Form.lng := "-Infinity" |}.

(** The coordinates of a record, [record.location.lat] and
    [record.location.lng]. *)
Definition coordinates (r : jsval) : jsval * jsval :=
  let loc := own_props (lookup_prop "location" (own_props r)) in
  (lookup_prop "lat" loc, lookup_prop "lng" loc).

Definition record_A : jsval := newEvent launch 1704067200000.
Definition record_B : jsval := newEvent landing 1704067260000.

(** *** What a trip through JSON makes of a value

    [JSON.stringify] writes [null] for a [NaN], for an infinity and for an
    [undefined] array element, writes [0] for the negative zero and leaves
    out a property whose value is [undefined]; [jsonify v] is the value
    that the text of [v] denotes. *)
Definition jsonify_number (n : jsnum) : jsval :=
  if is_finite n then (if is_zero n then JNum zero else JNum n) else JNull.

Fixpoint jsonify (v : jsval) : jsval :=
  match v with
  | JUndefined => JNull
  | JNum n => jsonify_number n
  | JArr l => JArr (map jsonify l)
  | JObj ps =>
      JObj (flat_map (fun kv => match snd kv with
                                | JUndefined => []
                                | _ => [(fst kv, jsonify (snd kv))]
                                end) ps)
  | _ => v
  end.

(** A record whose [id] is the string [id]. *)
Definition has_id (id : string) (r : jsval) : bool :=
  match r with
  | JObj ps =>
      match lookup_prop "id" ps with
      | JStr s => String.eqb s id
      | _ => false
      end
  | _ => false
  end.

(** The component right after its first render over [storage], when the
    initializer of the store has answered the array [l]. *)
Definition started (storage : gmap string string) (l : list jsval) : App :=
  commit_items
    {| items := l; selectedEvent := JNull; isEditing := false;
       pendingSelection := JNull;
       timelineInstance := {| itemsData := l; selection := JNull |};
       localStorage := storage; timers := []; alerts := []; downloads := [] |}.

(** The id [Date.now().toString()] of a record created at [now]. *)
Definition id_of_clock (now : Z) : string :=
  string_of_list_ascii (Num.toString (Num.of_Z now)).

(** A value whose properties can be read: [v.id] throws on the other two. *)
Definition readable (v : jsval) : bool :=
  match v with JUndefined | JNull => false | _ => true end.

(** The events whose handlers set neither the store nor anything derived
    from it: the two mode buttons, the export, the widget's selection, the
    deferred selection, and a file dialog closed without a file. *)
Definition passive (ev : event) : bool :=
  match ev with
  | ClickEdit | ClickCancel | ClickExport | TimelineSelect _ | TimerFires
  | ChooseFile None => true
  | _ => false
  end.

(** The widget shows the store. *)
Definition widget_in_sync (st : App) : Prop :=
  itemsData (timelineInstance st) = items st.

(** A session without import in which the clock has advanced between any
    two adds; [last] is the latest timestamp used so far. *)
Fixpoint clock_advances (last : Z) (evs : list event) : bool :=
  match evs with
  | [] => true
  | SubmitAdd _ now :: r => (last <? now) && clock_advances now r
  | ChooseFile (Some _) :: _ => false
  | _ :: r => clock_advances last r
  end.

(** What [parseFloat] makes of the text after the sign, when that text is
    not the word for an infinity: digits, a fraction, an exponent. *)
Definition decimal_literal (neg : bool) (s1 : text) : jsnum :=
  let '(int, s2) := take_digits s1 in
  let '(frac, s3) :=
    match s2 with
    | "."%char :: r2 => take_digits r2
    | _ => ([], s2)
    end in
  match int ++ frac with
  | [] => NaN
  | ds => let '(ex, _) := with_exponent s3 in
          normalize neg ds (ex - Z.of_nat (length frac))
  end.

(** * Properties *)

Lemma mount_fresh : mount ∅ = Some fresh.
Proof. reflexivity. Qed.

(** ** What the effects leave alone *)

Lemma commit_items_frame (st : App) :
  items (commit_items st) = items st
  /\ selectedEvent (commit_items st) = selectedEvent st
  /\ isEditing (commit_items st) = isEditing st
  /\ alerts (commit_items st) = alerts st
  /\ downloads (commit_items st) = downloads st.
Proof.
  unfold commit_items, effect_persist, effect_timeline. cbn.
  by destruct (truthy (pendingSelection st)).
Qed.

Lemma items_commit_items (st : App) : items (commit_items st) = items st.
Proof. apply commit_items_frame. Qed.

Lemma selectedEvent_commit_items (st : App) :
  selectedEvent (commit_items st) = selectedEvent st.
Proof. apply commit_items_frame. Qed.

Lemma isEditing_commit_items (st : App) :
  isEditing (commit_items st) = isEditing st.
Proof. apply commit_items_frame. Qed.

Lemma alerts_commit_items (st : App) : alerts (commit_items st) = alerts st.
Proof. apply commit_items_frame. Qed.

Lemma stringify_array (l : list jsval) (space : nat) :
  JSON.stringify (JArr l) space = Some (stringify_text (JArr l) space).
Proof. reflexivity. Qed.

Lemma commit_items_in_sync (st : App) : mirror_in_sync (commit_items st).
Proof.
  unfold mirror_in_sync. rewrite items_commit_items, stringify_array.
  unfold commit_items, effect_persist. cbn.
  rewrite lookup_insert_eq. f_equal. f_equal. f_equal.
  unfold effect_timeline. cbn. by destruct (truthy (pendingSelection st)).
Qed.

(** ** Import *)

(** C2. An import whose text does not parse, or parses to something that
    is not an array, leaves the store and its persisted mirror as they were
    and shows exactly one alert; the alert for a text that does not parse
    differs from the alert for a value that is not an array. *)
Theorem import_failure_alerts_once (st : App) (result : string) :
  JSON.parse result = None
  \/ (exists v, JSON.parse result = Some v /\ is_array v = false) ->
  let st' := handleImport (Some result) st in
  items st' = items st
  /\ localStorage st' = localStorage st
  /\ selectedEvent st' = selectedEvent st
  /\ alerts st' =
       alerts st ++ [match JSON.parse result with
                     | None => alert_import_error
                     | Some _ => alert_not_array
                     end]
  /\ alert_import_error <> alert_not_array.
Proof.
  intros H. cbn [handleImport]. unfold reader_onload.
  destruct H as [-> | (v & -> & Hv)].
  - repeat split; discriminate.
  - destruct v; try discriminate Hv; repeat split; discriminate.
Qed.

Lemma import_failure_alerts_once_witness :
  let st' := handleImport (Some (json_text "{'id': 1}")) fresh in
  items st' = items fresh
  /\ localStorage st' = localStorage fresh
  /\ selectedEvent st' = selectedEvent fresh
  /\ alerts st' = alerts fresh ++ [alert_not_array]
  /\ alert_import_error <> alert_not_array.
Proof.
  apply (import_failure_alerts_once fresh (json_text "{'id': 1}")).
  right. eexists. split; [vm_compute; reflexivity | reflexivity].
Defined.

(** C6. An import whose text parses to an array replaces the store by
    exactly the elements of that array: an old record that the array does
    not list is gone. *)
Theorem import_replaces_store (st : App) (result : string) (data : list jsval) :
  JSON.parse result = Some (JArr data) ->
  let st' := handleImport (Some result) st in
  items st' = data
  /\ (forall r, In r (items st) -> ~ In r data -> ~ In r (items st'))
  /\ alerts st' = alerts st.
Proof.
  intros H. cbn [handleImport]. unfold reader_onload. rewrite H.
  rewrite items_commit_items, alerts_commit_items. cbn.
  split; [reflexivity | split; [| reflexivity]].
  intros r _ Hr. exact Hr.
Qed.

Lemma import_replaces_store_witness :
  let st := handleAddEvent launch 1700000000000 fresh in
  let st' := handleImport (Some (json_text "[{'id': 'b'}]")) st in
  items st' = [JObj [("id"%string, JStr "b")]]
  /\ (forall r, In r (items st) ->
        ~ In r [JObj [("id"%string, JStr "b")]] -> ~ In r (items st'))
  /\ alerts st' = alerts st.
Proof.
  apply (import_replaces_store (handleAddEvent launch 1700000000000 fresh)
           (json_text "[{'id': 'b'}]")).
  vm_compute. reflexivity.
Defined.

(** ** Add *)



(** C9. Adding the event "Launch" of 2024-01-01, with an empty end date,
    empty description, image and place name and both coordinates "0", to an
    empty store leaves exactly one record in the store; its [end] is [null],
    its [location] is [{name: "", lat: 0, lng: 0}], and it is the selected
    record. *)
Theorem add_launch_to_empty_store (st : App) (now : Z) :
  items st = [] ->
  let st' := handleAddEvent launch now st in
  let r :=
    JObj [("id"%string, JStr (string_of_list_ascii (Num.toString (Num.of_Z now))));
          ("content"%string, JStr "Launch");
          ("start"%string, JStr "2024-01-01");
          ("end"%string, JNull);
          ("title"%string, JStr "Launch");
          ("description"%string, JStr "");
          ("image"%string, JStr "");
          ("location"%string,
             JObj [("name"%string, JStr ""); ("lat"%string, JNum zero);
                   ("lng"%string, JNum zero)]);
          ("linksTo"%string, JArr [])] in
  items st' = [r] /\ selectedEvent st' = r.
Proof.
  intros Hempty. cbn zeta. unfold handleAddEvent.
  rewrite items_commit_items, selectedEvent_commit_items. cbn.
  rewrite Hempty. split; reflexivity.
Qed.

Lemma add_launch_to_empty_store_witness :
  let st' := handleAddEvent launch 1704067200000 fresh in
  let r :=
    JObj [("id"%string, JStr "1704067200000");
          ("content"%string, JStr "Launch");
          ("start"%string, JStr "2024-01-01");
          ("end"%string, JNull);
          ("title"%string, JStr "Launch");
          ("description"%string, JStr "");
          ("image"%string, JStr "");
          ("location"%string,
             JObj [("name"%string, JStr ""); ("lat"%string, JNum zero);
                   ("lng"%string, JNum zero)]);
          ("linksTo"%string, JArr [])] in
  items st' = [r] /\ selectedEvent st' = r.
Proof.
  apply (add_launch_to_empty_store fresh 1704067200000). reflexivity.
Defined.

(** ** Delete *)

(** C10. With no record selected, the delete handler changes nothing: the
    whole state, and with it the store, the persisted mirror and the absent
    selection, is what it was. *)
Theorem delete_without_selection_is_noop (st : App) :
  truthy (selectedEvent st) = false ->
  handleDeleteEvent st = Normal st
  /\ items (step st ClickDelete) = items st
  /\ localStorage (step st ClickDelete) = localStorage st
  /\ selectedEvent (step st ClickDelete) = selectedEvent st.
Proof.
  intros H. cbn [step]. unfold handleDeleteEvent. rewrite H. cbn. done.
Qed.

Lemma delete_without_selection_is_noop_witness :
  handleDeleteEvent fresh = Normal fresh
  /\ items (step fresh ClickDelete) = items fresh
  /\ localStorage (step fresh ClickDelete) = localStorage fresh
  /\ selectedEvent (step fresh ClickDelete) = selectedEvent fresh.
Proof.
  apply (delete_without_selection_is_noop fresh). reflexivity.
Defined.

(** ** Persistence *)

(** C8. After every successful mutation (an add, an edit or a delete that
    completes, an import of a text that parses to an array) local storage
    holds, under the key of the component, the JSON serialization of the
    store as it is now. *)
Theorem mutation_persists_store (st st' : App) :
  mutation st st' -> mirror_in_sync st'.
Proof.
  destruct 1 as [f now st | f st st' H | st st' Hsel H | result data st H].
  - apply commit_items_in_sync.
  - unfold handleEditSubmit in H.
    destruct (map_c _ (items st)); cbn in H; [| discriminate].
    injection H as <-. apply commit_items_in_sync.
  - unfold handleDeleteEvent in H. rewrite Hsel in H. cbn in H.
    destruct (filter_c _ (items st)); cbn in H; [| discriminate].
    injection H as <-. apply commit_items_in_sync.
  - cbn [handleImport]. unfold reader_onload. rewrite H.
    apply commit_items_in_sync.
Qed.

Lemma mutation_persists_store_witness :
  mirror_in_sync (handleAddEvent launch 1704067200000 fresh).
Proof.
  apply (mutation_persists_store fresh (handleAddEvent launch 1704067200000 fresh)).
  apply mutation_add.
Defined.

(** ** Edit *)

Lemma lookup_replace_prop (k k' : string) (v : jsval) (ps : props) :
  has_prop k' ps = true ->
  lookup_prop k (replace_prop k' v ps) =
    if String.eqb k k' then v else lookup_prop k ps.
Proof.
  induction ps as [| [k0 v0] ps IH]; cbn; [done |].
  destruct (String.eqb_spec k' k0) as [-> | Hne]; cbn.
  - intros _. by destruct (String.eqb k k0).
  - intros Hin. rewrite (IH Hin).
    destruct (String.eqb_spec k k0) as [-> | Hne']; [| done].
    destruct (String.eqb_spec k0 k'); congruence.
Qed.

Lemma lookup_insert_prop (k k' : string) (v : jsval) (ps : props) :
  has_prop k' ps = false ->
  lookup_prop k (insert_prop k' v ps) =
    if String.eqb k k' then v else lookup_prop k ps.
Proof.
  induction ps as [| [k0 v0] ps IH]; cbn; [done |].
  intros [Hne Hin]%orb_false_elim.
  destruct (goes_before k' k0); cbn; [done |].
  rewrite (IH Hin).
  destruct (String.eqb_spec k k0) as [-> | Hne']; [| done].
  by rewrite String.eqb_sym, Hne.
Qed.

Lemma lookup_define_prop (k k' : string) (v : jsval) (ps : props) :
  lookup_prop k (define_prop ps (k', v)) =
    if String.eqb k k' then v else lookup_prop k ps.
Proof.
  unfold define_prop. destruct (has_prop k' ps) eqn:H.
  - by apply lookup_replace_prop.
  - by apply lookup_insert_prop.
Qed.

Lemma get_id_record (v : jsval) :
  is_record v = true -> exists i, get_id v = Normal i.
Proof. destruct v; try discriminate. intros _. by eexists. Qed.

Lemma map_c_total (g : jsval -> completion jsval) (h : jsval -> jsval)
    (l : list jsval) :
  Forall (fun x => g x = Normal (h x)) l -> map_c g l = Normal (map h l).
Proof.
  induction 1 as [| x l Hx _ IH]; cbn; [done |]. by rewrite Hx, IH.
Qed.

Lemma updatedEvent_keeps_id (ps : props) (f : Form.t) :
  get_id (updatedEvent (JObj ps) f) = get_id (JObj ps).
Proof.
  unfold updatedEvent, object_literal, define_all.
  cbn [get_id own_props fold_left]. by rewrite !lookup_define_prop.
Qed.





(** ** Equality of values *)

Lemma jsval_nested_ind (P : jsval -> Prop) :
  P JUndefined -> P JNull -> (forall b, P (JBool b)) -> (forall n, P (JNum n)) ->
  (forall s, P (JStr s)) ->
  (forall l, Forall P l -> P (JArr l)) ->
  (forall ps, Forall (fun kv => P (snd kv)) ps -> P (JObj ps)) ->
  forall v, P v.
Proof.
  intros Hu Hn Hb Hnum Hs Ha Ho.
  fix IH 1.
  intros [| | b | n | s | l | ps];
    [exact Hu | exact Hn | apply Hb | apply Hnum | apply Hs | |].
  - apply Ha. revert l. fix IHl 1. intros [| x l]; constructor.
    + apply IH.
    + apply IHl.
  - apply Ho. revert ps. fix IHl 1. intros [| [k x] ps]; constructor.
    + apply IH.
    + apply IHl.
Qed.

Lemma jsval_eqb_eq (a b : jsval) : jsval_eqb a b = true <-> a = b.
Proof.
  revert b. induction a as [| | x | x | x | l IH | ps IH] using jsval_nested_ind;
    intros [| | y | y | y | l' | ps']; cbn; try (split; [discriminate | done]);
    try done.
  - rewrite Bool.eqb_true_iff. split; congruence.
  - rewrite bool_decide_eq_true. split; congruence.
  - rewrite String.eqb_eq. split; congruence.
  - revert l'. induction IH as [| x l Hx _ IHl]; intros [| y l'];
      try (split; [discriminate | done]); try done.
    rewrite andb_true_iff, Hx, IHl. split.
    + intros [-> [= ->]]. done.
    + intros [= -> ->]. done.
  - revert ps'. induction IH as [| [k x] ps Hx _ IHl]; intros [| [k' y] ps'];
      try (split; [discriminate | done]); try done.
    cbn in Hx. rewrite !andb_true_iff, String.eqb_eq, Hx, IHl. split.
    + intros [[-> ->] [= ->]]. done.
    + intros [= -> -> ->]. done.
Qed.

Lemma num_eq_sym (x y : jsnum) : num_eq x y = num_eq y x.
Proof.
  unfold num_eq. destruct (norm x) as [| a | a ds e], (norm y) as [| b | b ds' e'];
    try done.
  - by destruct a, b.
  - destruct (decide (ds = ds')) as [-> | Hne].
    + rewrite Z.eqb_sym. f_equal. f_equal. by destruct a, b.
    + rewrite !bool_decide_eq_false_2; [done | congruence | done].
Qed.

Lemma num_eq_trans (x y z : jsnum) :
  num_eq x y = true -> num_eq y z = true -> num_eq x z = true.
Proof.
  unfold num_eq.
  destruct (norm x) as [| a | a ds e], (norm y) as [| b | b ds' e'],
    (norm z) as [| c | c ds'' e'']; try done.
  - rewrite !Bool.eqb_true_iff. congruence.
  - rewrite !andb_true_iff, !bool_decide_eq_true, !Z.eqb_eq, !orb_true_iff,
      !Bool.eqb_true_iff.
    intros [[-> ->] H1] [[-> ->] H2]. repeat split.
    destruct ds''; [by right |]. left.
    destruct H1 as [-> | ?]; [| done]. by destruct H2.
Qed.

Lemma strict_eq_sym (a b : jsval) : strict_eq a b = strict_eq b a.
Proof.
  assert (H : jsval_eqb a b = jsval_eqb b a).
  { apply eq_true_iff_eq. rewrite !jsval_eqb_eq. split; congruence. }
  destruct a, b; try exact H. apply num_eq_sym.
Qed.

Lemma strict_eq_trans (a b c : jsval) :
  strict_eq a b = true -> strict_eq b c = true -> strict_eq a c = true.
Proof.
  assert (H : jsval_eqb a b = true -> jsval_eqb b c = true -> jsval_eqb a c = true).
  { rewrite !jsval_eqb_eq. congruence. }
  destruct a, b; try discriminate; destruct c; try discriminate; try exact H.
  apply num_eq_trans.
Qed.

Lemma shares_id_sym (a b : jsval) : shares_id a b = shares_id b a.
Proof.
  unfold shares_id, same_id.
  destruct (get_id a), (get_id b); cbn; try done. apply strict_eq_sym.
Qed.

Lemma shares_id_trans (a b c : jsval) :
  shares_id a b = true -> shares_id b c = true -> shares_id a c = true.
Proof.
  unfold shares_id, same_id.
  destruct (get_id a), (get_id b), (get_id c); cbn; try done.
  apply strict_eq_trans.
Qed.

(** ** Uniqueness of ids *)

Lemma unique_ids_snoc (l : list jsval) (x : jsval) :
  unique_ids l = true ->
  forallb (fun item => negb (shares_id item x)) l = true ->
  unique_ids (l ++ [x]) = true.
Proof.
  induction l as [| y l IH]; cbn; [done |].
  rewrite !andb_true_iff. intros [Hy Hl] [Hyx Hlx]. split; [| by apply IH].
  rewrite forallb_app. cbn. by rewrite Hy, Hyx.
Qed.

Lemma unique_ids_middle (l1 l2 : list jsval) (x : jsval) :
  unique_ids (l1 ++ x :: l2) = true ->
  forallb (fun y => negb (shares_id y x)) l1 = true
  /\ forallb (fun y => negb (shares_id x y)) l2 = true.
Proof.
  induction l1 as [| y l1 IH]; cbn.
  - rewrite andb_true_iff. tauto.
  - rewrite forallb_app. cbn. rewrite !andb_true_iff.
    intros [(_ & Hyx & _) Hrest]. destruct (IH Hrest). tauto.
Qed.

Lemma filter_c_total (p : jsval -> completion bool) (q : jsval -> bool)
    (l : list jsval) :
  Forall (fun x => p x = Normal (q x)) l ->
  filter_c p l = Normal (List.filter q l).
Proof.
  induction 1 as [| x l Hx _ IH]; cbn; [done |]. by rewrite Hx, IH.
Qed.

Lemma filter_c_keeps_unique (p : jsval -> completion bool) (l kept : list jsval) :
  filter_c p l = Normal kept ->
  unique_ids l = true ->
  unique_ids kept = true /\ (forall y, In y kept -> In y l).
Proof.
  revert kept. induction l as [| x l IH]; intros kept; cbn.
  - intros [= <-]. done.
  - destruct (p x) as [b |]; cbn; [| discriminate].
    destruct (filter_c p l) as [l' |]; cbn; [| discriminate].
    intros [= <-]. rewrite andb_true_iff. intros [Hx Hl].
    destruct (IH l' eq_refl Hl) as [Hu Hin].
    destruct b; cbn; [| by eauto].
    split; [| intros y [-> | Hy]; by eauto].
    rewrite Hu, andb_true_r. apply forallb_forall. intros y Hy.
    rewrite forallb_forall in Hx. by apply Hx, Hin.
Qed.

(** What [handleEditSubmit] maps over the store. *)
Lemma edit_callback_apart (upd x x' y y' : jsval) :
  bind (same_id x upd) (fun b => Normal (if b then upd else x)) = Normal x' ->
  bind (same_id y upd) (fun b => Normal (if b then upd else y)) = Normal y' ->
  shares_id x y = false -> shares_id x' y' = false.
Proof.
  intros Hx Hy Hxy.
  assert (Ex : exists bx, shares_id x upd = bx /\ x' = if bx then upd else x).
  { unfold shares_id. destruct (same_id x upd) as [b |]; cbn in Hx; [| done].
    injection Hx as <-. by exists b. }
  assert (Ey : exists b, shares_id y upd = b /\ y' = if b then upd else y).
  { unfold shares_id. destruct (same_id y upd) as [b |]; cbn in Hy; [| done].
    injection Hy as <-. by exists b. }
  destruct Ex as (bx & Hbx & ->), Ey as (b & Hb & ->).
  destruct bx, b; try done.
  - rewrite shares_id_sym in Hb.
    by rewrite (shares_id_trans _ _ _ Hbx Hb) in Hxy.
  - by rewrite shares_id_sym.
Qed.

Lemma map_c_preimage (g : jsval -> completion jsval) (l l' : list jsval) :
  map_c g l = Normal l' ->
  forall y', In y' l' -> exists y, In y l /\ g y = Normal y'.
Proof.
  revert l'. induction l as [| x l IH]; intros l'; cbn.
  - intros [= <-] y' [].
  - destruct (g x) as [x' |] eqn:Hx; cbn; [| discriminate].
    destruct (map_c g l) as [r |]; cbn; [| discriminate].
    intros [= <-] y' [<- | Hy]; [by eauto |].
    destruct (IH r eq_refl y' Hy) as (y & ? & ?). by eauto.
Qed.

Lemma edit_keeps_unique (upd : jsval) (l l' : list jsval) :
  map_c (fun item => bind (same_id item upd)
                       (fun b => Normal (if b then upd else item))) l
    = Normal l' ->
  unique_ids l = true -> unique_ids l' = true.
Proof.
  set (g := fun item => _).
  revert l'. induction l as [| x l IH]; intros l'; cbn.
  - by intros [= <-].
  - destruct (g x) as [x' |] eqn:Hx; cbn; [| discriminate].
    destruct (map_c g l) as [r |] eqn:Hr; cbn; [| discriminate].
    intros [= <-]. rewrite andb_true_iff. intros [Hxl Hl]. cbn.
    rewrite (IH r eq_refl Hl), andb_true_r.
    apply forallb_forall. intros y' Hy'.
    destruct (map_c_preimage g l r Hr y' Hy') as (y & Hy & Hgy).
    rewrite forallb_forall in Hxl. specialize (Hxl y Hy).
    apply negb_true_iff. apply negb_true_iff in Hxl.
    exact (edit_callback_apart upd x x' y y' Hx Hgy Hxl).
Qed.

Lemma step_keeps_unique (st : App) (ev : event) :
  unique_ids (items st) = true ->
  keeps_ids_apart st ev = true ->
  unique_ids (items (step st ev)) = true.
Proof.
  intros Hu Hev. destruct ev as [f now | f | | | | | file | found |]; cbn [step].
  - unfold handleAddEvent. rewrite items_commit_items. cbn.
    by apply unique_ids_snoc.
  - unfold handleEditSubmit.
    destruct (map_c _ (items st)) as [l |] eqn:Hl; cbn [bind settle]; [| done].
    rewrite items_commit_items. cbn. by eapply edit_keeps_unique.
  - unfold handleDeleteEvent.
    destruct (truthy (selectedEvent st)); cbn [negb settle]; [| done].
    destruct (filter_c _ (items st)) as [l |] eqn:Hl; cbn [bind settle]; [| done].
    rewrite items_commit_items. cbn.
    by destruct (filter_c_keeps_unique _ _ _ Hl Hu).
  - done.
  - done.
  - done.
  - destruct file as [result |]; [| done].
    cbn [handleImport keeps_ids_apart] in *. unfold reader_onload.
    destruct (JSON.parse result) as [[] |]; try done.
    by rewrite items_commit_items.
  - done.
  - unfold timer_callback.
    destruct (timers st) as [| [i closed] rest]; [done |].
    destruct (find_c _ closed) as [v |]; [| done].
    by destruct (truthy v).
Qed.

(** C7, as the component has it.  In every state reached from the empty
    store through events none of which brings a clash of its own (an add
    whose timestamp id no stored record has yet, an import whose array has
    pairwise distinct ids, and any edit, delete, selection, export or timer)
    no two records of the store share their id. *)
Theorem ids_unique_when_kept_apart (evs : list event) :
  keeps_ids_apart_all fresh evs = true ->
  unique_ids (items (run fresh evs)) = true.
Proof.
  assert (H : forall st, unique_ids (items st) = true ->
                         keeps_ids_apart_all st evs = true ->
                         unique_ids (items (run st evs)) = true).
  { induction evs as [| ev evs IH]; intros st Hu; cbn; [done |].
    rewrite andb_true_iff. intros [Hev Hrest].
    apply IH; [| done]. by apply step_keeps_unique. }
  by apply H.
Qed.

Lemma ids_unique_when_kept_apart_witness :
  unique_ids
    (items (run fresh
       [SubmitAdd launch 1704067200000; TimerFires;
        SubmitAdd launch 1704067260000; ClickEdit; SubmitEdit launch;
        ClickDelete;
        ChooseFile (Some (json_text "[{'id': 'a'}, {'id': 'b'}, {'id': 3}]"));
        SubmitAdd launch 1704067320000])) = true.
Proof.
  apply (ids_unique_when_kept_apart
    [SubmitAdd launch 1704067200000; TimerFires;
     SubmitAdd launch 1704067260000; ClickEdit; SubmitEdit launch;
     ClickDelete;
     ChooseFile (Some (json_text "[{'id': 'a'}, {'id': 'b'}, {'id': 3}]"));
     SubmitAdd launch 1704067320000]).
  vm_compute. reflexivity.
Defined.

(** C7 as the specification states it fails: a file that lists two records
    under one id is an array, so the import installs it as it is, and the
    store reached from the empty one holds two records with the same id. *)
Lemma import_installs_duplicate_ids :
  let file := json_text "[{'id': '7', 'title': 'a'}, {'id': '7', 'title': 'b'}]" in
  let st := step fresh (ChooseFile (Some file)) in
  reachable st
  /\ items st = [JObj [("id"%string, JStr "7"); ("title"%string, JStr "a")];
                 JObj [("id"%string, JStr "7"); ("title"%string, JStr "b")]]
  /\ unique_ids (items st) = false.
Proof.
  cbn zeta. split; [| split; vm_compute; reflexivity].
  apply reach_step; [| reflexivity]. apply reach_mount. reflexivity.
Qed.

(** ** Delete of the selected record *)

Lemma filter_apart (x : jsval) (l : list jsval) :
  forallb (fun y => negb (shares_id y x)) l = true ->
  List.filter (fun y => negb (shares_id y x)) l = l.
Proof.
  induction l as [| y l IH]; cbn; [done |].
  rewrite andb_true_iff. intros [-> Hl]. by rewrite IH.
Qed.

Lemma shares_id_through (x sel y : jsval) :
  shares_id x sel = true -> shares_id y sel = shares_id y x.
Proof.
  intros Hx. apply eq_true_iff_eq. split; intros Hy.
  - rewrite shares_id_sym in Hx. by apply (shares_id_trans y sel x).
  - by apply (shares_id_trans y x sel).
Qed.

(** C5, as the component has it.  In a store of records with pairwise
    distinct ids where the selected record has the id of a stored record,
    the delete handler removes exactly that record, keeps the others in
    their order, and clears the selection. *)
Theorem delete_removes_selected (st : App) (ps : props)
    (before after : list jsval) (x : jsval) :
  selectedEvent st = JObj ps ->
  Forall (fun item => is_record item = true) (items st) ->
  unique_ids (items st) = true ->
  items st = before ++ x :: after ->
  shares_id x (selectedEvent st) = true ->
  exists st',
    handleDeleteEvent st = Normal st'
    /\ items st' = before ++ after
    /\ S (length (items st')) = length (items st)
    /\ selectedEvent st' = JNull.
Proof.
  intros Hsel Hrec Hu Hitems Hx. unfold handleDeleteEvent.
  rewrite Hsel in *. cbn [truthy negb].
  erewrite (filter_c_total _ (fun y => negb (shares_id y (JObj ps)))).
  - cbn [bind]. eexists. split; [reflexivity |].
    rewrite items_commit_items, selectedEvent_commit_items. cbn.
    rewrite Hitems in *. destruct (unique_ids_middle _ _ _ Hu) as [Hb Ha].
    assert (Hf : List.filter (fun y => negb (shares_id y (JObj ps)))
                   (before ++ x :: after) = before ++ after).
    { rewrite (List.filter_ext _ (fun y => negb (shares_id y x)));
        [| intros y; by rewrite (shares_id_through x)].
      rewrite List.filter_app. cbn.
      assert (Hxx : shares_id x x = true).
      { apply (shares_id_trans x (JObj ps) x); [exact Hx |].
        by rewrite shares_id_sym. }
      rewrite Hxx. cbn.
      rewrite (filter_apart x before Hb). f_equal. apply filter_apart.
      rewrite forallb_forall in Ha. apply forallb_forall.
      intros y Hy. rewrite shares_id_sym. by apply Ha. }
    rewrite Hf. repeat split. rewrite !length_app. cbn. lia.
  - eapply Forall_impl; [exact Hrec |]. intros item Hitem. cbn beta in *.
    destruct (get_id_record item Hitem) as [i Hi].
    unfold other_id, shares_id, same_id. rewrite Hi. cbn. reflexivity.
Qed.

Lemma delete_removes_selected_witness :
  let st := run fresh [SubmitAdd launch 1704067200000;
                       SubmitAdd landing 1704067260000;
                       TimelineSelect record_A] in
  items st = [record_A; record_B]
  /\ selectedEvent st = record_A
  /\ exists st',
       handleDeleteEvent st = Normal st'
       /\ items st' = [] ++ [record_B]
       /\ S (length (items st')) = length (items st)
       /\ selectedEvent st' = JNull.
Proof.
  cbn zeta. split; [reflexivity | split; [reflexivity |]].
  apply (delete_removes_selected
           (run fresh [SubmitAdd launch 1704067200000;
                       SubmitAdd landing 1704067260000;
                       TimelineSelect record_A])
           (own_props record_A) [] [record_B] record_A).
  - reflexivity.
  - repeat constructor.
  - vm_compute. reflexivity.
  - reflexivity.
  - vm_compute. reflexivity.
Defined.

(** C5 as the specification states it fails, in both directions.  After
    an import of a file that lists the selected record twice, the store
    holds that record twice and the delete handler removes both copies.
    After an import of a file that does not list the selected record, the
    selection stays, and the delete handler removes no record at all. *)
Lemma delete_does_not_remove_exactly_one :
  (let file := stringify_text (JArr [record_A; record_A]) 2 in
   let evs := [SubmitAdd launch 1704067200000; ChooseFile (Some file)] in
   let st := run fresh evs in
   offered_all fresh (evs ++ [ClickDelete]) = true
   /\ selectedEvent st = record_A
   /\ items st = [record_A; record_A]
   /\ handleDeleteEvent st = Normal (step st ClickDelete)
   /\ items (step st ClickDelete) = []
   /\ selectedEvent (step st ClickDelete) = JNull)
  /\
  (let file := json_text "[{'id': 'b', 'title': 'B'}]" in
   let evs := [SubmitAdd launch 1704067200000; ChooseFile (Some file)] in
   let st := run fresh evs in
   offered_all fresh (evs ++ [ClickDelete]) = true
   /\ selectedEvent st = record_A
   /\ items st = [JObj [("id"%string, JStr "b"); ("title"%string, JStr "B")]]
   /\ handleDeleteEvent st = Normal (step st ClickDelete)
   /\ items (step st ClickDelete) = items st
   /\ selectedEvent (step st ClickDelete) = JNull).
Proof.
  cbn zeta. split; repeat (split; [vm_compute; reflexivity |]);
    vm_compute; reflexivity.
Qed.

(** ** Numbers survive their serialization *)

Lemma char_digit_digit_char (d : digit) : char_digit (digit_char d) = Some d.
Proof. by destruct d. Qed.

Lemma take_digits_text (ds : list digit) (rest : text) :
  no_digit_ahead rest -> take_digits (digits_text ds ++ rest) = (ds, rest).
Proof.
  intros Hrest. unfold digits_text. induction ds as [| d ds IH]; cbn.
  - destruct rest as [| c rest]; [done |]. cbn in *. by rewrite Hrest.
  - by rewrite char_digit_digit_char, IH.
Qed.

Lemma delimited_no_digit (rest : text) : delimited rest = true -> no_digit_ahead rest.
Proof.
  destruct rest as [| c rest]; [done |]. cbn.
  by destruct c as [[] [] [] [] [] [] [] []].
Qed.

Lemma N_of_digits_snoc (ds : list digit) (d : digit) :
  N_of_digits (ds ++ [d]) = (10 * N_of_digits ds + digit_val d)%N.
Proof. unfold N_of_digits. by rewrite fold_left_app. Qed.

Lemma digit_val_of_N (n : N) : (n < 10)%N -> digit_val (digit_of_N n) = n.
Proof.
  intros H. destruct n as [| p]; [done |].
  do 4 (destruct p as [p | p |]; try done); lia.
Qed.

Lemma digits_of_N_aux_acc (fuel : nat) (n : N) (acc : list digit) :
  digits_of_N_aux fuel n acc = digits_of_N_aux fuel n [] ++ acc.
Proof.
  revert n acc. induction fuel as [| f IH]; intros n acc; cbn; [done |].
  destruct (n <? 10)%N; [done |].
  rewrite (IH _ (_ :: acc)), (IH _ [_]). by rewrite <- app_assoc.
Qed.

Lemma N_of_digits_aux (fuel : nat) (n : N) :
  (n < 2 ^ N.of_nat fuel)%N -> N_of_digits (digits_of_N_aux fuel n []) = n.
Proof.
  revert n. induction fuel as [| f IH]; intros n Hn.
  - cbn in *. lia.
  - cbn [digits_of_N_aux]. destruct (N.ltb_spec n 10) as [Hlt | Hge].
    + cbn. by apply digit_val_of_N.
    + rewrite digits_of_N_aux_acc, N_of_digits_snoc, IH.
      * rewrite digit_val_of_N by (apply N.mod_lt; lia).
        symmetry. apply N.div_mod. lia.
      * rewrite Nat2N.inj_succ, N.pow_succ_r' in Hn.
        apply N.Div0.div_lt_upper_bound. lia.
Qed.

Lemma N_of_digits_of_N (n : N) : N_of_digits (digits_of_N n) = n.
Proof.
  unfold digits_of_N. apply N_of_digits_aux.
  destruct n as [| p]; [done |].
  rewrite Nat2N.inj_succ, N2Nat.id. apply N.log2_spec. lia.
Qed.

Lemma digits_of_N_aux_nonempty (fuel : nat) (n : N) :
  digits_of_N_aux (S fuel) n [] <> [].
Proof.
  cbn. destruct (n <? 10)%N; [done |].
  rewrite digits_of_N_aux_acc. by destruct (digits_of_N_aux _ _ _).
Qed.

Lemma digits_of_N_nonempty (n : N) : digits_of_N n <> [].
Proof. apply digits_of_N_aux_nonempty. Qed.

(** *** Canonical numerals *)

Lemma strip_zeros_zeros (i : nat) (ds : list digit) :
  strip_zeros (zeros i ++ ds) = strip_zeros ds.
Proof. induction i as [| i IH]; [done |]. exact IH. Qed.

Lemma strip_zeros_head (d : digit) (ds : list digit) :
  is_d0 d = false -> strip_zeros (d :: ds) = d :: ds.
Proof. by destruct d. Qed.

Lemma rev_zeros (j : nat) : rev (zeros j) = zeros j.
Proof.
  unfold zeros. induction j as [| j IH]; [done |].
  cbn. rewrite IH. clear IH. induction j as [| j IH]; [done |].
  cbn. by rewrite IH.
Qed.

Lemma normalize_padded (neg : bool) (i j : nat) (ds : list digit) (e : Z) :
  significant ds ->
  normalize neg (zeros i ++ ds ++ zeros j) e = Finite neg ds (e + Z.of_nat j).
Proof.
  intros (d & ds' & d' & ds'' & Hds & Hrev & Hd & Hd').
  assert (H1 : strip_zeros (zeros i ++ ds ++ zeros j) = ds ++ zeros j).
  { rewrite strip_zeros_zeros, Hds. cbn [app]. by apply strip_zeros_head. }
  assert (H2 : strip_zeros (rev (ds ++ zeros j)) = rev ds).
  { rewrite rev_app_distr, rev_zeros, strip_zeros_zeros, Hrev.
    by apply strip_zeros_head. }
  unfold normalize. rewrite H1, H2.
  rewrite rev_involutive, length_rev, length_app, Hrev.
  f_equal. unfold zeros. rewrite repeat_length. lia.
Qed.

Lemma normalize_trailing (neg : bool) (j : nat) (ds : list digit) (e : Z) :
  significant ds ->
  normalize neg (ds ++ zeros j) e = Finite neg ds (e + Z.of_nat j).
Proof. intros H. exact (normalize_padded neg 0 j ds e H). Qed.

Lemma normalize_leading (neg : bool) (i : nat) (ds : list digit) (e : Z) :
  significant ds -> normalize neg (zeros i ++ ds) e = Finite neg ds e.
Proof.
  intros H. pose proof (normalize_padded neg i 0 ds e H) as Hn.
  cbn in Hn. rewrite app_nil_r, Z.add_0_r in Hn. exact Hn.
Qed.

Lemma normalize_significant (neg : bool) (ds : list digit) (e : Z) :
  significant ds -> normalize neg ds e = Finite neg ds e.
Proof.
  intros H. pose proof (normalize_padded neg 0 0 ds e H) as Hn.
  cbn in Hn. rewrite app_nil_r, Z.add_0_r in Hn. exact Hn.
Qed.

Lemma canonical_significant (neg : bool) (d : digit) (ds : list digit) (e : Z) :
  canonical (Finite neg (d :: ds) e) = true -> significant (d :: ds).
Proof.
  cbn [canonical]. destruct (rev (d :: ds)) as [| d' ds''] eqn:Hrev.
  - apply (f_equal (@length digit)) in Hrev. rewrite length_rev in Hrev. done.
  - intros [Hd Hd']%andb_true_iff. exists d, ds, d', ds''.
    by rewrite !negb_true_iff in *.
Qed.

(** *** The parts of a number literal *)

Lemma json_integer_text (d : digit) (ds : list digit) (rest : text) :
  is_d0 d = false -> no_digit_ahead rest ->
  json_integer (digits_text (d :: ds) ++ rest) = Some (d :: ds, rest).
Proof.
  intros Hd Hrest. unfold json_integer. cbn [digits_text map app].
  rewrite char_digit_digit_char, Hd.
  by rewrite <- (take_digits_text (d :: ds) rest Hrest).
Qed.

Lemma json_fraction_text (ds : list digit) (rest : text) :
  ds <> [] -> no_digit_ahead rest ->
  json_fraction ("."%char :: digits_text ds ++ rest) = (ds, rest).
Proof.
  intros Hds Hrest. unfold json_fraction.
  rewrite (take_digits_text _ _ Hrest). by destruct ds.
Qed.

Lemma json_fraction_none (rest : text) :
  delimited rest = true -> json_fraction rest = ([], rest).
Proof.
  destruct rest as [| c rest]; [done |].
  by destruct c as [[] [] [] [] [] [] [] []].
Qed.

Lemma with_exponent_none (rest : text) :
  delimited rest = true -> with_exponent rest = (0, rest).
Proof.
  destruct rest as [| c rest]; [done |].
  by destruct c as [[] [] [] [] [] [] [] []].
Qed.

Lemma with_exponent_text (z : Z) (rest : text) :
  no_digit_ahead rest ->
  with_exponent
    ("e"%char :: (if z <? 0 then "-"%char else "+"%char)
       :: digits_text (digits_of_N (Z.abs_N z)) ++ rest) = (z, rest).
Proof.
  intros Hrest. unfold with_exponent, exponent_part. cbn [Ascii.eqb Bool.eqb orb].
  destruct (digits_of_N (Z.abs_N z)) as [| d ds] eqn:Hds;
    [by destruct (digits_of_N_nonempty (Z.abs_N z)) |].
  assert (Hval : N_of_digits (d :: ds) = Z.abs_N z)
    by (rewrite <- Hds; apply N_of_digits_of_N).
  destruct (Z.ltb_spec z 0); rewrite (take_digits_text _ _ Hrest), Hval;
    f_equal; lia.
Qed.

Lemma json_number_signed (neg : bool) (d : digit) (t : text) :
  json_number ((if neg then ["-"%char] else []) ++ digit_char d :: t)
  = json_unsigned neg (digit_char d :: t).
Proof. by destruct neg, d. Qed.

Lemma json_unsigned_toString (neg : bool) (ds : list digit) (e : Z) (rest : text) :
  significant ds -> delimited rest = true ->
  json_unsigned neg (finite_toString ds e ++ rest) = Some (Finite neg ds e, rest).
Proof.
  intros Hsig Hrest. pose proof Hsig as (d & ds' & d' & ds'' & Hds & _ & Hd & _).
  pose proof (delimited_no_digit rest Hrest) as Hnd.
  assert (Hlen : length ds = S (length ds')) by (by rewrite Hds).
  unfold finite_toString, json_unsigned.
  set (k := Z.of_nat (length ds)). set (n := e + k).
  destruct ((k <=? n) && (n <=? 21)) eqn:HA;
    [| destruct ((0 <? n) && (n <=? 21)) eqn:HB;
       [| destruct ((-6 <? n) && (n <=? 0)) eqn:HC]].
  - (* an integer: the digits, then zeros *)
    apply andb_true_iff in HA as [H1%Z.leb_le H2%Z.leb_le].
    unfold digits_text at 1 2. rewrite <- map_app. fold (digits_text (ds ++ zeros (Z.to_nat (n - k)))).
    rewrite Hds at 1. cbn [app]. rewrite (json_integer_text _ _ _ Hd Hnd).
    rewrite (json_fraction_none _ Hrest), (with_exponent_none _ Hrest).
    rewrite app_nil_r. change (d :: ds' ++ ?z) with ((d :: ds') ++ z).
    rewrite <- Hds. rewrite (normalize_trailing neg _ ds _ Hsig).
    do 3 f_equal. cbn [length]. subst n k. lia.
  - (* a decimal point inside the digits *)
    apply andb_true_iff in HB as [H1%Z.ltb_lt H2%Z.leb_le].
    assert (Hnk : n < k).
    { destruct (Z.leb_spec k n); [| done]. cbn in HA.
      apply Z.leb_gt in HA. lia. }
    destruct (Z.to_nat n) as [| m] eqn:Hm; [subst n k; lia |].
    destruct (skipn (S m) ds) as [| f fs] eqn:Hskip.
    { apply (f_equal (@length digit)) in Hskip. rewrite length_skipn in Hskip.
      cbn in Hskip. subst n k. lia. }
    rewrite <- app_assoc. cbn [app]. rewrite Hds at 1. cbn [firstn].
    rewrite (json_integer_text _ _ _ Hd) by done.
    rewrite json_fraction_text by done.
    rewrite (with_exponent_none _ Hrest).
    change (d :: firstn m ds') with (firstn (S m) (d :: ds')).
    rewrite <- Hds, <- Hskip, firstn_skipn, (normalize_significant _ _ _ Hsig).
    do 3 f_equal. rewrite length_skipn. subst n k. lia.
  - (* a value below one: [0.], zeros, then the digits *)
    apply andb_true_iff in HC as [H1%Z.ltb_lt H2%Z.leb_le].
    cbn [app json_integer char_digit is_d0].
    unfold digits_text at 1 2. rewrite <- map_app.
    fold (digits_text (zeros (Z.to_nat (- n)) ++ ds)).
    rewrite json_fraction_text; [| by rewrite Hds; destruct (zeros _) | done].
    rewrite (with_exponent_none _ Hrest).
    change (d0 :: zeros ?i ++ ds) with (zeros (S i) ++ ds).
    rewrite (normalize_leading neg _ ds _ Hsig).
    do 3 f_equal. rewrite length_app. unfold zeros. rewrite repeat_length.
    subst n k. lia.
  - (* scientific notation *)
    rewrite Hds. destruct ds' as [| f fs].
    + cbn [app]. change [digit_char d] with (digits_text [d]).
      change (digit_char d :: ?t) with (digits_text [d] ++ t).
      rewrite (json_integer_text _ _ _ Hd) by done.
      cbn [json_fraction]. rewrite (with_exponent_text _ _ Hnd).
      rewrite <- Hds, app_nil_r, (normalize_significant _ _ _ Hsig).
      do 3 f_equal. subst n k. rewrite Hds. cbn [length]. lia.
    + cbn [app]. rewrite <- app_assoc. cbn [app].
      change (digit_char d :: ?t) with (digits_text [d] ++ t).
      rewrite (json_integer_text _ _ _ Hd) by done.
      rewrite json_fraction_text by done.
      rewrite (with_exponent_text _ _ Hnd).
      change ([d] ++ f :: fs) with (d :: f :: fs).
      rewrite <- Hds, (normalize_significant _ _ _ Hsig).
      do 3 f_equal. subst n k. rewrite Hds. cbn [length]. lia.
Qed.

Lemma finite_toString_head (ds : list digit) (e : Z) :
  significant ds -> exists d t, finite_toString ds e = digit_char d :: t.
Proof.
  intros (d & ds' & _ & _ & Hds & _). unfold finite_toString.
  set (k := Z.of_nat (length ds)). set (n := e + k).
  destruct ((k <=? n) && (n <=? 21));
    [| destruct ((0 <? n) && (n <=? 21)) eqn:HB;
       [| destruct ((-6 <? n) && (n <=? 0))]].
  - rewrite Hds. cbn. by eauto.
  - apply andb_true_iff in HB as [H1%Z.ltb_lt _].
    destruct (Z.to_nat n) as [| m] eqn:Hm; [lia |].
    rewrite Hds. cbn. by eauto.
  - by exists d0, ("."%char :: digits_text (zeros (Z.to_nat (- n))) ++ digits_text ds).
  - rewrite Hds. destruct ds'; by eauto.
Qed.

Lemma json_number_toString (x : jsnum) (rest : text) :
  json_number_ok x = true -> delimited rest = true ->
  json_number (Num.toString x ++ rest) = Some (x, rest).
Proof.
  intros Hx Hrest. destruct x as [| | neg [| d ds] e]; try done.
  - cbn in Hx. apply andb_true_iff in Hx as [Hneg ->%Z.eqb_eq].
    destruct neg; [done |]. cbn.
    unfold json_unsigned. cbn [json_integer char_digit is_d0].
    by rewrite (json_fraction_none _ Hrest), (with_exponent_none _ Hrest).
  - pose proof (canonical_significant _ _ _ _ Hx) as Hsig.
    unfold Num.toString. cbn [norm]. rewrite (normalize_significant _ _ _ Hsig).
    destruct (finite_toString_head (d :: ds) e Hsig) as (d1 & t & Ht).
    rewrite <- app_assoc.
    pose proof (json_unsigned_toString neg (d :: ds) e rest Hsig Hrest) as Hp.
    rewrite Ht in *. cbn [app] in *. by rewrite json_number_signed.
Qed.

Lemma toString_opens (x : jsnum) (rest : text) :
  json_number_ok x = true -> opens (Num.toString x ++ rest) = true.
Proof.
  intros Hx. destruct x as [| | neg [| d ds] e]; try done.
  pose proof (canonical_significant _ _ _ _ Hx) as Hsig.
  unfold Num.toString. cbn [norm]. rewrite (normalize_significant _ _ _ Hsig).
  destruct (finite_toString_head (d :: ds) e Hsig) as (d1 & t & ->).
  by destruct neg, d1.
Qed.

(** ** Strings survive their serialization *)

Lemma string_body_escape (c : ascii) (t : text) :
  JSON.string_body (JSON.escape_char c ++ t) =
    match JSON.string_body t with
    | Some (cs, rest) => Some (c :: cs, rest)
    | None => None
    end.
Proof. destruct c as [[] [] [] [] [] [] [] []]; reflexivity. Qed.

Lemma string_body_quoted (cs : text) (rest : text) :
  JSON.string_body (flat_map JSON.escape_char cs ++ quote :: rest) = Some (cs, rest).
Proof.
  induction cs as [| c cs IH]; [done |].
  cbn [flat_map]. rewrite <- app_assoc, string_body_escape. by rewrite IH.
Qed.

Lemma value_quote (fuel : nat) (t : text) :
  JSON.value (S fuel) (quote :: t) =
    match JSON.string_body t with
    | Some (cs, rest) => Some (JStr (string_of_list_ascii cs), rest)
    | None => None
    end.
Proof. reflexivity. Qed.

Lemma value_quote_text (fuel : nat) (s : string) (rest : text) :
  JSON.value (S fuel) (JSON.quote_text s ++ rest) = Some (JStr s, rest).
Proof.
  unfold JSON.quote_text. cbn [app]. rewrite value_quote.
  rewrite <- app_assoc. cbn [app].
  rewrite string_body_quoted. by rewrite string_of_list_ascii_of_string.
Qed.

(** ** Objects are rebuilt in their own order *)

Lemma has_prop_false (k : string) (ps : props) :
  forallb (fun k' => negb (String.eqb k k')) (map fst ps) = true ->
  has_prop k ps = false.
Proof.
  induction ps as [| [k' v] ps IH]; cbn; [done |].
  rewrite andb_true_iff, negb_true_iff. intros [-> H]. by apply IH.
Qed.

Lemma insert_prop_last (k : string) (v : jsval) (ps : props) :
  forallb (fun k' => negb (goes_before k k')) (map fst ps) = true ->
  insert_prop k v ps = ps ++ [(k, v)].
Proof.
  induction ps as [| [k' v'] ps IH]; cbn; [done |].
  rewrite andb_true_iff, negb_true_iff. intros [-> H]. by rewrite IH.
Qed.

Lemma keys_ordered_snoc (ks : list string) (k : string) :
  keys_ordered (ks ++ [k]) = true ->
  keys_ordered ks = true
  /\ forallb (fun k' => negb (String.eqb k k') && negb (goes_before k k')) ks = true.
Proof.
  induction ks as [| k0 ks IH]; cbn; [done |].
  rewrite forallb_app. cbn. rewrite !andb_true_iff.
  intros [(H1 & (H2 & H3) & _) H4]. destruct (IH H4) as [H5 H6].
  by rewrite H1, H2, H3, H5, H6.
Qed.

Lemma define_all_ordered (ps : props) :
  keys_ordered (map fst ps) = true -> define_all [] ps = ps.
Proof.
  unfold define_all. rewrite <- (rev_involutive ps).
  induction (rev ps) as [| [k v] r IH]; [done |].
  cbn [rev]. rewrite map_app, fold_left_app. cbn [map fold_left fst].
  intros [Hr Hk]%keys_ordered_snoc. rewrite (IH Hr).
  unfold define_prop. rewrite has_prop_false, insert_prop_last; [done | |].
  - rewrite forallb_forall in Hk. apply forallb_forall. intros k' Hk'.
    by destruct (andb_prop _ _ (Hk k' Hk')).
  - rewrite forallb_forall in Hk. apply forallb_forall. intros k' Hk'.
    by destruct (andb_prop _ _ (Hk k' Hk')).
Qed.

(** ** White space *)

Lemma skip_ws_ws (w t : text) :
  forallb is_ws w = true -> JSON.skip_ws (w ++ t) = JSON.skip_ws t.
Proof.
  induction w as [| c w IH]; cbn; [done |].
  rewrite andb_true_iff. intros [-> H]. by apply IH.
Qed.

Lemma skip_ws_opens (t : text) : opens t = true -> JSON.skip_ws t = t.
Proof.
  destruct t as [| c t]; [done |]. cbn.
  rewrite !andb_true_iff, !negb_true_iff. by intros [[-> _] _].
Qed.

Lemma opens_app (t rest : text) : opens t = true -> opens (t ++ rest) = true.
Proof. by destruct t. Qed.

(** ** One step of the parser *)

Lemma value_open_bracket (fuel : nat) (w t : text) :
  forallb is_ws w = true -> opens t = true ->
  JSON.value (S fuel) ("["%char :: w ++ t) =
    match JSON.elements fuel t with
    | Some (vs, rest) => Some (JArr vs, rest)
    | None => None
    end.
Proof.
  intros Hw Ht. cbn [JSON.value Ascii.eqb Bool.eqb].
  rewrite (skip_ws_ws w t Hw), (skip_ws_opens t Ht).
  destruct t as [| c t]; [done |]. cbn in Ht.
  by destruct (Ascii.eqb c "]"); [rewrite andb_false_r in Ht |].
Qed.

Lemma value_open_brace (fuel : nat) (w t : text) :
  forallb is_ws w = true -> opens t = true ->
  JSON.value (S fuel) ("{"%char :: w ++ t) =
    match JSON.members fuel t with
    | Some (kvs, rest) => Some (JObj (define_all [] kvs), rest)
    | None => None
    end.
Proof.
  intros Hw Ht. cbn [JSON.value Ascii.eqb Bool.eqb].
  rewrite (skip_ws_ws w t Hw), (skip_ws_opens t Ht).
  destruct t as [| c t]; [done |]. cbn in Ht.
  by destruct (Ascii.eqb c "}"); [rewrite andb_false_r in Ht |].
Qed.

Lemma value_number (fuel : nat) (neg : bool) (d : digit) (t : text) :
  JSON.value (S fuel) ((if neg then ["-"%char] else []) ++ digit_char d :: t) =
    match json_number ((if neg then ["-"%char] else []) ++ digit_char d :: t) with
    | Some (n, rest) => Some (JNum n, rest)
    | None => None
    end.
Proof. by destruct neg, d. Qed.

Lemma elements_step (fuel : nat) (s : text) :
  JSON.elements (S fuel) s =
    match JSON.value fuel s with
    | Some (v, r) =>
        match JSON.skip_ws r with
        | [] => None
        | c :: r' =>
            if Ascii.eqb c "," then
              match JSON.elements fuel (JSON.skip_ws r') with
              | Some (vs, rest) => Some (v :: vs, rest)
              | None => None
              end
            else if Ascii.eqb c "]" then Some ([v], r')
            else None
        end
    | None => None
    end.
Proof. reflexivity. Qed.

Lemma members_step (fuel : nat) (t : text) :
  JSON.members (S fuel) (quote :: t) =
    match JSON.string_body t with
    | Some (k, r1) =>
        match JSON.skip_ws r1 with
        | [] => None
        | c1 :: r2 =>
            if Ascii.eqb c1 ":" then
              match JSON.value fuel (JSON.skip_ws r2) with
              | Some (v, r3) =>
                  let kv := (string_of_list_ascii k, v) in
                  match JSON.skip_ws r3 with
                  | [] => None
                  | c :: r4 =>
                      if Ascii.eqb c "," then
                        match JSON.members fuel (JSON.skip_ws r4) with
                        | Some (kvs, rest) => Some (kv :: kvs, rest)
                        | None => None
                        end
                      else if Ascii.eqb c "}" then Some ([kv], r4)
                      else None
                  end
              | None => None
              end
            else None
        end
    | None => None
    end.
Proof. reflexivity. Qed.

(** ** Arrays and objects survive their serialization *)

Lemma join_opens (sep : text) (t : text) (ts : list text) (rest : text) :
  opens t = true -> opens (JSON.join sep (t :: ts) ++ rest) = true.
Proof.
  intros Ht. destruct ts; cbn [JSON.join]; [by apply opens_app |].
  rewrite <- app_assoc. by apply opens_app.
Qed.

Lemma elements_join (w1 w2 : text) (l : list jsval) (ts : list text)
    (rest : text) (fuel : nat) :
  forallb is_ws w1 = true -> forallb is_ws w2 = true ->
  delimited (w2 ++ "]"%char :: rest) = true ->
  Forall2 reads_back l ts -> l <> [] ->
  (list_sum (map (fun x => S (value_size x)) l) <= fuel)%nat ->
  JSON.elements fuel (JSON.join (","%char :: w1) ts ++ w2 ++ "]"%char :: rest)
  = Some (l, rest).
Proof.
  intros Hw1 Hw2 Hd Hall. revert fuel.
  induction Hall as [| x t l ts [Hopen Hx] Hall IH]; intros fuel Hne Hfuel; [done |].
  simpl in Hfuel. destruct fuel as [| f]; [lia |].
  rewrite elements_step. destruct Hall as [| y t' l' ts' Hy Hall'].
  - cbn [JSON.join]. rewrite (Hx _ f Hd) by (simpl in Hfuel; lia).
    rewrite (skip_ws_ws _ _ Hw2). done.
  - change (JSON.join (","%char :: w1) (t :: t' :: ts'))
      with (t ++ (","%char :: w1) ++ JSON.join (","%char :: w1) (t' :: ts')).
    rewrite <- !app_assoc. cbn [app].
    rewrite (Hx _ f) by (done || lia).
    cbn [JSON.skip_ws is_ws Ascii.eqb Bool.eqb].
    rewrite (skip_ws_ws _ _ Hw1), skip_ws_opens by (apply join_opens, Hy).
    rewrite IH; [done | done | lia].
Qed.

Lemma members_join (sp w1 w2 : text) (ps : props) (mts : list text)
    (rest : text) (fuel : nat) :
  forallb is_ws sp = true -> forallb is_ws w1 = true -> forallb is_ws w2 = true ->
  delimited (w2 ++ "}"%char :: rest) = true ->
  Forall2 (member_reads_back sp) ps mts -> ps <> [] ->
  (list_sum (map (fun kv => S (value_size (snd kv))) ps) <= fuel)%nat ->
  JSON.members fuel (JSON.join (","%char :: w1) mts ++ w2 ++ "}"%char :: rest)
  = Some (ps, rest).
Proof.
  intros Hsp Hw1 Hw2 Hd Hall. revert fuel.
  induction Hall as [| [k x] mt ps mts (t & -> & Hopen & Hx) Hall IH];
    intros fuel Hne Hfuel; [done |].
  simpl in Hfuel, Hopen, Hx. destruct fuel as [| f]; [lia |].
  assert (Hstep : forall tail,
    delimited tail = true ->
    JSON.members (S f) ((JSON.quote_text k ++ ":"%char :: sp ++ t) ++ tail) =
      match JSON.skip_ws tail with
      | [] => None
      | c :: r4 =>
          if Ascii.eqb c "," then
            match JSON.members f (JSON.skip_ws r4) with
            | Some (kvs, rest) => Some ((k, x) :: kvs, rest)
            | None => None
            end
          else if Ascii.eqb c "}" then Some ([(k, x)], r4)
          else None
      end).
  { intros tail Htail. unfold JSON.quote_text. cbn [app]. rewrite members_step.
    rewrite <- !app_assoc. cbn [app]. rewrite string_body_quoted.
    cbn [JSON.skip_ws is_ws Ascii.eqb Bool.eqb]. rewrite <- app_assoc.
    rewrite (skip_ws_ws _ _ Hsp), skip_ws_opens by (by apply opens_app).
    rewrite (Hx _ f Htail) by lia.
    by rewrite string_of_list_ascii_of_string. }
  destruct Hall as [| [k' y] mt' ps' mts' (t' & -> & Hy) Hall'].
  - cbn [JSON.join fst]. rewrite (Hstep _ Hd).
    by rewrite (skip_ws_ws _ _ Hw2).
  - cbn [fst snd] in *.
    change (JSON.join ?sep (?a :: ?b :: ?c))
      with (a ++ sep ++ JSON.join sep (b :: c)).
    rewrite <- (app_assoc _ _ (w2 ++ _)).
    rewrite Hstep by done. rewrite <- !app_assoc.
    cbn [app JSON.skip_ws is_ws Ascii.eqb Bool.eqb].
    rewrite (skip_ws_ws _ _ Hw1).
    set (tail := JSON.join _ _ ++ _) in *.
    assert (Htail : opens tail = true) by (by apply join_opens).
    rewrite (skip_ws_opens _ Htail). subst tail.
    rewrite IH; [done | done | lia].
Qed.

Lemma toString_shape (x : jsnum) :
  json_number_ok x = true ->
  exists (neg : bool) (d : digit) (t : text),
    Num.toString x = (if neg then ["-"%char] else []) ++ digit_char d :: t.
Proof.
  intros Hx. destruct x as [| | neg [| d ds] e]; try done.
  - by exists false, d0, (@nil ascii).
  - pose proof (canonical_significant _ _ _ _ Hx) as Hsig.
    unfold Num.toString. cbn [norm]. rewrite (normalize_significant _ _ _ Hsig).
    destruct (finite_toString_head (d :: ds) e Hsig) as (d1 & t & ->).
    by exists neg, d1, t.
Qed.

Lemma number_reads_back (x : jsnum) :
  json_number_ok x = true -> reads_back (JNum x) (Num.toString x).
Proof.
  intros Hx. split.
  - rewrite <- (app_nil_r (Num.toString x)). by apply toString_opens.
  - intros rest [| f] Hrest Hf; [cbn in Hf; lia |].
    pose proof (json_number_toString x rest Hx Hrest) as Hp.
    destruct (toString_shape x Hx) as (neg & d & t & Ht).
    rewrite Ht in *. rewrite <- app_assoc in *. cbn [app] in *.
    by rewrite value_number, Hp.
Qed.

Section Serialization.

Variable gap : text.
Hypothesis Hgap : forallb is_ws gap = true.

Lemma array_reads_back (indent : text) (l : list jsval) (ts : list text) :
  forallb is_ws indent = true ->
  Forall2 reads_back l ts ->
  reads_back (JArr l) (JSON.wrap "[" "]" gap indent ts).
Proof.
  intros Hindent Hall. split; [by destruct ts, gap |].
  intros rest [| f] Hrest Hf; [cbn in Hf; lia |]. cbn [value_size] in Hf.
  destruct Hall as [| x t l ts Hx Hall]; [done |].
  assert (Hsum : (list_sum (map (fun x => S (value_size x)) (x :: l)) <= f)%nat) by lia.
  assert (Hopen : forall sep tail, opens (JSON.join sep (t :: ts) ++ tail) = true)
    by (intros; apply join_opens, Hx).
  assert (Hall' : Forall2 reads_back (x :: l) (t :: ts)) by (by constructor).
  unfold JSON.wrap. pose proof Hgap as Hgap'.
  destruct gap as [| g gap0] eqn:Egap.
  - pose proof (value_open_bracket f [] _ eq_refl
                  (Hopen [","%char] ("]"%char :: rest))) as Hv.
    pose proof (elements_join [] [] (x :: l) (t :: ts) rest f
                  eq_refl eq_refl eq_refl Hall') as He.
    cbn [app] in *. rewrite <- app_assoc. cbn [app].
    rewrite Hv, He; [done | done | lia].
  - set (gap' := g :: gap0) in *.
    assert (Hw : forallb is_ws (LF :: indent ++ gap') = true)
      by (cbn; by rewrite forallb_app, Hindent, Hgap').
    pose proof (value_open_bracket f _ _ Hw
                  (Hopen (","%char :: LF :: indent ++ gap')
                         ((LF :: indent) ++ "]"%char :: rest))) as Hv.
    pose proof (elements_join (LF :: indent ++ gap') (LF :: indent)
                  (x :: l) (t :: ts) rest f Hw) as He.
    cbn [app] in *. rewrite <- !app_assoc. cbn [app].
    rewrite <- ?app_assoc. cbn [app].
    rewrite <- !app_assoc in Hv. rewrite Hv, He; [done | | done | done | done | lia].
    cbn. by rewrite Hindent.
Qed.

Lemma object_reads_back (indent : text) (ps : props) (mts : list text) :
  forallb is_ws indent = true ->
  keys_ordered (map fst ps) = true ->
  Forall2 (member_reads_back (match gap with [] => [] | _ => [SP] end)) ps mts ->
  reads_back (JObj ps) (JSON.wrap "{" "}" gap indent mts).
Proof.
  intros Hindent Hkeys Hall. split; [by destruct mts, gap |].
  intros rest [| f] Hrest Hf; [cbn in Hf; lia |]. cbn [value_size] in Hf.
  destruct Hall as [| kv mt ps mts Hkv Hall]; [done |].
  assert (Hsum : (list_sum (map (fun kv => S (value_size (snd kv))) (kv :: ps))
                  <= f)%nat) by lia.
  assert (Hopen : forall sep tail, opens (JSON.join sep (mt :: mts) ++ tail) = true).
  { intros. apply join_opens. by destruct Hkv as (t & -> & _). }
  assert (Hall' : Forall2 (member_reads_back (match gap with [] => [] | _ => [SP] end))
                    (kv :: ps) (mt :: mts)) by (by constructor).
  unfold JSON.wrap. pose proof Hgap as Hgap'.
  destruct gap as [| g gap0] eqn:Egap.
  - pose proof (value_open_brace f [] _ eq_refl
                  (Hopen [","%char] ("}"%char :: rest))) as Hv.
    pose proof (members_join [] [] [] (kv :: ps) (mt :: mts) rest f
                  eq_refl eq_refl eq_refl eq_refl Hall') as He.
    cbn [app] in *. rewrite <- app_assoc. cbn [app].
    rewrite Hv, He; [by rewrite (define_all_ordered _ Hkeys) | done | lia].
  - set (gap' := g :: gap0) in *.
    assert (Hw : forallb is_ws (LF :: indent ++ gap') = true)
      by (cbn; by rewrite forallb_app, Hindent, Hgap').
    pose proof (value_open_brace f _ _ Hw
                  (Hopen (","%char :: LF :: indent ++ gap')
                         ((LF :: indent) ++ "}"%char :: rest))) as Hv.
    pose proof (members_join [SP] (LF :: indent ++ gap') (LF :: indent)
                  (kv :: ps) (mt :: mts) rest f eq_refl Hw) as He.
    cbn [app] in *. rewrite <- !app_assoc. cbn [app].
    rewrite <- ?app_assoc. cbn [app].
    rewrite <- !app_assoc in Hv. rewrite Hv, He;
      [by rewrite (define_all_ordered _ Hkeys) | | done | done | done | lia].
    cbn. by rewrite Hindent.
Qed.

(** Every value that JSON can carry parses back from its serialization,
    compact or indented. *)
Lemma json_value_survives (v : jsval) : json_value v = true -> survives gap v.
Proof.
  induction v as [| | b | n | s | l IH | ps IH] using jsval_nested_ind;
    intros Hv indent Hindent; cbn [JSON.serialize].
  - done.
  - eexists. split; [reflexivity |]. split; [done |].
    intros rest [| f] _ Hf; [cbn in Hf; lia | reflexivity].
  - destruct b; (eexists; split; [reflexivity |]; split; [done |]);
      (intros rest [| f] _ Hf; [cbn in Hf; lia | reflexivity]).
  - cbn in Hv. assert (Hfin : is_finite n = true) by (by destruct n).
    rewrite Hfin. eexists. split; [reflexivity |]. by apply number_reads_back.
  - eexists. split; [reflexivity |]. split; [done |].
    intros rest [| f] _ Hf; [cbn in Hf; lia |]. apply value_quote_text.
  - eexists. split; [reflexivity |].
    apply array_reads_back; [done |].
    cbn in Hv. induction IH as [| x l Hx _ IHl]; [constructor |].
    cbn in Hv. apply andb_true_iff in Hv as [Hvx Hvl]. cbn [map].
    constructor; [| by apply IHl].
    destruct (Hx Hvx (indent ++ gap)) as (t & -> & Ht); [| done].
    by rewrite forallb_app, Hindent, Hgap.
  - eexists. split; [reflexivity |].
    cbn in Hv. apply andb_true_iff in Hv as [Hkeys Hv].
    apply object_reads_back; [done | done |]. clear Hkeys.
    induction IH as [| [k x] ps Hx _ IHl]; [constructor |].
    cbn in Hv, Hx. apply andb_true_iff in Hv as [Hvx Hvl]. cbn [flat_map snd fst].
    destruct (Hx Hvx (indent ++ gap)) as (t & -> & Ht).
    { by rewrite forallb_app, Hindent, Hgap. }
    cbn [app]. constructor; [| by apply IHl].
    exists t. split; [| done]. cbn [fst]. by destruct gap.
Qed.

End Serialization.

(** ** The fuel of [JSON.parse] is enough *)

Lemma join_length (sep : text) (parts : list text) :
  sep <> [] ->
  (list_sum (map (fun t => S (length t)) parts)
   <= S (length (JSON.join sep parts)))%nat.
Proof.
  intros Hsep. induction parts as [| t parts IH]; [cbn; lia |].
  destruct parts as [| t' parts]; [cbn; lia |].
  change (JSON.join sep (t :: t' :: parts))
    with (t ++ sep ++ JSON.join sep (t' :: parts)).
  rewrite !length_app. simpl map in *. simpl list_sum in *.
  destruct sep; [done |]. cbn [length]. lia.
Qed.

Lemma wrap_length (o c : ascii) (gap indent : text) (parts : list text) :
  (list_sum (map (fun t => S (length t)) parts)
   < length (JSON.wrap o c gap indent parts))%nat.
Proof.
  unfold JSON.wrap. destruct parts as [| t parts]; [cbn; lia |].
  destruct gap as [| g gap].
  - assert (H := join_length [","%char] (t :: parts) ltac:(done)).
    cbn [length]. rewrite length_app. cbn [length]. lia.
  - assert (H := join_length (","%char :: LF :: indent ++ g :: gap) (t :: parts)
                   ltac:(done)).
    cbn [length]. rewrite !length_app. cbn [length]. lia.
Qed.

Lemma list_sum_le (A B : Type) (f : A -> nat) (g : B -> nat)
    (R : A -> B -> Prop) (l : list A) (l' : list B) :
  Forall2 R l l' -> (forall a b, R a b -> (f a <= g b)%nat) ->
  (list_sum (map f l) <= list_sum (map g l'))%nat.
Proof.
  intros Hall Hle. induction Hall as [| a b l l' Hab _ IH]; [done |].
  simpl. specialize (Hle a b Hab). lia.
Qed.

Lemma serialize_length (gap : text) (v : jsval) :
  json_value v = true ->
  forall indent t,
    JSON.serialize gap indent v = Some t -> (value_size v <= length t)%nat.
Proof.
  induction v as [| | b | n | s | l IH | ps IH] using jsval_nested_ind;
    intros Hv indent t; cbn [JSON.serialize value_size].
  - done.
  - intros [= <-]. cbn. lia.
  - destruct b; intros [= <-]; cbn; lia.
  - cbn in Hv. assert (Hfin : is_finite n = true) by (by destruct n).
    rewrite Hfin. intros [= <-].
    destruct (toString_shape n Hv) as (neg & d & t & ->).
    rewrite length_app. cbn. lia.
  - intros [= <-]. cbn. lia.
  - intros [= <-].
    eapply Nat.le_trans; [| apply wrap_length].
    apply le_n_S. cbn in Hv. rewrite map_map.
    induction IH as [| x l Hx _ IHl]; [done |].
    cbn in Hv. apply andb_true_iff in Hv as [Hvx Hvl].
    simpl. specialize (IHl Hvl).
    destruct (JSON.serialize gap (indent ++ gap) x) as [t |] eqn:Ht.
    + specialize (Hx Hvx _ _ Ht). lia.
    + destruct x as [| | [] | | | |]; cbn in Ht; done.
  - intros [= <-].
    eapply Nat.le_trans; [| apply wrap_length].
    apply le_n_S. cbn in Hv. apply andb_true_iff in Hv as [_ Hv].
    induction IH as [| [k x] ps Hx _ IHl]; [done |].
    cbn in Hv, Hx. apply andb_true_iff in Hv as [Hvx Hvl].
    specialize (IHl Hvl). cbn [flat_map map snd fst].
    change (list_sum (?a :: ?r)) with (a + list_sum r)%nat.
    destruct (JSON.serialize gap (indent ++ gap) x) as [t |] eqn:Ht.
    + specialize (Hx Hvx _ _ Ht). cbn [app map].
      change (list_sum (?a :: ?r)) with (a + list_sum r)%nat.
      cbn [length]. rewrite !length_app. cbn [length]. rewrite length_app. lia.
    + destruct x as [| | [] | | | |]; cbn in Ht; done.
Qed.

(** [JSON.parse] undoes [JSON.stringify] on the values JSON can carry,
    whatever the indentation. *)
Lemma parse_stringify (v : jsval) (space : nat) :
  json_value v = true ->
  exists s, JSON.stringify v space = Some s /\ JSON.parse s = Some v.
Proof.
  intros Hv. set (gap := JSON.gap_of_space space).
  assert (Hgap : forallb is_ws gap = true).
  { unfold gap, JSON.gap_of_space. induction (Nat.min space 10); [done |].
    done. }
  destruct (json_value_survives gap Hgap v Hv [] eq_refl) as (t & Ht & Hopen & Hback).
  exists (string_of_list_ascii t). unfold JSON.stringify. fold gap. rewrite Ht.
  split; [done |]. unfold JSON.parse, lit.
  rewrite list_ascii_of_string_of_list_ascii, (skip_ws_opens t Hopen).
  pose proof (Hback [] (S (length t)) eq_refl) as Hp.
  rewrite app_nil_r in Hp. rewrite Hp; [done |].
  pose proof (serialize_length gap v Hv [] t Ht). lia.
Qed.

(** ** [JSON.parse] never runs out of fuel

    Whatever a run of the parser with some fuel produces, a run with as
    much fuel as characters were consumed produces too; so the fuel
    [S (length s)] that [JSON.parse] takes stands for unbounded recursion. *)

Lemma skip_ws_length (s : text) : (length (JSON.skip_ws s) <= length s)%nat.
Proof.
  induction s as [| c s IH]; cbn; [done |]. destruct (is_ws c); cbn; lia.
Qed.

Lemma strip_prefix_length (p s r : text) :
  strip_prefix p s = Some r -> length s = (length p + length r)%nat.
Proof.
  revert s. induction p as [| a p IH]; intros [| b s]; cbn; try done.
  - by intros [= <-].
  - by intros [= <-].
  - destruct (Ascii.eqb a b); [| done]. intros H. by rewrite (IH _ H).
Qed.

Lemma take_digits_length (s : text) :
  length s = (length (take_digits s).1 + length (take_digits s).2)%nat.
Proof.
  induction s as [| c s IH]; cbn; [done |].
  destruct (char_digit c); [| done].
  destruct (take_digits s) as [ds r]. cbn in *. lia.
Qed.

Lemma string_body_length (s cs r : text) :
  JSON.string_body s = Some (cs, r) -> (length r < length s)%nat.
Proof.
  remember (length s) as n eqn:Hn. revert s cs r Hn.
  induction n as [n IH] using lt_wf_ind. intros [| c s] cs r ->; cbn; [done |].
  destruct (Ascii.eqb c quote); [intros [= _ <-]; lia |].
  destruct (Ascii.eqb c backslash).
  - destruct s as [| e s]; [done |]. destruct (Ascii.eqb e "u").
    + destruct s as [| h1 [| h2 [| h3 [| h4 s]]]]; try done.
      destruct (JSON.hex4 h1 h2 h3 h4) as [k |]; [| done].
      destruct (k <? 256)%N; [| done].
      destruct (JSON.string_body s) as [[cs' r'] |] eqn:Hs; [| done].
      intros [= _ <-]. pose proof (IH (length s) ltac:(cbn; lia) s cs' r' eq_refl Hs).
      cbn. lia.
    + destruct (JSON.unescape e); [| done].
      destruct (JSON.string_body s) as [[cs' r'] |] eqn:Hs; [| done].
      intros [= _ <-]. pose proof (IH (length s) ltac:(cbn; lia) s cs' r' eq_refl Hs).
      cbn. lia.
  - destruct (N_of_ascii c <? 32)%N; [done |].
    destruct (JSON.string_body s) as [[cs' r'] |] eqn:Hs; [| done].
    intros [= _ <-]. pose proof (IH (length s) ltac:(cbn; lia) s cs' r' eq_refl Hs).
    cbn. lia.
Qed.

Lemma json_unsigned_length (neg : bool) (s : text) (n : jsnum) (r : text) :
  json_unsigned neg s = Some (n, r) -> (length r < length s)%nat.
Proof.
  unfold json_unsigned, json_integer. destruct s as [| c s]; [done |].
  destruct (char_digit c) as [d |] eqn:Hc; [| done].
  set (p := if is_d0 d then _ else _).
  assert (Hp : (length p.2 <= length s)%nat).
  { subst p. destruct (is_d0 d); [done |].
    pose proof (take_digits_length (c :: s)) as H. cbn in *. rewrite Hc in *.
    destruct (take_digits s). cbn in *. lia. }
  destruct p as [int s2]. cbn in Hp.
  assert (Hf : (length (json_fraction s2).2 <= length s2)%nat).
  { unfold json_fraction. destruct s2 as [| c2 s2]; [done |].
    destruct (Ascii.eqb_spec c2 "."); [| by destruct c2 as [[] [] [] [] [] [] [] []]].
    subst c2. pose proof (take_digits_length s2) as H.
    destruct (take_digits s2) as [[| f fs] r2]; cbn in *; lia. }
  destruct (json_fraction s2) as [frac s3]. cbn in Hf.
  assert (He : (length (with_exponent s3).2 <= length s3)%nat).
  { unfold with_exponent, exponent_part. destruct s3 as [| c3 s3]; [done |].
    destruct (Ascii.eqb c3 "e" || Ascii.eqb c3 "E"); [| done].
    set (q := match s3 with [] => _ | _ => _ end).
    assert (Hq : (length q.2 <= length s3)%nat).
    { subst q. destruct s3 as [| c4 s4]; [done |].
      destruct c4 as [[] [] [] [] [] [] [] []]; cbn; lia. }
    destruct q as [sg r1]. cbn in Hq.
    pose proof (take_digits_length r1) as H.
    destruct (take_digits r1) as [[| x xs] r2]; cbn in *; lia. }
  destruct (with_exponent s3) as [ex s4]. cbn in He.
  intros [= _ <-]. cbn. lia.
Qed.

Lemma json_number_length (s : text) (n : jsnum) (r : text) :
  json_number s = Some (n, r) -> (length r < length s)%nat.
Proof.
  unfold json_number. destruct s as [| c s]; [done |].
  destruct (Ascii.eqb_spec c "-") as [-> | Hc].
  - intros H%json_unsigned_length. cbn. lia.
  - assert (H : forall A (x y : A),
        match c with "-"%char => x | _ => y end = y).
    { intros. by destruct c as [[] [] [] [] [] [] [] []]. }
    rewrite H. apply json_unsigned_length.
Qed.

(** The fuel of a second run is positive as soon as it covers at least one
    consumed character. *)
Ltac more_fuel f' Hf := intros [| f'] Hf; [first [lia | cbn in Hf; lia] |].

Lemma fuel_enough (f : nat) :
  (forall s v r, JSON.value f s = Some (v, r) ->
     (length r < length s)%nat
     /\ forall f', (length s - length r <= f')%nat -> JSON.value f' s = Some (v, r))
  /\ (forall s vs r, JSON.elements f s = Some (vs, r) ->
     (length r < length s)%nat
     /\ forall f', (length s - length r <= f')%nat ->
                   JSON.elements f' s = Some (vs, r))
  /\ (forall s kvs r, JSON.members f s = Some (kvs, r) ->
     (length r < length s)%nat
     /\ forall f', (length s - length r <= f')%nat ->
                   JSON.members f' s = Some (kvs, r)).
Proof.
  induction f as [| f (IHv & IHe & IHm)]; [done |]. split; [| split].
  - intros [| c s] v r; cbn [JSON.value]; [done |].
    destruct (Ascii.eqb c "n") eqn:E1;
      [| destruct (Ascii.eqb c "t") eqn:E2;
         [| destruct (Ascii.eqb c "f") eqn:E3;
            [| destruct (Ascii.eqb c quote) eqn:E4;
               [| destruct (Ascii.eqb c "[") eqn:E5;
                  [| destruct (Ascii.eqb c "{") eqn:E6]]]]].
    + unfold JSON.keyword. destruct (strip_prefix _ _) as [r' |] eqn:Hp; [| done].
      intros [= <- <-]. pose proof (strip_prefix_length _ _ _ Hp) as Hl.
      cbn in Hl. split; [cbn; lia |]. more_fuel f' Hf.
      cbn [JSON.value]. rewrite E1. unfold JSON.keyword. by rewrite Hp.
    + unfold JSON.keyword. destruct (strip_prefix _ _) as [r' |] eqn:Hp; [| done].
      intros [= <- <-]. pose proof (strip_prefix_length _ _ _ Hp) as Hl.
      cbn in Hl. split; [cbn; lia |]. more_fuel f' Hf.
      cbn [JSON.value]. rewrite E1, E2. unfold JSON.keyword. by rewrite Hp.
    + unfold JSON.keyword. destruct (strip_prefix _ _) as [r' |] eqn:Hp; [| done].
      intros [= <- <-]. pose proof (strip_prefix_length _ _ _ Hp) as Hl.
      cbn in Hl. split; [cbn; lia |]. more_fuel f' Hf.
      cbn [JSON.value]. rewrite E1, E2, E3. unfold JSON.keyword. by rewrite Hp.
    + destruct (JSON.string_body s) as [[cs r'] |] eqn:Hs; [| done].
      intros [= <- <-]. pose proof (string_body_length _ _ _ Hs) as Hl.
      split; [cbn; lia |]. more_fuel f' Hf.
      cbn [JSON.value]. by rewrite E1, E2, E3, E4, Hs.
    + pose proof (skip_ws_length s) as Hw.
      destruct (JSON.skip_ws s) as [| c' t] eqn:Hk; [done |].
      destruct (Ascii.eqb c' "]") eqn:E7.
      * intros [= <- <-]. cbn in Hw. split; [cbn; lia |].
        more_fuel f' Hf.
        cbn [JSON.value]. by rewrite E1, E2, E3, E4, E5, Hk, E7.
      * destruct (JSON.elements f (c' :: t)) as [[vs r'] |] eqn:He; [| done].
        intros [= <- <-]. destruct (IHe _ _ _ He) as [Hl Hf1].
        cbn in Hw, Hl. split; [cbn; lia |].
        more_fuel f' Hf.
        cbn [JSON.value]. rewrite E1, E2, E3, E4, E5, Hk, E7.
        rewrite Hf1; [done |]. cbn in *. lia.
    + pose proof (skip_ws_length s) as Hw.
      destruct (JSON.skip_ws s) as [| c' t] eqn:Hk; [done |].
      destruct (Ascii.eqb c' "}") eqn:E7.
      * intros [= <- <-]. cbn in Hw. split; [cbn; lia |].
        more_fuel f' Hf.
        cbn [JSON.value]. by rewrite E1, E2, E3, E4, E5, E6, Hk, E7.
      * destruct (JSON.members f (c' :: t)) as [[kvs r'] |] eqn:He; [| done].
        intros [= <- <-]. destruct (IHm _ _ _ He) as [Hl Hf1].
        cbn in Hw, Hl. split; [cbn; lia |].
        more_fuel f' Hf.
        cbn [JSON.value]. rewrite E1, E2, E3, E4, E5, E6, Hk, E7.
        rewrite Hf1; [done |]. cbn in *. lia.
    + destruct (json_number (c :: s)) as [[n r'] |] eqn:Hn; [| done].
      intros [= <- <-]. pose proof (json_number_length _ _ _ Hn) as Hl.
      split; [done |]. more_fuel f' Hf.
      cbn [JSON.value]. by rewrite E1, E2, E3, E4, E5, E6, Hn.
  - intros s vs r. cbn [JSON.elements].
    destruct (JSON.value f s) as [[v r1] |] eqn:Hv; [| done].
    destruct (IHv _ _ _ Hv) as [Hl1 Hf1].
    pose proof (skip_ws_length r1) as Hw1.
    destruct (JSON.skip_ws r1) as [| c r2] eqn:Hk; [done |]. cbn in Hw1.
    destruct (Ascii.eqb c ",") eqn:E1; [| destruct (Ascii.eqb c "]") eqn:E2].
    + pose proof (skip_ws_length r2) as Hw2.
      destruct (JSON.elements f (JSON.skip_ws r2)) as [[vs' r'] |] eqn:He; [| done].
      intros [= <- <-]. destruct (IHe _ _ _ He) as [Hl2 Hf2].
      split; [lia |]. more_fuel f' Hf. cbn [JSON.elements].
      rewrite Hf1 by lia. rewrite Hk, E1, Hf2; [done | lia].
    + intros [= <- <-]. split; [lia |]. more_fuel f' Hf.
      cbn [JSON.elements]. rewrite Hf1 by lia. by rewrite Hk, E1, E2.
    + done.
  - intros [| q s] kvs r; cbn [JSON.members]; [done |].
    destruct (Ascii.eqb q quote) eqn:E0; [| done].
    destruct (JSON.string_body s) as [[k r1] |] eqn:Hs; [| done].
    pose proof (string_body_length _ _ _ Hs) as Hl0.
    pose proof (skip_ws_length r1) as Hw1.
    destruct (JSON.skip_ws r1) as [| c1 r2] eqn:Hk1; [done |]. cbn in Hw1.
    destruct (Ascii.eqb c1 ":") eqn:E1; [| done].
    pose proof (skip_ws_length r2) as Hw2.
    destruct (JSON.value f (JSON.skip_ws r2)) as [[v r3] |] eqn:Hv; [| done].
    destruct (IHv _ _ _ Hv) as [Hl1 Hf1].
    pose proof (skip_ws_length r3) as Hw3.
    destruct (JSON.skip_ws r3) as [| c r4] eqn:Hk3; [done |]. cbn in Hw3.
    destruct (Ascii.eqb c ",") eqn:E2; [| destruct (Ascii.eqb c "}") eqn:E3].
    + pose proof (skip_ws_length r4) as Hw4.
      destruct (JSON.members f (JSON.skip_ws r4)) as [[kvs' r'] |] eqn:Hm; [| done].
      intros [= <- <-]. destruct (IHm _ _ _ Hm) as [Hl2 Hf2].
      split; [cbn; lia |]. more_fuel f' Hf.
      cbn [JSON.members]. rewrite E0, Hs, Hk1, E1.
      rewrite Hf1 by (cbn in Hf; lia). rewrite Hk3, E2.
      rewrite Hf2; [done |]. cbn in Hf. lia.
    + intros [= <- <-]. split; [cbn; lia |].
      more_fuel f' Hf.
      cbn [JSON.members]. rewrite E0, Hs, Hk1, E1.
      rewrite Hf1 by (cbn in Hf; lia). by rewrite Hk3, E2, E3.
    + done.
Qed.

(** A complete parse found with any amount of fuel is the answer of
    [JSON.parse]. *)
Theorem parse_fuel_independent (fuel : nat) (s : string) (v : jsval) (r : text) :
  JSON.value fuel (JSON.skip_ws (lit s)) = Some (v, r) ->
  JSON.skip_ws r = [] ->
  JSON.parse s = Some v.
Proof.
  intros Hv Hr. unfold JSON.parse.
  destruct (fuel_enough fuel) as (Hval & _ & _).
  destruct (Hval _ _ _ Hv) as [_ Hf]. rewrite Hf by lia. by rewrite Hr.
Qed.

(** ** The mirror is in sync in every reachable state *)

Lemma step_in_sync (st : App) (ev : event) :
  mirror_in_sync st -> mirror_in_sync (step st ev).
Proof.
  intros Hs. destruct ev as [f now | f | | | | | file | found |]; cbn [step].
  - apply commit_items_in_sync.
  - unfold handleEditSubmit.
    destruct (map_c _ (items st)); cbn [bind settle]; [| done].
    apply commit_items_in_sync.
  - unfold handleDeleteEvent.
    destruct (truthy (selectedEvent st)); cbn [negb settle]; [| done].
    destruct (filter_c _ (items st)); cbn [bind settle]; [| done].
    apply commit_items_in_sync.
  - done.
  - done.
  - done.
  - destruct file as [result |]; [| done]. cbn [handleImport].
    unfold reader_onload. destruct (JSON.parse result) as [[] |]; try done.
    apply commit_items_in_sync.
  - done.
  - unfold timer_callback. destruct (timers st) as [| [i closed] rest]; [done |].
    destruct (find_c _ closed) as [v |]; [| done]. by destruct (truthy v).
Qed.

Lemma reachable_in_sync (st : App) : reachable st -> mirror_in_sync st.
Proof.
  induction 1 as [st Hm | st ev _ IH _].
  - rewrite mount_fresh in Hm. injection Hm as <-. apply commit_items_in_sync.
  - by apply step_in_sync.
Qed.

(** ** Which records JSON can carry

    The numbers the forms produce are always in canonical form, so a record
    built by the add form is carried by JSON exactly when both its
    coordinates are finite and are not the negative zero. *)

Lemma strip_zeros_spec (l : list digit) :
  exists i, l = zeros i ++ strip_zeros l
            /\ match strip_zeros l with
               | [] => True
               | d :: _ => is_d0 d = false
               end.
Proof.
  induction l as [| d l (i & Hl & Hd)]; [by exists 0%nat |].
  destruct d; try (by exists 0%nat).
  exists (S i). cbn [strip_zeros]. split; [| done].
  change (zeros (S i) ++ ?t) with (d0 :: zeros i ++ t). by f_equal.
Qed.

Lemma normalize_canonical (neg : bool) (ds : list digit) (e : Z) :
  canonical (normalize neg ds e) = true.
Proof.
  unfold normalize.
  destruct (strip_zeros_spec ds) as (i & _ & Hhead).
  destruct (strip_zeros_spec (rev (strip_zeros ds))) as (j & Hrev & Hlast).
  destruct (strip_zeros (rev (strip_zeros ds))) as [| d' r]; [done |].
  apply (f_equal (@rev digit)) in Hrev.
  rewrite rev_involutive, rev_app_distr, rev_zeros in Hrev.
  remember (rev (d' :: r)) as m eqn:Hm.
  assert (Hback : rev m = d' :: r) by (subst m; apply rev_involutive).
  unfold canonical. destruct m as [| d t]; [done |]. rewrite Hback.
  rewrite Hrev in Hhead. cbn in Hhead. by rewrite Hhead, Hlast.
Qed.

Lemma parseFloat_canonical (input : string) : canonical (parseFloat input) = true.
Proof.
  unfold parseFloat.
  destruct (match trim_start (lit input) with [] => _ | _ => _ end) as [neg s1].
  destruct (strip_prefix _ s1); [done |].
  destruct (take_digits s1) as [int s2].
  destruct (match s2 with [] => _ | _ => _ end) as [frac s3].
  destruct (int ++ frac) as [| d ds]; [done |].
  destruct (with_exponent s3). apply normalize_canonical.
Qed.

Lemma parseFloat_json_number_ok (input : string) :
  json_number_ok (parseFloat input) = true
  <-> is_finite (parseFloat input) = true /\ parseFloat input <> Finite true [] 0.
Proof.
  pose proof (parseFloat_canonical input) as Hc.
  destruct (parseFloat input) as [| | neg [| d ds] e]; cbn in *;
    try (split; [done | by intros []]).
  apply Z.eqb_eq in Hc as ->. destruct neg; cbn; split; try done.
  by intros [_ []].
Qed.

Lemma newEvent_json_value (f : Form.t) (now : Z) :
  json_number_ok (parseFloat (Form.lat f)) = true ->
  json_number_ok (parseFloat (Form.lng f)) = true ->
  json_value (newEvent f now) = true.
Proof.
  intros Hlat Hlng. unfold newEvent, location_of, object_literal.
  generalize (string_of_list_ascii (Num.toString (of_Z now))). intros id.
  cbn. rewrite Hlat, Hlng. unfold or_else. by destruct (truthy _).
Qed.

(** ** Start-up and the clock *)

(** With no entry under the key of the component, the store starts empty
    and the mirror is written at once. *)
Lemma mount_without_entry (storage : gmap string string) :
  storage !! LOCAL_STORAGE_KEY = None ->
  exists st, mount storage = Some st /\ items st = [] /\ mirror_in_sync st.
Proof.
  intros H. unfold mount, initial_items. rewrite H. eexists.
  split; [reflexivity |]. split; [apply items_commit_items |].
  apply commit_items_in_sync.
Qed.


(** ** Well-formed values

    What JSON can carry is what is well formed and carriable; and
    well-formedness comes for free: [JSON.parse] and both forms produce
    nothing else. *)

Lemma json_number_ok_split (n : jsnum) :
  json_number_ok n = canonical n && carriable (JNum n).
Proof.
  destruct n as [| | neg [| d ds] e]; cbn; try done.
  - by destruct neg, (e =? 0).
  - destruct (rev ds ++ [d]) as [| d' t] eqn:Hr.
    + by destruct (rev ds).
    + destruct (is_d0 d); cbn; [done |]. by rewrite andb_false_r, andb_true_r.
Qed.

Lemma json_value_split (v : jsval) : json_value v = well_formed v && carriable v.
Proof.
  induction v as [| | b | n | s | l IH | ps IH] using jsval_nested_ind;
    cbn [json_value well_formed carriable]; try done.
  - apply json_number_ok_split.
  - induction IH as [| x l Hx _ IHl]; [done |]. cbn. rewrite Hx, IHl.
    destruct (well_formed x), (carriable x), (forallb well_formed l); cbn;
      try done; by rewrite ?andb_false_r.
  - rewrite <- andb_assoc. f_equal.
    induction IH as [| [k x] ps Hx _ IHl]; [done |]. cbn in *. rewrite Hx, IHl.
    destruct (well_formed x), (carriable x),
      (forallb (fun kv => well_formed kv.2) ps); cbn;
      try done; by rewrite ?andb_false_r.
Qed.

Lemma goes_before_trans (a b c : string) :
  goes_before a b = true -> goes_before b c = true -> goes_before a c = true.
Proof.
  unfold goes_before.
  destruct (array_index a), (array_index b), (array_index c); try done.
  rewrite !N.ltb_lt. lia.
Qed.

Lemma goes_before_asym (a b : string) :
  goes_before a b = true -> goes_before b a = false.
Proof.
  unfold goes_before. destruct (array_index a), (array_index b); try done.
  rewrite N.ltb_lt, N.ltb_ge. lia.
Qed.

Lemma insert_prop_keys (k : string) (v : jsval) (ps : props) (k' : string) :
  In k' (map fst (insert_prop k v ps)) <-> k' = k \/ In k' (map fst ps).
Proof.
  induction ps as [| [k0 v0] ps IH]; cbn; [intuition congruence |].
  destruct (goes_before k k0); cbn; [intuition congruence |].
  rewrite IH. tauto.
Qed.

Lemma insert_prop_ordered (k : string) (v : jsval) (ps : props) :
  has_prop k ps = false ->
  keys_ordered (map fst ps) = true ->
  keys_ordered (map fst (insert_prop k v ps)) = true.
Proof.
  induction ps as [| [k0 v0] ps IH]; cbn; [done |].
  intros [Hk0 Hk]%orb_false_elim [Hall Hord]%andb_true_iff.
  rewrite forallb_forall in Hall.
  destruct (goes_before k k0) eqn:Hgb; cbn.
  - rewrite String.eqb_sym, Hk0, (goes_before_asym _ _ Hgb). cbn.
    rewrite Hord, andb_true_r. apply andb_true_iff. split; [| by apply forallb_forall].
    apply forallb_forall. intros k' Hk'.
    destruct (andb_prop _ _ (Hall k' Hk')) as [_ Hnb%negb_true_iff].
    apply andb_true_iff. split.
    + apply negb_true_iff. destruct (String.eqb_spec k' k) as [-> | ?]; [| done].
      clear -Hk Hk'. exfalso. induction ps as [| [k1 v1] ps IHp]; [done |].
      cbn in *. apply orb_false_elim in Hk as [Hne Hk].
      destruct Hk' as [-> | Hk']; [by rewrite String.eqb_refl in Hne | by eauto].
    + apply negb_true_iff. destruct (goes_before k' k) eqn:Hgb'; [| done].
      by rewrite (goes_before_trans _ _ _ Hgb' Hgb) in Hnb.
  - rewrite (IH Hk Hord), andb_true_r. apply forallb_forall. intros k' Hk'.
    apply insert_prop_keys in Hk' as [-> | Hk']; [| by apply Hall].
    by rewrite Hk0, Hgb.
Qed.

Lemma replace_prop_keys (k : string) (v : jsval) (ps : props) :
  map fst (replace_prop k v ps) = map fst ps.
Proof.
  induction ps as [| [k0 v0] ps IH]; cbn; [done |].
  destruct (String.eqb_spec k k0) as [-> | ?]; cbn; [done |]. by rewrite IH.
Qed.

Lemma define_prop_ordered (ps : props) (kv : string * jsval) :
  keys_ordered (map fst ps) = true ->
  keys_ordered (map fst (define_prop ps kv)) = true.
Proof.
  destruct kv as [k v]. unfold define_prop. destruct (has_prop k ps) eqn:Hk.
  - by rewrite replace_prop_keys.
  - by apply insert_prop_ordered.
Qed.

Lemma define_prop_values (P : jsval -> bool) (ps : props) (kv : string * jsval) :
  forallb (fun kv => P (snd kv)) ps = true -> P (snd kv) = true ->
  forallb (fun kv => P (snd kv)) (define_prop ps kv) = true.
Proof.
  destruct kv as [k v]. cbn. intros Hps Hv. unfold define_prop.
  destruct (has_prop k ps).
  - induction ps as [| [k0 v0] ps IH]; cbn in *; [done |].
    apply andb_true_iff in Hps as [H0 Hps].
    destruct (String.eqb k k0); cbn; [by rewrite Hv | by rewrite H0, IH].
  - induction ps as [| [k0 v0] ps IH]; cbn in *; [by rewrite Hv |].
    apply andb_true_iff in Hps as [H0 Hps].
    destruct (goes_before k k0); cbn; [by rewrite Hv, H0, Hps | by rewrite H0, IH].
Qed.

Lemma define_all_well_formed (ps kvs : props) :
  well_formed (JObj ps) = true ->
  forallb (fun kv => well_formed (snd kv)) kvs = true ->
  well_formed (JObj (define_all ps kvs)) = true.
Proof.
  unfold define_all. revert ps. induction kvs as [| kv kvs IH]; intros ps; [done |].
  cbn [fold_left forallb]. intros [Hord Hps]%andb_true_iff [Hkv Hkvs]%andb_true_iff.
  apply IH; [| done]. cbn [well_formed].
  by rewrite define_prop_ordered, define_prop_values.
Qed.

Lemma json_number_canonical (s : text) (n : jsnum) (r : text) :
  json_number s = Some (n, r) -> canonical n = true.
Proof.
  assert (H : forall neg t, json_unsigned neg t = Some (n, r) -> canonical n = true).
  { intros neg t. unfold json_unsigned.
    destruct (json_integer t) as [[int s2] |]; [| done].
    destruct (json_fraction s2) as [frac s3]. destruct (with_exponent s3) as [ex s4].
    intros [= <- _]. apply normalize_canonical. }
  unfold json_number. destruct s as [| c s]; [by apply H |].
  destruct c as [[] [] [] [] [] [] [] []]; by apply H.
Qed.

Lemma parser_well_formed (f : nat) :
  (forall s v r, JSON.value f s = Some (v, r) -> well_formed v = true)
  /\ (forall s vs r, JSON.elements f s = Some (vs, r) ->
        forallb well_formed vs = true)
  /\ (forall s kvs r, JSON.members f s = Some (kvs, r) ->
        forallb (fun kv => well_formed (snd kv)) kvs = true).
Proof.
  induction f as [| f (IHv & IHe & IHm)]; [done |]. split; [| split].
  - intros [| c s] v r; cbn [JSON.value]; [done |].
    destruct (Ascii.eqb c "n");
      [| destruct (Ascii.eqb c "t");
         [| destruct (Ascii.eqb c "f");
            [| destruct (Ascii.eqb c quote);
               [| destruct (Ascii.eqb c "[");
                  [| destruct (Ascii.eqb c "{")]]]]].
    + unfold JSON.keyword. destruct (strip_prefix _ _); [| done]. by intros [= <- _].
    + unfold JSON.keyword. destruct (strip_prefix _ _); [| done]. by intros [= <- _].
    + unfold JSON.keyword. destruct (strip_prefix _ _); [| done]. by intros [= <- _].
    + destruct (JSON.string_body s) as [[cs r'] |]; [| done]. by intros [= <- _].
    + destruct (JSON.skip_ws s) as [| c' t]; [done |].
      destruct (Ascii.eqb c' "]"); [by intros [= <- _] |].
      destruct (JSON.elements f (c' :: t)) as [[vs r'] |] eqn:He; [| done].
      intros [= <- _]. by apply (IHe _ _ _ He).
    + destruct (JSON.skip_ws s) as [| c' t]; [done |].
      destruct (Ascii.eqb c' "}"); [by intros [= <- _] |].
      destruct (JSON.members f (c' :: t)) as [[kvs r'] |] eqn:He; [| done].
      intros [= <- _]. apply define_all_well_formed; [done |].
      by apply (IHm _ _ _ He).
    + destruct (json_number (c :: s)) as [[n r'] |] eqn:Hn; [| done].
      intros [= <- _]. by apply (json_number_canonical _ _ _ Hn).
  - intros s vs r. cbn [JSON.elements].
    destruct (JSON.value f s) as [[v r1] |] eqn:Hv; [| done].
    destruct (JSON.skip_ws r1) as [| c r2]; [done |].
    destruct (Ascii.eqb c ","); [| destruct (Ascii.eqb c "]"); [| done]].
    + destruct (JSON.elements f (JSON.skip_ws r2)) as [[vs' r'] |] eqn:He; [| done].
      intros [= <- _]. cbn. by rewrite (IHv _ _ _ Hv), (IHe _ _ _ He).
    + intros [= <- _]. cbn. by rewrite (IHv _ _ _ Hv).
  - intros [| q s] kvs r; cbn [JSON.members]; [done |].
    destruct (Ascii.eqb q quote); [| done].
    destruct (JSON.string_body s) as [[k r1] |]; [| done].
    destruct (JSON.skip_ws r1) as [| c1 r2]; [done |].
    destruct (Ascii.eqb c1 ":"); [| done].
    destruct (JSON.value f (JSON.skip_ws r2)) as [[v r3] |] eqn:Hv; [| done].
    destruct (JSON.skip_ws r3) as [| c r4]; [done |].
    destruct (Ascii.eqb c ","); [| destruct (Ascii.eqb c "}"); [| done]].
    + destruct (JSON.members f (JSON.skip_ws r4)) as [[kvs' r'] |] eqn:Hm; [| done].
      intros [= <- _]. cbn. by rewrite (IHv _ _ _ Hv), (IHm _ _ _ Hm).
    + intros [= <- _]. cbn. by rewrite (IHv _ _ _ Hv).
Qed.

(** Whatever [JSON.parse] returns is well formed. *)
Lemma parse_well_formed (s : string) (v : jsval) :
  JSON.parse s = Some v -> well_formed v = true.
Proof.
  unfold JSON.parse.
  destruct (JSON.value _ _) as [[v' r] |] eqn:Hv; [| done].
  destruct (JSON.skip_ws r); [| done]. intros [= <-].
  by apply (proj1 (parser_well_formed _) _ _ _ Hv).
Qed.

(** So is the record of the add form, and the record of the edit form when
    the selected record is. *)
Lemma location_well_formed (f : Form.t) : well_formed (location_of f) = true.
Proof.
  unfold location_of. apply define_all_well_formed; [done |].
  cbn. by rewrite !parseFloat_canonical.
Qed.

Lemma newEvent_well_formed (f : Form.t) (now : Z) :
  well_formed (newEvent f now) = true.
Proof.
  unfold newEvent, object_literal. apply define_all_well_formed; [done |].
  cbn [forallb snd]. rewrite location_well_formed.
  unfold or_else. by destruct (truthy _).
Qed.

Lemma updatedEvent_well_formed (ps : props) (f : Form.t) :
  well_formed (JObj ps) = true -> well_formed (updatedEvent (JObj ps) f) = true.
Proof.
  intros Hps. unfold updatedEvent, object_literal.
  apply define_all_well_formed; [done |].
  cbn [forallb snd]. rewrite location_well_formed.
  unfold or_else. by destruct (truthy _).
Qed.

(** ** Every state the component reaches is sound *)

Lemma commit_items_sound (st : App) : sound st -> sound (commit_items st).
Proof.
  intros (Hi & Hs & Hp & Ht).
  unfold sound, commit_items, effect_persist, effect_timeline. cbn.
  destruct (pendingSelection st) as [| | | | id | |] eqn:Hpend; try done; cbn.
  - by rewrite Hpend.
  - destruct (negb (String.eqb id "")); cbn; [| by rewrite Hpend].
    repeat split; try done. rewrite forallb_app, Ht. cbn.
    unfold timer_ok. cbn. by rewrite Hi.
Qed.

Lemma filter_c_subset (p : jsval -> completion bool) (l kept : list jsval) :
  filter_c p l = Normal kept -> forall y, In y kept -> In y l.
Proof.
  revert kept. induction l as [| x l IH]; intros kept; cbn.
  - by intros [= <-].
  - destruct (p x) as [b |]; cbn; [| done].
    destruct (filter_c p l) as [l' |]; cbn; [| done].
    intros [= <-] y Hy. destruct b; [destruct Hy as [-> | Hy] |]; by eauto.
Qed.

Lemma find_c_found (p : jsval -> completion bool) (l : list jsval) (v : jsval) :
  find_c p l = Normal v ->
  v = JUndefined \/ (In v l /\ p v = Normal true).
Proof.
  induction l as [| x l IH]; cbn; [intros [= <-]; by left |].
  destruct (p x) as [[] |] eqn:Hx; cbn; [| | done].
  - intros [= <-]. right. by split; [left |].
  - intros Hf. destruct (IH Hf) as [-> | [Hin Hp]]; [by left |].
    right. by split; [right |].
Qed.

Lemma step_sound (st : App) (ev : event) :
  sound st -> answer_ok ev = true -> sound (step st ev).
Proof.
  intros Hst Hev. pose proof Hst as (Hi & Hs & Hp & Ht).
  destruct ev as [f now | f | | | | | file | found |]; cbn [step].
  - apply commit_items_sound. repeat split; cbn; try done.
    + rewrite forallb_app, Hi. cbn [forallb]. by rewrite newEvent_well_formed.
    + unfold record_or_nothing. by rewrite newEvent_well_formed.
  - unfold handleEditSubmit.
    set (upd := updatedEvent (selectedEvent st) f).
    assert (Hupd : record_or_nothing upd = true).
    { unfold record_or_nothing, upd. apply andb_true_iff. split; [| done].
      apply andb_true_iff in Hs as [Hwf Hrec].
      unfold updatedEvent, object_literal.
      apply define_all_well_formed.
      - destruct (selectedEvent st) as [| | | | s | l | ps]; try done.
        by destruct s.
      - cbn [forallb snd]. rewrite location_well_formed.
        unfold or_else. by destruct (truthy (JStr _)). }
    destruct (map_c _ (items st)) as [l |] eqn:Hl; cbn [bind settle]; [| done].
    apply commit_items_sound. repeat split; cbn; try done.
    apply forallb_forall. intros y Hy.
    destruct (map_c_preimage _ _ _ Hl y Hy) as (x & Hx & Hg).
    rewrite forallb_forall in Hi. specialize (Hi x Hx).
    destruct (same_id x upd) as [[] |]; cbn in Hg; [| | done];
      injection Hg as <-; [| done].
    by apply andb_true_iff in Hupd as [? _].
  - unfold handleDeleteEvent.
    destruct (truthy (selectedEvent st)); cbn [negb settle]; [| done].
    destruct (filter_c _ (items st)) as [l |] eqn:Hl; cbn [bind settle]; [| done].
    apply commit_items_sound. repeat split; cbn; try done.
    apply forallb_forall. intros y Hy. rewrite forallb_forall in Hi.
    by apply Hi, (filter_c_subset _ _ _ Hl).
  - done.
  - done.
  - done.
  - destruct file as [result |]; [| done]. cbn [handleImport].
    unfold reader_onload.
    destruct (JSON.parse result) as [v |] eqn:Hparse; [| done].
    pose proof (parse_well_formed _ _ Hparse) as Hv.
    destruct v; try done. by apply commit_items_sound.
  - repeat split; cbn; try done. cbn in Hev. unfold or_else.
    destruct (truthy found); [done | done].
  - unfold timer_callback.
    destruct (timers st) as [| [i closed] rest]; [done |].
    cbn in Ht. apply andb_true_iff in Ht as [Ht Hrest].
    unfold timer_ok in Ht. cbn in Ht. destruct i as [| | | | id | |]; try done.
    destruct (find_c _ closed) as [v |] eqn:Hf; [| done].
    destruct (truthy v) eqn:Hv; [| done].
    repeat split; cbn; try done.
    destruct (find_c_found _ _ _ Hf) as [-> | [Hin Hp']]; [done |].
    rewrite forallb_forall in Ht. unfold record_or_nothing.
    rewrite (Ht v Hin). destruct v; cbn in Hp'; try done.
Qed.

Lemma fresh_sound : sound fresh.
Proof. by repeat split. Qed.

Lemma run_sound (st : App) (evs : list event) :
  sound st -> forallb answer_ok evs = true -> sound (run st evs).
Proof.
  unfold run. revert st. induction evs as [| ev evs IH]; intros st Hst; [done |].
  cbn [forallb fold_left]. intros [Hev Hevs]%andb_true_iff.
  apply IH; [| done]. by apply step_sound.
Qed.

(** ** Export, then import *)

(** The exported document of a store of well-formed records that JSON can
    carry reads back as that store. *)
Lemma document_reads_back (st : App) :
  forallb well_formed (items st) = true ->
  forallb carriable (items st) = true ->
  JSON.parse (export_document st) = Some (JArr (items st)).
Proof.
  intros Hwf Hc.
  assert (Hv : json_value (JArr (items st)) = true).
  { rewrite json_value_split. cbn [well_formed carriable]. by rewrite Hwf, Hc. }
  destruct (parse_stringify (JArr (items st)) 2 Hv) as (s & Hs & Hp).
  unfold export_document, stringify_text. by rewrite Hs.
Qed.

(** Whatever the user did since the fresh start, the store holds well-formed
    records, so that a store without [undefined], [NaN], infinities and
    negative zeros comes back from its own export. *)
Lemma run_document_reads_back (evs : list event) :
  forallb answer_ok evs = true ->
  let st := run fresh evs in
  forallb carriable (items st) = true ->
  items (handleImport (Some (export_document st)) st) = items st.
Proof.
  intros Hevs st Hc.
  destruct (run_sound fresh evs fresh_sound Hevs) as (Hwf & _).
  fold st in Hwf. cbn [handleImport]. unfold reader_onload.
  rewrite (document_reads_back st Hwf Hc). by rewrite items_commit_items.
Qed.

(** C1, as the component has it.  For a store of well-formed records that
    hold only what JSON can carry (no [undefined], every number finite and
    other than the negative zero) the exported document parses back to the
    very sequence of records, so importing it leaves the store equal to the
    original, record for record and field for field, and shows no alert. *)
Theorem export_import_roundtrip (st : App) :
  forallb well_formed (items st) = true ->
  forallb carriable (items st) = true ->
  let st' := handleImport (Some (export_document st)) st in
  JSON.parse (export_document st) = Some (JArr (items st))
  /\ items st' = items st
  /\ same_records (items st') (items st)
  /\ alerts st' = alerts st.
Proof.
  intros Hwf Hc. cbn zeta.
  pose proof (document_reads_back st Hwf Hc) as Hp.
  cbn [handleImport]. unfold reader_onload. rewrite Hp.
  rewrite items_commit_items, alerts_commit_items. cbn.
  repeat split; done.
Qed.

Lemma export_import_roundtrip_witness :
  let st := run fresh [SubmitAdd launch 1704067200000;
                       SubmitAdd landing 1704067260000] in
  let st' := handleImport (Some (export_document st)) st in
  JSON.parse (export_document st) = Some (JArr (items st))
  /\ items st' = items st
  /\ same_records (items st') (items st)
  /\ alerts st' = alerts st.
Proof.
  apply (export_import_roundtrip
           (run fresh [SubmitAdd launch 1704067200000;
                       SubmitAdd landing 1704067260000])).
  - vm_compute. reflexivity.
  - vm_compute. reflexivity.
Defined.

(** C1 as the specification states it fails: a record added with its
    coordinate fields left empty holds [NaN] twice, the export writes
    [null] for both, and the import brings back a record that differs from
    the one exported.  The same happens to infinite coordinates. *)
Lemma export_import_loses_NaN :
  (let st := step fresh (SubmitAdd nowhere 1704067200000) in
   let st' := handleImport (Some (export_document st)) st in
   reachable st
   /\ map coordinates (items st) = [(JNum NaN, JNum NaN)]
   /\ map coordinates (items st') = [(JNull, JNull)]
   /\ ~ same_records (items st') (items st))
  /\
  (let st := step fresh (SubmitAdd far_away 1704067200000) in
   let st' := handleImport (Some (export_document st)) st in
   reachable st
   /\ map coordinates (items st) = [(JNum (Infinity false), JNum (Infinity true))]
   /\ map coordinates (items st') = [(JNull, JNull)]
   /\ ~ same_records (items st') (items st)).
Proof.
  cbn zeta. split; (split; [| split; [| split]]).
  - apply reach_step; [| reflexivity]. apply reach_mount. reflexivity.
  - vm_compute. reflexivity.
  - vm_compute. reflexivity.
  - intros H. pose proof (H (newEvent nowhere 1704067200000)) as [_ Hback].
    vm_compute in Hback. destruct Hback as [Hback | []]; [by left |].
    discriminate Hback.
  - apply reach_step; [| reflexivity]. apply reach_mount. reflexivity.
  - vm_compute. reflexivity.
  - vm_compute. reflexivity.
  - intros H. pose proof (H (newEvent far_away 1704067200000)) as [_ Hback].
    vm_compute in Hback. destruct Hback as [Hback | []]; [by left |].
    discriminate Hback.
Qed.

(** * Further properties of the component *)

(** ** The clock and the ids *)

Lemma N_of_digits_zeros_app (i : nat) (l : list digit) :
  N_of_digits (zeros i ++ l) = N_of_digits l.
Proof. induction i as [| i IH]; [done |]. exact IH. Qed.

Lemma N_of_digits_app_zeros (l : list digit) (j : nat) :
  N_of_digits (l ++ zeros j) = (N_of_digits l * 10 ^ N.of_nat j)%N.
Proof.
  induction j as [| j IH]; [cbn; rewrite app_nil_r; lia |].
  unfold zeros in *. cbn [repeat]. rewrite repeat_cons, app_assoc, N_of_digits_snoc, IH.
  rewrite Nat2N.inj_succ, N.pow_succ_r'. cbn. lia.
Qed.

(** The Number of an integer: its sign, and a numeral worth its absolute
    value. *)
Lemma of_Z_shape (z : Z) :
  exists ds j,
    of_Z z = Finite (z <? 0) ds (Z.of_nat j)
    /\ (N_of_digits ds * 10 ^ N.of_nat j)%N = Z.abs_N z.
Proof.
  unfold of_Z, normalize.
  destruct (strip_zeros_spec (digits_of_N (Z.abs_N z))) as (i & Hi & _).
  destruct (strip_zeros_spec (rev (strip_zeros (digits_of_N (Z.abs_N z)))))
    as (j & Hj & _).
  pose proof (N_of_digits_of_N (Z.abs_N z)) as Hval.
  rewrite Hi, N_of_digits_zeros_app in Hval.
  set (ds1 := strip_zeros (digits_of_N (Z.abs_N z))) in *.
  set (r := strip_zeros (rev ds1)) in *.
  assert (Hds1 : ds1 = rev r ++ zeros j).
  { rewrite <- (rev_involutive ds1), Hj, rev_app_distr. by rewrite rev_zeros. }
  rewrite Hds1, N_of_digits_app_zeros in Hval.
  destruct r as [| d r'] eqn:Hr.
  - exists [], 0%nat. split; [done |]. cbn in *. lia.
  - exists (rev (d :: r')), j. split; [| done]. do 2 f_equal.
    rewrite Hds1, length_app, length_rev. unfold zeros. rewrite repeat_length. lia.
Qed.

Lemma of_Z_json_number_ok (z : Z) : json_number_ok (of_Z z) = true.
Proof.
  pose proof (normalize_canonical (z <? 0) (digits_of_N (Z.abs_N z)) 0) as Hc.
  fold (of_Z z) in Hc. destruct (of_Z_shape z) as (ds & j & Hz & Hval).
  rewrite Hz in *. destruct ds as [| d ds]; [| done].
  cbn in Hc, Hval. cbn. rewrite Hc, andb_true_r.
  destruct (Z.ltb_spec z 0); [lia | done].
Qed.

Lemma of_Z_inj (a b : Z) : of_Z a = of_Z b -> a = b.
Proof.
  destruct (of_Z_shape a) as (ds & j & -> & Ha).
  destruct (of_Z_shape b) as (ds' & j' & -> & Hb).
  intros [= Hsign <- Hj]. apply Nat2Z.inj in Hj as <-. rewrite Ha in Hb.
  destruct (Z.ltb_spec a 0), (Z.ltb_spec b 0); try done; lia.
Qed.

Lemma toString_inj (x y : jsnum) :
  json_number_ok x = true -> json_number_ok y = true ->
  Num.toString x = Num.toString y -> x = y.
Proof.
  intros Hx Hy Heq.
  pose proof (json_number_toString x [] Hx eq_refl) as Hpx.
  pose proof (json_number_toString y [] Hy eq_refl) as Hpy.
  rewrite Heq, Hpy in Hpx. by injection Hpx.
Qed.

Lemma id_of_clock_inj (a b : Z) : id_of_clock a = id_of_clock b -> a = b.
Proof.
  unfold id_of_clock. intros H. apply (f_equal list_ascii_of_string) in H.
  rewrite !list_ascii_of_string_of_list_ascii in H.
  apply of_Z_inj, toString_inj; [apply of_Z_json_number_ok .. | done].
Qed.

Lemma id_of_clock_truthy (now : Z) : truthy (JStr (id_of_clock now)) = true.
Proof.
  unfold id_of_clock.
  destruct (toString_shape _ (of_Z_json_number_ok now)) as (neg & d & t & ->).
  by destruct neg.
Qed.

Lemma newEvent_id (f : Form.t) (now : Z) :
  lookup_prop "id" (own_props (newEvent f now)) = JStr (id_of_clock now).
Proof.
  unfold newEvent, object_literal, define_all.
  cbn [own_props fold_left]. by rewrite !lookup_define_prop.
Qed.

Lemma get_id_newEvent (f : Form.t) (now : Z) :
  get_id (newEvent f now) = Normal (JStr (id_of_clock now)).
Proof.
  pose proof (newEvent_id f now) as H. unfold newEvent, object_literal in *.
  cbn [get_id own_props] in *. by rewrite H.
Qed.

(** ** Runs *)






Lemma run_invariant (P : App -> Prop) :
  (forall st ev, P st -> P (step st ev)) ->
  forall st evs, P st -> P (run st evs).
Proof.
  intros Hstep st evs. revert st. unfold run.
  induction evs as [| ev evs IH]; intros st Hst; [done |].
  cbn [fold_left]. by apply IH, Hstep.
Qed.

(** What a mounted component starts from. *)
Lemma mount_inv (storage : gmap string string) (st : App) :
  mount storage = Some st ->
  exists l,
    initial_items storage = Normal (JArr l)
    /\ forallb well_formed l = true
    /\ st = commit_items
              {| items := l; selectedEvent := JNull; isEditing := false;
                 pendingSelection := JNull;
                 timelineInstance := {| itemsData := l; selection := JNull |};
                 localStorage := storage; timers := []; alerts := [];
                 downloads := [] |}.
Proof.
  unfold mount. destruct (initial_items storage) as [v |] eqn:Hv; [| done].
  destruct v as [| | | | | l |]; try done. intros [= <-]. exists l.
  split; [done |]. split; [| done].
  unfold initial_items in Hv. destruct (storage !! LOCAL_STORAGE_KEY) as [stored |].
  - destruct (truthy (JStr stored)); [| by injection Hv as <-].
    destruct (JSON.parse stored) as [v |] eqn:Hp; [| done].
    injection Hv as ->. exact (parse_well_formed _ _ Hp).
  - by injection Hv as <-.
Qed.

Lemma mount_sound (storage : gmap string string) (st : App) :
  mount storage = Some st -> sound st.
Proof.
  intros (l & _ & Hl & ->)%mount_inv. apply commit_items_sound. by repeat split.
Qed.

(** ** The widget, the pending selection and the timers *)

Lemma commit_items_widget (st : App) : widget_in_sync (commit_items st).
Proof.
  unfold widget_in_sync, commit_items, effect_persist, effect_timeline. cbn.
  by destruct (truthy (pendingSelection st)).
Qed.

Lemma step_widget_in_sync (st : App) (ev : event) :
  widget_in_sync st -> widget_in_sync (step st ev).
Proof.
  intros Hs. destruct ev as [f now | f | | | | | file | found |]; cbn [step].
  - apply commit_items_widget.
  - unfold handleEditSubmit.
    destruct (map_c _ (items st)); cbn [bind settle]; [| done].
    apply commit_items_widget.
  - unfold handleDeleteEvent.
    destruct (truthy (selectedEvent st)); cbn [negb settle]; [| done].
    destruct (filter_c _ (items st)); cbn [bind settle]; [| done].
    apply commit_items_widget.
  - done.
  - done.
  - done.
  - destruct file as [result |]; [| done]. cbn [handleImport].
    unfold reader_onload. destruct (JSON.parse result) as [[] |]; try done.
    apply commit_items_widget.
  - done.
  - unfold timer_callback. destruct (timers st) as [| [i closed] rest]; [done |].
    destruct (find_c _ closed) as [v |]; [| done]. by destruct (truthy v).
Qed.

Lemma commit_items_settled (st : App) :
  pendingSelection st = JNull ->
  pendingSelection (commit_items st) = JNull
  /\ timers (commit_items st) = timers st.
Proof.
  intros H. unfold commit_items, effect_persist, effect_timeline. cbn.
  by rewrite H.
Qed.

Lemma commit_items_armed (st : App) :
  truthy (pendingSelection st) = true ->
  pendingSelection (commit_items st) = JNull
  /\ timers (commit_items st) = timers st ++ [(pendingSelection st, items st)].
Proof.
  intros H. unfold commit_items, effect_persist, effect_timeline. cbn.
  by rewrite H.
Qed.

Lemma step_timers (st : App) (ev : event) :
  pendingSelection st = JNull ->
  pendingSelection (step st ev) = JNull
  /\ timers (step st ev) =
       match ev with
       | SubmitAdd f now =>
           timers st ++ [(JStr (id_of_clock now), items st ++ [newEvent f now])]
       | TimerFires => tail (timers st)
       | _ => timers st
       end.
Proof.
  intros Hp. destruct ev as [f now | f | | | | | file | found |]; cbn [step].
  - unfold handleAddEvent. cbn zeta. rewrite newEvent_id.
    set (st3 := setSelectedEvent _ _).
    destruct (commit_items_armed st3 (id_of_clock_truthy now)) as [H1 H2].
    by rewrite H1, H2.
  - unfold handleEditSubmit.
    destruct (map_c _ (items st)); cbn [bind settle]; [| done].
    match goal with
    | |- context [commit_items ?x] =>
        by destruct (commit_items_settled x Hp) as [-> ->]
    end.
  - unfold handleDeleteEvent.
    destruct (truthy (selectedEvent st)); cbn [negb settle]; [| done].
    destruct (filter_c _ (items st)); cbn [bind settle]; [| done].
    match goal with
    | |- context [commit_items ?x] =>
        by destruct (commit_items_settled x Hp) as [-> ->]
    end.
  - done.
  - done.
  - done.
  - destruct file as [result |]; [| done]. cbn [handleImport].
    unfold reader_onload. destruct (JSON.parse result) as [[] |]; try done.
    match goal with
    | |- context [commit_items ?x] =>
        by destruct (commit_items_settled x Hp) as [-> ->]
    end.
  - done.
  - unfold timer_callback.
    destruct (timers st) as [| [i closed] rest] eqn:Ht; [by rewrite Ht |].
    destruct (find_c _ closed) as [v |]; [| done]. by destruct (truthy v).
Qed.

Lemma mount_settled (storage : gmap string string) (st : App) :
  mount storage = Some st ->
  mirror_in_sync st /\ widget_in_sync st
  /\ pendingSelection st = JNull /\ timers st = [].
Proof.
  intros (l & _ & _ & ->)%mount_inv.
  split; [apply commit_items_in_sync |]. split; [apply commit_items_widget |].
  by apply commit_items_settled.
Qed.

Lemma mount_started (storage : gmap string string) (l : list jsval) :
  initial_items storage = Normal (JArr l) ->
  mount storage = Some (started storage l).
Proof. intros H. unfold mount. by rewrite H. Qed.

(** X1. When the entry under the key of the component is absent, empty or
    the text of a JSON array (what the component itself writes), the
    component mounts with that array as its store, and whatever happens
    then (adds, edits, deletes, imports that succeed or fail, selections,
    exports, timers, handlers that throw), local storage holds under the key
    the compact serialization of the store as it is now. *)
Theorem mirror_in_sync_always (storage : gmap string string) (l : list jsval)
    (evs : list event) :
  initial_items storage = Normal (JArr l) ->
  mount storage = Some (started storage l)
  /\ items (started storage l) = l
  /\ mirror_in_sync (run (started storage l) evs).
Proof.
  intros Hl. pose proof (mount_started storage l Hl) as Hm.
  split; [done |]. split; [apply items_commit_items |].
  apply (run_invariant mirror_in_sync step_in_sync).
  by apply (mount_settled storage).
Qed.

Lemma mirror_in_sync_always_witness :
  let storage : gmap string string :=
    <[LOCAL_STORAGE_KEY := json_text "[{'id': 'a'}, 7]"]> ∅ in
  let l := [JObj [("id"%string, JStr "a")]; JNum (Finite false [d7] 0)] in
  let evs := [SubmitAdd launch 1704067200000; TimerFires; ClickEdit;
              SubmitEdit landing; ChooseFile (Some "{"%string); ClickDelete] in
  mount storage = Some (started storage l)
  /\ items (started storage l) = l
  /\ mirror_in_sync (run (started storage l) evs).
Proof.
  apply (mirror_in_sync_always
           (<[LOCAL_STORAGE_KEY := json_text "[{'id': 'a'}, 7]"]> ∅)
           [JObj [("id"%string, JStr "a")]; JNum (Finite false [d7] 0)]
           [SubmitAdd launch 1704067200000; TimerFires; ClickEdit;
            SubmitEdit landing; ChooseFile (Some "{"%string); ClickDelete]).
  vm_compute. reflexivity.
Defined.

(** X2. When the entry under the key of the component is absent, empty or
    the text of a JSON array, then after the mount and whatever happens
    since, the item set last pushed to the timeline widget is the store as
    it is now. *)
Theorem widget_in_sync_always (storage : gmap string string) (l : list jsval)
    (evs : list event) :
  initial_items storage = Normal (JArr l) ->
  mount storage = Some (started storage l)
  /\ widget_in_sync (run (started storage l) evs).
Proof.
  intros Hl. pose proof (mount_started storage l Hl) as Hm.
  split; [done |].
  apply (run_invariant widget_in_sync step_widget_in_sync).
  by apply (mount_settled storage).
Qed.

Lemma widget_in_sync_always_witness :
  let storage : gmap string string :=
    <[LOCAL_STORAGE_KEY := json_text "[{'id': 'a'}, 7]"]> ∅ in
  let l := [JObj [("id"%string, JStr "a")]; JNum (Finite false [d7] 0)] in
  let evs := [SubmitAdd launch 1704067200000;
              ChooseFile (Some (json_text "[{'id': 'b'}, 7]"));
              TimelineSelect (JObj [("id"%string, JStr "b")]); ClickDelete] in
  mount storage = Some (started storage l)
  /\ widget_in_sync (run (started storage l) evs).
Proof.
  apply (widget_in_sync_always
           (<[LOCAL_STORAGE_KEY := json_text "[{'id': 'a'}, 7]"]> ∅)
           [JObj [("id"%string, JStr "a")]; JNum (Finite false [d7] 0)]
           [SubmitAdd launch 1704067200000;
            ChooseFile (Some (json_text "[{'id': 'b'}, 7]"));
            TimelineSelect (JObj [("id"%string, JStr "b")]); ClickDelete]).
  vm_compute. reflexivity.
Defined.

(** X3. Between two events the pending selection is always consumed
    ([null]), and the queue of deferred selections changes in two ways
    only: an add appends one entry, made of the id of the new record and of
    the store with the new record at its end, and a timer that fires takes
    the oldest entry away.  No edit, delete, import, selection or export
    arms or disarms a deferred selection. *)
Theorem deferred_selection_armed_by_add (storage : gmap string string)
    (st0 : App) (evs : list event) (ev : event) :
  mount storage = Some st0 ->
  let st := run st0 evs in
  pendingSelection st = JNull
  /\ pendingSelection (step st ev) = JNull
  /\ timers (step st ev) =
       match ev with
       | SubmitAdd f now =>
           timers st ++ [(JStr (id_of_clock now), items st ++ [newEvent f now])]
       | TimerFires => tail (timers st)
       | _ => timers st
       end.
Proof.
  intros Hm. cbn zeta.
  assert (Hp : pendingSelection (run st0 evs) = JNull).
  { apply (run_invariant (fun st => pendingSelection st = JNull)).
    - intros st ev' H. by apply step_timers.
    - by apply (mount_settled storage). }
  split; [done |]. by apply step_timers.
Qed.

Lemma deferred_selection_armed_by_add_witness :
  let st := run fresh [SubmitAdd launch 1704067200000] in
  pendingSelection st = JNull
  /\ pendingSelection (step st (SubmitAdd landing 1704067260000)) = JNull
  /\ timers (step st (SubmitAdd landing 1704067260000)) =
       timers st ++ [(JStr (id_of_clock 1704067260000),
                      items st ++ [newEvent landing 1704067260000])].
Proof.
  apply (deferred_selection_armed_by_add ∅ fresh
           [SubmitAdd launch 1704067200000]
           (SubmitAdd landing 1704067260000)).
  reflexivity.
Defined.

(** X4. The two mode buttons, the export, a selection in the widget,
    a deferred selection that fires and a file dialog closed without a file
    leave the store, its persisted mirror, the widget's item set and the
    alerts exactly as they were: the store changes through add, edit,
    delete and import only. *)
Theorem passive_events_leave_store (st : App) (ev : event) :
  passive ev = true ->
  items (step st ev) = items st
  /\ localStorage (step st ev) = localStorage st
  /\ itemsData (timelineInstance (step st ev)) = itemsData (timelineInstance st)
  /\ alerts (step st ev) = alerts st.
Proof.
  destruct ev as [f now | f | | | | | [result |] | found |]; try done.
  intros _. cbn [step]. unfold timer_callback.
  destruct (timers st) as [| [i closed] rest]; [done |].
  destruct (find_c _ closed) as [v |]; [| done]. by destruct (truthy v).
Qed.

Lemma passive_events_leave_store_witness :
  let st := run fresh [SubmitAdd launch 1704067200000] in
  items (step st TimerFires) = items st
  /\ localStorage (step st TimerFires) = localStorage st
  /\ itemsData (timelineInstance (step st TimerFires))
     = itemsData (timelineInstance st)
  /\ alerts (step st TimerFires) = alerts st.
Proof.
  apply (passive_events_leave_store
           (run fresh [SubmitAdd launch 1704067200000]) TimerFires).
  reflexivity.
Defined.

(** ** Edit mode *)

Lemma step_edit_mode (st : App) (ev : event) :
  (isEditing st = true -> truthy (selectedEvent st) = true) ->
  offered st ev = true ->
  isEditing (step st ev) = true -> truthy (selectedEvent (step st ev)) = true.
Proof.
  intros Hst Hev. destruct ev as [f now | f | | | | | file | found |]; cbn [step].
  - intros _. unfold handleAddEvent. by rewrite selectedEvent_commit_items.
  - unfold handleEditSubmit.
    destruct (map_c _ (items st)); cbn [bind settle]; [| done].
    by rewrite isEditing_commit_items.
  - cbn in Hev. apply andb_true_iff in Hev as [Hsel Hed%negb_true_iff].
    unfold handleDeleteEvent. rewrite Hsel. cbn [negb].
    destruct (filter_c _ (items st)); cbn [bind settle];
      [rewrite isEditing_commit_items; cbn | ]; by rewrite Hed.
  - cbn in Hev. by apply andb_true_iff in Hev as [Hsel _].
  - done.
  - done.
  - destruct file as [result |]; [| done]. cbn [handleImport].
    unfold reader_onload. destruct (JSON.parse result) as [[] |]; try done.
    by rewrite isEditing_commit_items, selectedEvent_commit_items.
  - done.
  - unfold timer_callback. destruct (timers st) as [| [i closed] rest]; [done |].
    destruct (find_c _ closed) as [v |]; [| done].
    by destruct (truthy v) eqn:Hv.
Qed.

(** X5. When the entry under the key of the component is absent, empty or
    the text of a JSON array, then after the mount and through the controls
    the page offers (the edit, delete and cancel buttons exist only while a
    record is selected, a selection in the widget leaves edit mode), edit
    mode is never on without a selected record: whenever the component is
    in edit mode, the edit form has a record to show. *)
Theorem edit_mode_needs_selection (storage : gmap string string)
    (l : list jsval) (evs : list event) :
  initial_items storage = Normal (JArr l) ->
  offered_all (started storage l) evs = true ->
  isEditing (run (started storage l) evs) = true ->
  mount storage = Some (started storage l)
  /\ truthy (selectedEvent (run (started storage l) evs)) = true.
Proof.
  intros Hl Hoff Hedit. split; [by apply mount_started |].
  assert (H0 : isEditing (started storage l) = true ->
               truthy (selectedEvent (started storage l)) = true).
  { unfold started. by rewrite isEditing_commit_items. }
  revert H0 Hoff Hedit. generalize (started storage l). clear Hl. unfold run.
  induction evs as [| ev evs IH]; intros st H0; [by intros _ |].
  cbn [offered_all fold_left]. intros [Hev Hevs]%andb_true_iff.
  apply IH; [| done]. by apply step_edit_mode.
Qed.

Lemma edit_mode_needs_selection_witness :
  let storage : gmap string string :=
    <[LOCAL_STORAGE_KEY := json_text "[{'id': 'a'}, 7]"]> ∅ in
  let l := [JObj [("id"%string, JStr "a")]; JNum (Finite false [d7] 0)] in
  let evs := [SubmitAdd launch 1704067200000; ClickEdit;
              SubmitAdd landing 1704067260000; TimerFires] in
  mount storage = Some (started storage l)
  /\ truthy (selectedEvent (run (started storage l) evs)) = true.
Proof.
  apply (edit_mode_needs_selection
           (<[LOCAL_STORAGE_KEY := json_text "[{'id': 'a'}, 7]"]> ∅)
           [JObj [("id"%string, JStr "a")]; JNum (Finite false [d7] 0)]
           [SubmitAdd launch 1704067200000; ClickEdit;
            SubmitAdd landing 1704067260000; TimerFires]);
    vm_compute; reflexivity.
Defined.

(** ** Start-up *)

Lemma mount_empty (storage : gmap string string) :
  initial_items storage = Normal (JArr []) ->
  exists st,
    mount storage = Some st /\ items st = [] /\ selectedEvent st = JNull
    /\ isEditing st = false
    /\ localStorage st !! LOCAL_STORAGE_KEY = Some "[]"%string.
Proof.
  intros H. unfold mount. rewrite H. eexists. split; [reflexivity |].
  rewrite items_commit_items, selectedEvent_commit_items, isEditing_commit_items.
  repeat split. pose proof (commit_items_in_sync
    {| items := []; selectedEvent := JNull; isEditing := false;
       pendingSelection := JNull;
       timelineInstance := {| itemsData := []; selection := JNull |};
       localStorage := storage; timers := []; alerts := [];
       downloads := [] |}) as Hs.
  unfold mirror_in_sync in Hs. by rewrite Hs, items_commit_items.
Qed.

(** X6. Whatever the store holds, once its entry has been deleted
    from local storage, or been overwritten with the empty text, a restart
    begins with the empty store, nothing selected, read-only mode, and
    writes the text of the empty array back under the key. *)
Theorem restart_without_entry (st : App) :
  (exists st',
     mount (delete LOCAL_STORAGE_KEY (localStorage st)) = Some st'
     /\ items st' = [] /\ selectedEvent st' = JNull /\ isEditing st' = false
     /\ localStorage st' !! LOCAL_STORAGE_KEY = Some "[]"%string)
  /\ (exists st',
        mount (<[LOCAL_STORAGE_KEY := ""%string]> (localStorage st)) = Some st'
        /\ items st' = [] /\ selectedEvent st' = JNull /\ isEditing st' = false
        /\ localStorage st' !! LOCAL_STORAGE_KEY = Some "[]"%string).
Proof.
  split; apply mount_empty; unfold initial_items.
  - by rewrite lookup_delete_eq.
  - by rewrite lookup_insert_eq.
Qed.

(** ** Delete and edit on any store *)

Lemma filter_c_spec (p : jsval -> completion bool) (l kept : list jsval) :
  filter_c p l = Normal kept ->
  Forall (fun x => exists b, p x = Normal b) l
  /\ kept = List.filter (fun x => match p x with
                                  | Normal b => b
                                  | Throw _ => false
                                  end) l.
Proof.
  revert kept. induction l as [| x l IH]; intros kept; cbn.
  - by intros [= <-].
  - destruct (p x) as [b |] eqn:Hx; cbn; [| done].
    destruct (filter_c p l) as [l' |]; cbn; [| done].
    intros [= <-]. destruct (IH l' eq_refl) as [Hall ->].
    split; [constructor; by eauto |]. by destruct b.
Qed.

Lemma map_c_spec (g : jsval -> completion jsval) (l l' : list jsval) :
  map_c g l = Normal l' -> Forall2 (fun x x' => g x = Normal x') l l'.
Proof.
  revert l'. induction l as [| x l IH]; intros l'; cbn.
  - intros [= <-]. constructor.
  - destruct (g x) as [x' |] eqn:Hx; cbn; [| done].
    destruct (map_c g l) as [r |]; cbn; [| done].
    intros [= <-]. constructor; [done |]. by apply IH.
Qed.

Lemma get_id_readable (v : jsval) :
  readable v = true -> exists i, get_id v = Normal i.
Proof. destruct v; try done; by eexists. Qed.

Lemma get_id_unreadable (v : jsval) :
  readable v = false -> get_id v = Throw TypeError.
Proof. by destruct v. Qed.

Lemma truthy_readable (v : jsval) : truthy v = true -> readable v = true.
Proof. by destruct v. Qed.

Lemma same_id_has_id (x : jsval) (ps : props) (id : string) :
  lookup_prop "id" ps = JStr id -> readable x = true ->
  same_id x (JObj ps) = Normal (has_id id x).
Proof.
  intros Hps Hx. unfold same_id. cbn [get_id]. rewrite Hps.
  destruct x as [| | | | | | qs]; try done.
  cbn [get_id bind has_id]. by destruct (lookup_prop "id" qs).
Qed.

(** X8. With a record selected whose id is a string, on any store whose
    elements are readable, delete completes and keeps exactly the elements
    that are not records with that id, in their order: every record with
    the id of the selected one is gone, however many there were, nothing
    else is, nothing is added, and the selection is cleared. *)
Theorem delete_removes_every_match (st : App) (ps : props) (id : string) :
  selectedEvent st = JObj ps ->
  lookup_prop "id" ps = JStr id ->
  Forall (fun item => readable item = true) (items st) ->
  exists st',
    handleDeleteEvent st = Normal st'
    /\ items st' = List.filter (fun y => negb (has_id id y)) (items st)
    /\ (forall y, In y (items st') <-> In y (items st) /\ has_id id y = false)
    /\ (length (items st') <= length (items st))%nat
    /\ selectedEvent st' = JNull.
Proof.
  intros Hsel Hps Hread. unfold handleDeleteEvent. rewrite Hsel.
  cbn [truthy negb].
  rewrite (filter_c_total _ (fun y => negb (has_id id y))).
  - cbn [bind]. eexists. split; [reflexivity |].
    rewrite items_commit_items, selectedEvent_commit_items.
    cbn [items selectedEvent setSelectedEvent setItems].
    split; [reflexivity |].
    split; [| split; [apply List.filter_length_le | reflexivity]].
    intros y. rewrite List.filter_In, negb_true_iff. tauto.
  - eapply Forall_impl; [exact Hread |]. intros y Hy. cbn beta in *.
    unfold other_id. by rewrite (same_id_has_id y ps id Hps Hy).
Qed.

Lemma delete_removes_every_match_witness :
  let st := run fresh [SubmitAdd launch 1704067200000;
                       SubmitAdd landing 1704067200000;
                       SubmitAdd landing 1704067260000;
                       TimelineSelect record_A] in
  items st = [record_A; newEvent landing 1704067200000; record_B]
  /\ selectedEvent st = record_A
  /\ exists st',
       handleDeleteEvent st = Normal st'
       /\ items st' = [record_B]
       /\ selectedEvent st' = JNull.
Proof.
  cbn zeta. split; [reflexivity |]. split; [reflexivity |].
  destruct (delete_removes_every_match
              (run fresh [SubmitAdd launch 1704067200000;
                          SubmitAdd landing 1704067200000;
                          SubmitAdd landing 1704067260000;
                          TimelineSelect record_A])
              (own_props record_A) "1704067200000")
    as (st' & Hdone & Hitems & _ & _ & Hsel).
  - reflexivity.
  - reflexivity.
  - vm_compute. repeat constructor.
  - exists st'. split; [exact Hdone |]. rewrite Hitems, Hsel.
    split; [vm_compute |]; reflexivity.
Defined.

Lemma filter_c_throws (p : jsval -> completion bool) (l : list jsval) :
  (forall x, (exists b, p x = Normal b) \/ p x = Throw TypeError) ->
  Exists (fun x => p x = Throw TypeError) l ->
  filter_c p l = Throw TypeError.
Proof.
  intros Hp Hex. induction Hex as [x l Hx | x l _ IH]; cbn.
  - by rewrite Hx.
  - destruct (Hp x) as [[b ->] | ->]; cbn; [by rewrite IH | done].
Qed.

Lemma map_c_throws (g : jsval -> completion jsval) (l : list jsval) :
  (forall x, (exists y, g x = Normal y) \/ g x = Throw TypeError) ->
  Exists (fun x => g x = Throw TypeError) l ->
  map_c g l = Throw TypeError.
Proof.
  intros Hg Hex. induction Hex as [x l Hx | x l _ IH]; cbn.
  - by rewrite Hx.
  - destruct (Hg x) as [[y ->] | ->]; cbn; [by rewrite IH | done].
Qed.

Lemma same_id_cases (x other : jsval) :
  readable other = true ->
  (exists b, same_id x other = Normal b /\ readable x = true)
  \/ (same_id x other = Throw TypeError /\ readable x = false).
Proof.
  intros [j Hj]%get_id_readable. unfold same_id. rewrite Hj.
  destruct x; cbn; by eauto.
Qed.

(** X9. One element of the store that is [null] (an import accepts
    such an array) is enough to disable edit and delete: with a record
    selected, both handlers throw a [TypeError] while they walk the store,
    before they set any state, so that the component stays as it was. *)
Theorem unreadable_item_blocks_edit_and_delete (st : App) (f : Form.t) :
  truthy (selectedEvent st) = true ->
  Exists (fun item => readable item = false) (items st) ->
  handleDeleteEvent st = Throw TypeError
  /\ handleEditSubmit f st = Throw TypeError
  /\ step st ClickDelete = st
  /\ step st (SubmitEdit f) = st.
Proof.
  intros Hsel Hex.
  assert (Hd : handleDeleteEvent st = Throw TypeError).
  { unfold handleDeleteEvent. rewrite Hsel. cbn [negb].
    rewrite filter_c_throws; [done | |].
    - intros x. unfold other_id.
      destruct (same_id_cases x _ (truthy_readable _ Hsel))
        as [(b & -> & _) | [-> _]]; cbn; by eauto.
    - eapply List.Exists_impl; [| exact Hex]. intros x Hx. unfold other_id.
      destruct (same_id_cases x _ (truthy_readable _ Hsel))
        as [(b & _ & Hr) | [-> _]]; [congruence | done]. }
  assert (He : handleEditSubmit f st = Throw TypeError).
  { unfold handleEditSubmit. rewrite map_c_throws; [done | |].
    - intros x.
      destruct (same_id_cases x (updatedEvent (selectedEvent st) f) eq_refl)
        as [(b & -> & _) | [-> _]]; cbn; by eauto.
    - eapply List.Exists_impl; [| exact Hex]. intros x Hx.
      destruct (same_id_cases x (updatedEvent (selectedEvent st) f) eq_refl)
        as [(b & _ & Hr) | [-> _]]; [congruence | done]. }
  cbn [step]. by rewrite Hd, He.
Qed.

Lemma unreadable_item_blocks_edit_and_delete_witness :
  let st := run fresh [SubmitAdd launch 1704067200000;
                       ChooseFile (Some (json_text "[{'id': 'a'}, null]"))] in
  handleDeleteEvent st = Throw TypeError
  /\ handleEditSubmit landing st = Throw TypeError
  /\ step st ClickDelete = st
  /\ step st (SubmitEdit landing) = st.
Proof.
  apply (unreadable_item_blocks_edit_and_delete
           (run fresh [SubmitAdd launch 1704067200000;
                       ChooseFile (Some (json_text "[{'id': 'a'}, null]"))])
           landing).
  - reflexivity.
  - apply Exists_cons_tl, Exists_cons_hd. reflexivity.
Defined.

Lemma same_id_normal (x other : jsval) (b : bool) :
  same_id x other = Normal b -> shares_id x other = b.
Proof. unfold shares_id. by intros ->. Qed.

Lemma same_id_record (x : jsval) (ps : props) :
  readable x = true ->
  same_id x (JObj ps) = Normal (shares_id x (JObj ps)).
Proof.
  intros Hx. destruct (same_id_cases x (JObj ps) eq_refl)
    as [(b & Hb & _) | [_ Hr]]; [| congruence].
  by rewrite (same_id_normal _ _ _ Hb).
Qed.

Lemma same_id_updatedEvent (x : jsval) (ps : props) (f : Form.t) :
  same_id x (updatedEvent (JObj ps) f) = same_id x (JObj ps).
Proof. unfold same_id. by rewrite updatedEvent_keeps_id. Qed.

Lemma localStorage_commit_items (st : App) :
  localStorage (commit_items st) =
    <[LOCAL_STORAGE_KEY := stringify_text (JArr (items st)) 0]> (localStorage st).
Proof.
  unfold commit_items, effect_persist, effect_timeline. cbn.
  by destruct (truthy (pendingSelection st)).
Qed.

(** X10. While the selected record has the id of no stored record (an
    import replaces the store and leaves the selection), saving the edit
    form and deleting go through, on a store whose elements are all
    readable, without touching any stored record: after the edit the
    edited record exists as the selection only, and the delete just clears
    the selection. *)
Theorem absent_selection_touches_no_record (st : App) (f : Form.t) (ps : props) :
  selectedEvent st = JObj ps ->
  Forall (fun item => readable item = true) (items st) ->
  forallb (fun item => negb (shares_id item (selectedEvent st))) (items st) = true ->
  (exists st',
     handleEditSubmit f st = Normal st'
     /\ items st' = items st
     /\ selectedEvent st' = updatedEvent (selectedEvent st) f
     /\ isEditing st' = false)
  /\ (exists st',
        handleDeleteEvent st = Normal st'
        /\ items st' = items st
        /\ selectedEvent st' = JNull).
Proof.
  intros Hsel Hread Hapart. rewrite Hsel in *.
  rewrite forallb_forall in Hapart. rewrite List.Forall_forall in Hread. split.
  - unfold handleEditSubmit. rewrite Hsel.
    erewrite (map_c_total _ (fun x => x)).
    + cbn [bind]. eexists. split; [reflexivity |].
      rewrite items_commit_items, selectedEvent_commit_items,
        isEditing_commit_items. cbn. by rewrite map_id.
    + apply List.Forall_forall. intros x Hx.
      rewrite same_id_updatedEvent, (same_id_record x _ (Hread x Hx)). cbn.
      by rewrite (proj1 (negb_true_iff _) (Hapart x Hx)).
  - unfold handleDeleteEvent. rewrite Hsel. cbn [truthy negb].
    erewrite (filter_c_total _ (fun x => negb (shares_id x (JObj ps)))).
    + cbn [bind]. eexists. split; [reflexivity |].
      rewrite items_commit_items, selectedEvent_commit_items. cbn.
      split; [| done]. apply filter_apart. by apply forallb_forall.
    + apply List.Forall_forall. intros x Hx. unfold other_id.
      by rewrite (same_id_record x _ (Hread x Hx)).
Qed.

Lemma absent_selection_touches_no_record_witness :
  let st := run fresh [SubmitAdd launch 1704067200000;
                       ChooseFile (Some (json_text "[{'id': 'b'}, 7]"))] in
  (exists st',
     handleEditSubmit landing st = Normal st'
     /\ items st' = items st
     /\ selectedEvent st' = updatedEvent (selectedEvent st) landing
     /\ isEditing st' = false)
  /\ (exists st',
        handleDeleteEvent st = Normal st'
        /\ items st' = items st
        /\ selectedEvent st' = JNull).
Proof.
  apply (absent_selection_touches_no_record
           (run fresh [SubmitAdd launch 1704067200000;
                       ChooseFile (Some (json_text "[{'id': 'b'}, 7]"))])
           landing (own_props record_A)).
  - reflexivity.
  - repeat constructor.
  - vm_compute. reflexivity.
Defined.

(** ** Saving the edit form twice *)

Lemma define_prop_same (ps : props) (k : string) (v : jsval) :
  has_prop k ps = true -> lookup_prop k ps = v -> define_prop ps (k, v) = ps.
Proof.
  unfold define_prop. intros H. rewrite H.
  induction ps as [| [k0 v0] ps IH]; cbn in *; [done |].
  destruct (String.eqb_spec k k0) as [-> | Hne]; [by intros -> |].
  intros Hv. by rewrite (IH H Hv).
Qed.

Lemma has_prop_define_prop (k k' : string) (v : jsval) (ps : props) :
  has_prop k (define_prop ps (k', v)) = String.eqb k k' || has_prop k ps.
Proof.
  unfold define_prop. destruct (has_prop k' ps) eqn:H.
  - induction ps as [| [k0 v0] ps IH]; cbn in *; [done |].
    destruct (String.eqb_spec k' k0) as [-> | Hne]; cbn.
    + by destruct (String.eqb k k0).
    + rewrite (IH H). destruct (String.eqb_spec k k'), (String.eqb_spec k k0);
        try done; congruence.
  - clear H. induction ps as [| [k0 v0] ps IH]; cbn; [done |].
    destruct (goes_before k' k0); cbn; [done |]. rewrite IH.
    by destruct (String.eqb k k'), (String.eqb k k0).
Qed.

Lemma updatedEvent_again (sel : jsval) (f : Form.t) :
  updatedEvent (updatedEvent sel f) f = updatedEvent sel f.
Proof.
  unfold updatedEvent at 1. unfold object_literal at 1. unfold updatedEvent at 1.
  unfold object_literal at 1. cbn [own_props]. unfold updatedEvent, object_literal.
  f_equal. set (ps' := define_all (own_props sel) _).
  unfold define_all at 1. cbn [fold_left].
  repeat (rewrite define_prop_same;
          [| unfold ps', define_all; cbn [fold_left];
             rewrite !has_prop_define_prop; cbn [String.eqb Ascii.eqb Bool.eqb orb];
             reflexivity
           | unfold ps', define_all; cbn [fold_left];
             rewrite !lookup_define_prop; cbn [String.eqb Ascii.eqb Bool.eqb];
             reflexivity]).
  reflexivity.
Qed.

(** X11. Saving the edit form a second time with the same values changes
    nothing: whenever a submission has gone through, the same submission
    goes through again and leaves the store, the selected record, the mode
    and local storage as the first one left them. *)
Theorem edit_submit_twice_is_once (st st' : App) (f : Form.t) :
  handleEditSubmit f st = Normal st' ->
  exists st'',
    handleEditSubmit f st' = Normal st''
    /\ items st'' = items st'
    /\ selectedEvent st'' = selectedEvent st'
    /\ isEditing st'' = isEditing st'
    /\ localStorage st'' = localStorage st'.
Proof.
  unfold handleEditSubmit at 1.
  set (upd := updatedEvent (selectedEvent st) f).
  destruct (map_c _ (items st)) as [l |] eqn:Hl; cbn [bind]; [| done].
  intros [= <-]. unfold handleEditSubmit.
  rewrite !items_commit_items, !selectedEvent_commit_items. cbn [items selectedEvent
    setIsEditing setSelectedEvent setItems].
  assert (Hupd : updatedEvent upd f = upd) by apply updatedEvent_again.
  rewrite !Hupd.
  erewrite (map_c_total _ (fun x => x)).
  - cbn [bind]. eexists. split; [reflexivity |].
    rewrite !items_commit_items, !selectedEvent_commit_items,
      !isEditing_commit_items, !localStorage_commit_items.
    cbn [items selectedEvent isEditing localStorage
         setIsEditing setSelectedEvent setItems].
    rewrite localStorage_commit_items.
    cbn [items localStorage setIsEditing setSelectedEvent setItems].
    by rewrite map_id, insert_insert_eq.
  - apply map_c_spec in Hl. clear -Hl.
    induction Hl as [| x x' l0 l1 Hx _ IH]; constructor; [| done].
    destruct (same_id x upd) as [[] |] eqn:Hs; cbn in Hx; [| | done];
      injection Hx as <-.
    + destruct (same_id_cases upd upd eq_refl) as [(b & -> & _) | [_ Hr]];
        [by destruct b | by cbn in Hr].
    + by rewrite Hs.
Qed.

Lemma edit_submit_twice_is_once_witness :
  let st := run fresh [SubmitAdd launch 1704067200000; ClickEdit] in
  exists st'',
    handleEditSubmit landing (step st (SubmitEdit landing)) = Normal st''
    /\ items st'' = items (step st (SubmitEdit landing))
    /\ selectedEvent st'' = selectedEvent (step st (SubmitEdit landing))
    /\ isEditing st'' = isEditing (step st (SubmitEdit landing))
    /\ localStorage st'' = localStorage (step st (SubmitEdit landing)).
Proof.
  apply (edit_submit_twice_is_once
           (run fresh [SubmitAdd launch 1704067200000; ClickEdit])
           (step (run fresh [SubmitAdd launch 1704067200000; ClickEdit])
                 (SubmitEdit landing))
           landing).
  vm_compute. reflexivity.
Defined.

(** ** The deferred selection after an add *)

Lemma timer_after_add (st : App) (f : Form.t) (now : Z) :
  pendingSelection st = JNull -> timers st = [] ->
  let st1 := handleAddEvent f now st in
  timers st1 = [(JStr (id_of_clock now), items st ++ [newEvent f now])]
  /\ selectedEvent st1 = newEvent f now
  /\ items st1 = items st ++ [newEvent f now]
  /\ pendingSelection st1 = JNull.
Proof.
  intros Hp Ht. cbn zeta.
  destruct (step_timers st (SubmitAdd f now) Hp) as [Hp1 H]. cbn [step] in H, Hp1.
  rewrite H, Ht, Hp1. unfold handleAddEvent.
  by rewrite selectedEvent_commit_items, items_commit_items.
Qed.


Lemma has_id_of_clock (x : jsval) (f : Form.t) (now : Z) :
  (let! i := get_id x in Normal (strict_eq i (JStr (id_of_clock now))))
  = same_id x (newEvent f now).
Proof. unfold same_id. by rewrite get_id_newEvent. Qed.

Lemma timer_callback_spec (st : App) (id : jsval) (closed : list jsval)
    (rest : list (jsval * list jsval)) :
  timers st = (id, closed) :: rest ->
  items (timer_callback st) = items st
  /\ timers (timer_callback st) = rest
  /\ selection (timelineInstance (timer_callback st)) = id
  /\ selectedEvent (timer_callback st) =
       match find_c (fun e => let! i := get_id e in Normal (strict_eq i id))
               closed with
       | Normal v => if truthy v then v else selectedEvent st
       | Throw _ => selectedEvent st
       end.
Proof.
  intros Ht. unfold timer_callback. rewrite Ht.
  destruct (find_c _ closed) as [v |]; [| done]. by destruct (truthy v).
Qed.

(** X12. After an add whose timestamp id no stored record has, the
    deferred selection (the timer of the add, when it is the only one
    waiting) tells the widget to select that id and finds the new record:
    the selected record is the record just added, and the queue of timers
    is empty again. *)
Theorem deferred_selection_finds_new_record (st : App) (f : Form.t) (now : Z) :
  pendingSelection st = JNull -> timers st = [] ->
  forallb (fun item => negb (shares_id item (newEvent f now))) (items st) = true ->
  let st' := run st [SubmitAdd f now; TimerFires] in
  selectedEvent st' = newEvent f now
  /\ selection (timelineInstance st') = JStr (id_of_clock now)
  /\ timers st' = []
  /\ items st' = items st ++ [newEvent f now].
Proof.
  intros Hp Ht Hfresh. cbn zeta. unfold run. cbn [fold_left step].
  destruct (timer_after_add st f now Hp Ht) as (Htimers & Hsel & Hitems & _).
  destruct (timer_callback_spec _ _ _ _ Htimers) as (H1 & H2 & H3 & H4).
  rewrite H1, H2, H3, H4, Hitems, Hsel. split; [| done].
  destruct (find_c _ _) as [v |] eqn:Hf; [| done].
  destruct (truthy v) eqn:Hv; [| done].
  destruct (find_c_found _ _ _ Hf) as [-> | [Hin Hpv]]; [done |].
  rewrite (has_id_of_clock _ f) in Hpv. apply same_id_normal in Hpv.
  apply in_app_or in Hin as [Hin | [<- | []]]; [| done].
  rewrite forallb_forall in Hfresh. specialize (Hfresh v Hin).
  by rewrite Hpv in Hfresh.
Qed.

Lemma deferred_selection_finds_new_record_witness :
  let st := run fresh [SubmitAdd launch 1704067200000; TimerFires;
                       TimelineSelect JUndefined] in
  let st' := run st [SubmitAdd landing 1704067260000; TimerFires] in
  selectedEvent st' = newEvent landing 1704067260000
  /\ selection (timelineInstance st') = JStr (id_of_clock 1704067260000)
  /\ timers st' = []
  /\ items st' = items st ++ [newEvent landing 1704067260000].
Proof.
  apply (deferred_selection_finds_new_record
           (run fresh [SubmitAdd launch 1704067200000; TimerFires;
                       TimelineSelect JUndefined])
           landing 1704067260000).
  - reflexivity.
  - reflexivity.
  - vm_compute. reflexivity.
Defined.



(** ** Ids while the clock advances *)

(** X14. Two records made by the add form share their id exactly when
    [Date.now()] answered the same value for both: no two different
    timestamps print to the same id, whatever the forms held. *)
Theorem ids_differ_when_clocks_differ (f g : Form.t) (a b : Z) :
  shares_id (newEvent f a) (newEvent g b) = (a =? b).
Proof.
  unfold shares_id, same_id. rewrite !get_id_newEvent.
  cbn [bind strict_eq jsval_eqb].
  destruct (Z.eqb_spec a b) as [-> | Hne]; [apply String.eqb_refl |].
  apply String.eqb_neq. intros H. by apply Hne, id_of_clock_inj.
Qed.

Lemma strict_eq_string (s : string) (j : jsval) :
  strict_eq (JStr s) j = true -> j = JStr s.
Proof.
  destruct j; try done. cbn. by intros ->%String.eqb_eq.
Qed.

Lemma step_stamped (last : Z) (st : App) (ev : event) :
  (forall x, In x (items st) ->
     exists t, t <= last /\ get_id x = Normal (JStr (id_of_clock t))) ->
  clock_advances last [ev] = true ->
  keeps_ids_apart st ev = true
  /\ forall x, In x (items (step st ev)) ->
       exists t,
         t <= match ev with SubmitAdd _ now => now | _ => last end
         /\ get_id x = Normal (JStr (id_of_clock t)).
Proof.
  intros Hst Hev. destruct ev as [f now | f | | | | | file | found |]; cbn [step].
  - cbn in Hev. rewrite andb_true_r in Hev. apply Z.ltb_lt in Hev. split.
    + cbn. apply forallb_forall. intros x Hx.
      destruct (Hst x Hx) as (t & Ht & Hid).
      unfold shares_id, same_id. rewrite Hid, get_id_newEvent. cbn.
      apply negb_true_iff, String.eqb_neq. intros H%id_of_clock_inj. lia.
    + unfold handleAddEvent. rewrite items_commit_items. cbn.
      intros x [Hx | [<- | []]]%in_app_or.
      * destruct (Hst x Hx) as (t & Ht & Hid). exists t. split; [lia | done].
      * exists now. split; [lia | apply get_id_newEvent].
  - split; [done |]. unfold handleEditSubmit.
    set (upd := updatedEvent (selectedEvent st) f).
    destruct (map_c _ (items st)) as [l |] eqn:Hl; cbn [bind settle]; [| done].
    rewrite items_commit_items. cbn. intros x' Hx'.
    destruct (map_c_preimage _ _ _ Hl x' Hx') as (x & Hx & Hg).
    destruct (Hst x Hx) as (t & Ht & Hid). exists t. split; [done |].
    unfold same_id in Hg. rewrite Hid in Hg. cbn [bind] in Hg.
    destruct (get_id upd) as [j |] eqn:Hj; cbn [bind] in Hg; [| done].
    destruct (strict_eq (JStr (id_of_clock t)) j) eqn:Hs; injection Hg as <-;
      [| done].
    by rewrite Hj, (strict_eq_string _ _ Hs).
  - split; [done |]. unfold handleDeleteEvent.
    destruct (truthy (selectedEvent st)); cbn [negb settle]; [| done].
    destruct (filter_c _ (items st)) as [l |] eqn:Hl; cbn [bind settle]; [| done].
    rewrite items_commit_items. cbn. intros x Hx.
    by apply Hst, (filter_c_subset _ _ _ Hl).
  - done.
  - done.
  - done.
  - by destruct file.
  - done.
  - split; [done |]. unfold timer_callback.
    destruct (timers st) as [| [i closed] rest]; [done |].
    destruct (find_c _ closed) as [v |]; [| done]. by destruct (truthy v).
Qed.

(** X15. In a session that starts with the empty store and has no
    import, if the clock has advanced between any two adds (no two records
    are added within the same millisecond), no two records of the store
    ever share their id, whatever was edited, deleted or selected in
    between, and whatever record the widget answered to a selection. *)
Theorem ids_unique_while_clock_advances (start : Z) (evs : list event) :
  clock_advances start evs = true ->
  unique_ids (items (run fresh evs)) = true.
Proof.
  assert (H : forall st last,
            unique_ids (items st) = true ->
            (forall x, In x (items st) ->
               exists t, t <= last /\ get_id x = Normal (JStr (id_of_clock t))) ->
            clock_advances last evs = true ->
            unique_ids (items (run st evs)) = true).
  { unfold run. induction evs as [| ev evs IH]; intros st last Hu Hst Hevs; [done |].
    cbn [fold_left].
    assert (Hev : clock_advances last [ev] = true
                  /\ clock_advances
                       match ev with SubmitAdd _ now => now | _ => last end evs
                     = true).
    { destruct ev as [f now | f | | | | | [result |] | found |]; cbn in *;
        try done.
      apply andb_true_iff in Hevs as [-> ->]. done. }
    destruct Hev as [Hev Hrest].
    destruct (step_stamped last st ev Hst Hev) as [Hk Hst'].
    eapply IH; [| exact Hst' | exact Hrest]. by apply step_keeps_unique. }
  intros Hevs. by apply (H fresh start).
Qed.

Lemma ids_unique_while_clock_advances_witness :
  unique_ids
    (items (run fresh
       [SubmitAdd launch 1704067200000; TimerFires; ClickEdit;
        SubmitEdit landing; SubmitAdd launch 1704067200001;
        TimelineSelect record_B; ClickEdit; SubmitEdit launch;
        SubmitAdd landing 1704067260000; ClickDelete])) = true.
Proof.
  apply (ids_unique_while_clock_advances 0
    [SubmitAdd launch 1704067200000; TimerFires; ClickEdit;
     SubmitEdit landing; SubmitAdd launch 1704067200001;
     TimelineSelect record_B; ClickEdit; SubmitEdit launch;
     SubmitAdd landing 1704067260000; ClickDelete]).
  reflexivity.
Defined.

(** ** What a trip through JSON makes of any value *)

Lemma jsonify_number_text (n : jsnum) :
  canonical n = true -> is_finite n = true ->
  exists m,
    jsonify_number n = JNum m /\ json_number_ok m = true
    /\ Num.toString n = Num.toString m.
Proof.
  intros Hc Hf. destruct n as [| | neg [| d ds] e]; try done.
  - cbn in Hc. apply Z.eqb_eq in Hc as ->. exists zero. by destruct neg.
  - pose proof (canonical_significant _ _ _ _ Hc) as (d1 & ds1 & _ & _ & [= <- <-] & _ & Hd & _).
    exists (Finite neg (d :: ds) e). unfold jsonify_number. cbn [is_finite is_zero forallb].
    by rewrite Hd.
Qed.

Lemma null_reads_back : reads_back JNull (lit "null").
Proof.
  split; [done |]. intros rest [| f] _ Hf; [cbn in Hf; lia | reflexivity].
Qed.

Lemma serialize_none (gap indent : text) (v : jsval) :
  JSON.serialize gap indent v = None -> v = JUndefined.
Proof. by destruct v as [| | [] | | | |]. Qed.

Lemma keys_kept (ps : props) (k : string) :
  In k (map fst (flat_map (fun kv => match snd kv with
                                     | JUndefined => []
                                     | _ => [(fst kv, jsonify (snd kv))]
                                     end) ps)) ->
  In k (map fst ps).
Proof.
  induction ps as [| [k0 v0] ps IH]; [done |]. cbn [flat_map map fst snd].
  rewrite map_app. intros [H | H]%in_app_or; [| right; by apply IH].
  left. by destruct v0; cbn in H; destruct H.
Qed.

Lemma keys_ordered_kept (ps : props) :
  keys_ordered (map fst ps) = true ->
  keys_ordered
    (map fst (flat_map (fun kv => match snd kv with
                                  | JUndefined => []
                                  | _ => [(fst kv, jsonify (snd kv))]
                                  end) ps)) = true.
Proof.
  induction ps as [| [k0 v0] ps IH]; [done |]. cbn [flat_map map fst snd keys_ordered].
  intros [Hk Hps]%andb_true_iff. specialize (IH Hps).
  assert (Hcons : keys_ordered
            (k0 :: map fst (flat_map (fun kv => match snd kv with
                                                | JUndefined => []
                                                | _ => [(fst kv, jsonify (snd kv))]
                                                end) ps)) = true).
  { cbn [keys_ordered]. rewrite IH, andb_true_r. apply forallb_forall.
    intros k Hin. rewrite forallb_forall in Hk. by apply Hk, keys_kept. }
  by destruct v0.
Qed.

Section Trip.

Variable gap : text.
Hypothesis Hgap : forallb is_ws gap = true.

(** The text of any well-formed value reads back as [jsonify] of the
    value; only [undefined] has no text. *)
Lemma serialize_reads_back (v : jsval) :
  well_formed v = true ->
  forall indent, forallb is_ws indent = true ->
    match JSON.serialize gap indent v with
    | Some t => reads_back (jsonify v) t
    | None => v = JUndefined
    end.
Proof.
  induction v as [| | b | n | s | l IH | ps IH] using jsval_nested_ind;
    intros Hv indent Hindent; cbn [JSON.serialize jsonify].
  - done.
  - apply null_reads_back.
  - destruct b; (split; [done |]);
      (intros rest [| f] _ Hf; [cbn in Hf; lia | reflexivity]).
  - cbn in Hv. destruct (is_finite n) eqn:Hfin.
    + destruct (jsonify_number_text n Hv Hfin) as (m & -> & Hm & ->).
      by apply number_reads_back.
    + unfold jsonify_number. rewrite Hfin. apply null_reads_back.
  - split; [done |].
    intros rest [| f] _ Hf; [cbn in Hf; lia |]. apply value_quote_text.
  - apply (array_reads_back gap Hgap); [done |].
    cbn in Hv. induction IH as [| x l Hx _ IHl]; [constructor |].
    cbn in Hv. apply andb_true_iff in Hv as [Hvx Hvl]. cbn [map].
    constructor; [| by apply IHl].
    assert (Hi : forallb is_ws (indent ++ gap) = true)
      by (by rewrite forallb_app, Hindent, Hgap).
    specialize (Hx Hvx (indent ++ gap) Hi).
    destruct (JSON.serialize gap (indent ++ gap) x) as [t |]; [done |].
    rewrite Hx. apply null_reads_back.
  - cbn in Hv. apply andb_true_iff in Hv as [Hkeys Hv].
    apply (object_reads_back gap Hgap); [done | by apply keys_ordered_kept |].
    clear Hkeys. induction IH as [| [k x] ps Hx _ IHl]; [constructor |].
    cbn in Hv, Hx. apply andb_true_iff in Hv as [Hvx Hvl]. cbn [flat_map snd fst].
    assert (Hi : forallb is_ws (indent ++ gap) = true)
      by (by rewrite forallb_app, Hindent, Hgap).
    specialize (Hx Hvx (indent ++ gap) Hi).
    destruct (JSON.serialize gap (indent ++ gap) x) as [t |] eqn:Ht.
    + assert (Hkeep : match x with
                      | JUndefined => []
                      | _ => [(k, jsonify x)]
                      end = [(k, jsonify x)])
        by (by destruct x).
      rewrite Hkeep. cbn [app]. constructor; [| by apply IHl].
      exists t. split; [| done]. cbn [fst]. by destruct gap.
    + rewrite Hx. cbn [app]. by apply IHl.
Qed.

Lemma serialize_length_jsonify (v : jsval) :
  well_formed v = true ->
  forall indent t,
    JSON.serialize gap indent v = Some t ->
    (value_size (jsonify v) <= length t)%nat.
Proof.
  induction v as [| | b | n | s | l IH | ps IH] using jsval_nested_ind;
    intros Hv indent t; cbn [JSON.serialize jsonify].
  - done.
  - intros [= <-]. cbn. lia.
  - destruct b; intros [= <-]; cbn; lia.
  - cbn in Hv. intros [= <-]. destruct (is_finite n) eqn:Hfin.
    + destruct (jsonify_number_text n Hv Hfin) as (m & -> & Hm & ->).
      destruct (toString_shape m Hm) as (neg & d & t & ->).
      rewrite length_app. cbn. lia.
    + unfold jsonify_number. rewrite Hfin. cbn. lia.
  - intros [= <-]. cbn. lia.
  - intros [= <-]. cbn [value_size].
    eapply Nat.le_trans; [| apply wrap_length].
    apply le_n_S. cbn in Hv. rewrite !map_map.
    induction IH as [| x l Hx _ IHl]; [done |].
    cbn in Hv. apply andb_true_iff in Hv as [Hvx Hvl].
    simpl. specialize (IHl Hvl).
    destruct (JSON.serialize gap (indent ++ gap) x) as [t |] eqn:Ht.
    + specialize (Hx Hvx _ _ Ht). lia.
    + rewrite (serialize_none _ _ _ Ht). cbn. lia.
  - intros [= <-]. cbn [value_size].
    eapply Nat.le_trans; [| apply wrap_length].
    apply le_n_S. cbn in Hv. apply andb_true_iff in Hv as [_ Hv].
    induction IH as [| [k x] ps Hx _ IHl]; [done |].
    cbn in Hv, Hx. apply andb_true_iff in Hv as [Hvx Hvl].
    specialize (IHl Hvl). cbn [flat_map map snd fst].
    destruct (JSON.serialize gap (indent ++ gap) x) as [t |] eqn:Ht.
    + assert (Hkeep : match x with
                      | JUndefined => []
                      | _ => [(k, jsonify x)]
                      end = [(k, jsonify x)])
        by (by destruct x).
      rewrite Hkeep. specialize (Hx Hvx _ _ Ht). cbn [app map snd].
      change (list_sum (?a :: ?r)) with (a + list_sum r)%nat.
      cbn [length]. rewrite !length_app. cbn [length]. rewrite length_app. lia.
    + rewrite (serialize_none _ _ _ Ht). cbn [app]. exact IHl.
Qed.

End Trip.

Lemma gap_of_space_ws (space : nat) :
  forallb is_ws (JSON.gap_of_space space) = true.
Proof.
  unfold JSON.gap_of_space. by induction (Nat.min space 10).
Qed.

(** [JSON.parse] reads the text of [JSON.stringify], compact or indented,
    as [jsonify] of the value. *)
Lemma stringify_parse_jsonify (v : jsval) (space : nat) :
  well_formed v = true -> v <> JUndefined ->
  exists s, JSON.stringify v space = Some s /\ JSON.parse s = Some (jsonify v).
Proof.
  intros Hv Hne. set (gap := JSON.gap_of_space space).
  pose proof (gap_of_space_ws space) as Hgap. fold gap in Hgap.
  pose proof (serialize_reads_back gap Hgap v Hv [] eq_refl) as Hback.
  destruct (JSON.serialize gap [] v) as [t |] eqn:Ht; [| done].
  destruct Hback as [Hopen Hback].
  exists (string_of_list_ascii t). unfold JSON.stringify. fold gap. rewrite Ht.
  split; [done |]. unfold JSON.parse, lit.
  rewrite list_ascii_of_string_of_list_ascii, (skip_ws_opens t Hopen).
  pose proof (Hback [] (S (length t)) eq_refl) as Hp.
  rewrite app_nil_r in Hp. rewrite Hp; [done |].
  pose proof (serialize_length_jsonify gap v Hv [] t Ht). lia.
Qed.

Lemma jsonify_json_value (v : jsval) :
  well_formed v = true -> json_value (jsonify v) = true.
Proof.
  induction v as [| | b | n | s | l IH | ps IH] using jsval_nested_ind;
    intros Hv; cbn [jsonify]; try done.
  - cbn in Hv. destruct (is_finite n) eqn:Hfin.
    + by destruct (jsonify_number_text n Hv Hfin) as (m & -> & Hm & _).
    + unfold jsonify_number. by rewrite Hfin.
  - cbn in *. induction IH as [| x l Hx _ IHl]; [done |].
    cbn in *. apply andb_true_iff in Hv as [Hvx Hvl].
    by rewrite (Hx Hvx), (IHl Hvl).
  - cbn [well_formed] in Hv. apply andb_true_iff in Hv as [Hkeys Hv].
    cbn [json_value]. rewrite (keys_ordered_kept ps Hkeys). cbn [andb].
    clear Hkeys. induction IH as [| [k x] ps Hx _ IHl]; [done |].
    cbn in Hv, Hx. apply andb_true_iff in Hv as [Hvx Hvl].
    cbn [flat_map fst snd]. rewrite forallb_app, (IHl Hvl), andb_true_r.
    destruct x; try done; cbn [forallb snd]; by rewrite (Hx Hvx).
Qed.

Lemma kept_length (ps : props) :
  (length (flat_map (fun kv => match snd kv with
                               | JUndefined => []
                               | _ => [(fst kv, jsonify (snd kv))]
                               end) ps) <= length ps)%nat.
Proof.
  induction ps as [| [k x] ps IH]; [done |]. cbn [flat_map fst snd].
  rewrite length_app. destruct x; cbn; lia.
Qed.

(** The values that come back from JSON as they went are the carriable
    ones. *)
Lemma jsonify_fixed (v : jsval) :
  well_formed v = true -> (jsonify v = v <-> carriable v = true).
Proof.
  induction v as [| | b | n | s | l IH | ps IH] using jsval_nested_ind;
    intros Hv; cbn [jsonify carriable]; try done.
  - cbn in Hv. destruct n as [| | neg [| d ds] e]; try done.
    + cbn in Hv. apply Z.eqb_eq in Hv as ->. by destruct neg.
    + pose proof (canonical_significant _ _ _ _ Hv)
        as (d1 & ds1 & _ & _ & [= <- <-] & _ & Hd & _).
      unfold jsonify_number. cbn [is_finite is_zero forallb].
      rewrite Hd. cbn. by rewrite andb_false_r.
  - cbn in Hv. induction IH as [| x l Hx _ IHl]; [done |].
    cbn in *. apply andb_true_iff in Hv as [Hvx Hvl].
    specialize (Hx Hvx). specialize (IHl Hvl). rewrite andb_true_iff. split.
    + intros H. assert (H1 : jsonify x = x) by congruence.
      assert (H2 : map jsonify l = l) by congruence.
      split; [by apply Hx |]. apply IHl. by rewrite H2.
    + intros [H1 H2]. apply Hx in H1. apply IHl in H2.
      injection H2 as H2. by rewrite H1, H2.
  - cbn [well_formed] in Hv. apply andb_true_iff in Hv as [_ Hv].
    induction IH as [| [k x] ps Hx _ IHl]; [done |].
    cbn in Hv, Hx. apply andb_true_iff in Hv as [Hvx Hvl].
    specialize (Hx Hvx). specialize (IHl Hvl).
    cbn [flat_map forallb fst snd]. rewrite andb_true_iff. split.
    + intros H. injection H as H. destruct x.
      { cbn [app] in H. pose proof (kept_length ps) as Hlen. rewrite H in Hlen.
        cbn in Hlen. lia. }
      all: cbn [app] in H;
        match type of H with
        | (_, ?a) :: ?b = (_, ?c) :: _ =>
            assert (H1 : a = c) by congruence;
            assert (H2 : b = ps) by congruence
        end;
        (split; [by apply Hx | apply IHl; by rewrite H2]).
    + intros [H1 H2]. apply Hx in H1. apply IHl in H2. injection H2 as H2.
      destruct x; try done; cbn [app]; by rewrite H1, H2.
Qed.

Lemma jsonify_carriable (v : jsval) :
  well_formed v = true -> carriable v = true -> jsonify v = v.
Proof. intros Hv Hc. by apply jsonify_fixed. Qed.

Lemma jsonify_again (v : jsval) :
  well_formed v = true -> jsonify (jsonify v) = jsonify v.
Proof.
  intros Hv. pose proof (jsonify_json_value v Hv) as Hj.
  rewrite json_value_split in Hj. apply andb_true_iff in Hj as [Hw Hc].
  by apply jsonify_carriable.
Qed.

Lemma map_jsonify_again (l : list jsval) :
  forallb well_formed l = true ->
  forallb well_formed (map jsonify l) = true
  /\ map jsonify (map jsonify l) = map jsonify l.
Proof.
  induction l as [| x l IH]; [done |]. cbn.
  intros [Hx Hl]%andb_true_iff. destruct (IH Hl) as [H1 H2].
  pose proof (jsonify_json_value x Hx) as Hj.
  rewrite json_value_split in Hj. apply andb_true_iff in Hj as [Hw _].
  by rewrite Hw, H1, H2, (jsonify_again x Hx).
Qed.

Lemma map_jsonify_carriable (l : list jsval) :
  forallb well_formed l = true -> forallb carriable l = true ->
  map jsonify l = l.
Proof.
  induction l as [| x l IH]; [done |]. cbn.
  intros [Hx Hl]%andb_true_iff [Hcx Hcl]%andb_true_iff.
  by rewrite (jsonify_carriable x Hx Hcx), (IH Hl Hcl).
Qed.

(** X16. [JSON.parse(JSON.stringify(v))], with any indentation, is defined
    for every value other than [undefined] and is the same value except
    that a [NaN], an infinity or an [undefined] array element has become
    [null], the negative zero has become [0], and a property whose value was
    [undefined] is gone.  The values that come back unchanged are exactly
    those that hold none of these, and a second trip changes nothing more. *)
Theorem json_trip_normalizes (v : jsval) (space : nat) :
  well_formed v = true -> v <> JUndefined ->
  (exists s, JSON.stringify v space = Some s /\ JSON.parse s = Some (jsonify v))
  /\ (jsonify v = v <-> carriable v = true)
  /\ (exists s, JSON.stringify (jsonify v) space = Some s
                /\ JSON.parse s = Some (jsonify v)).
Proof.
  intros Hv Hne. split; [by apply stringify_parse_jsonify |].
  split; [by apply jsonify_fixed |].
  pose proof (jsonify_json_value v Hv) as Hj.
  destruct (parse_stringify (jsonify v) space Hj) as (s & Hs & Hp). by exists s.
Qed.

Lemma json_trip_normalizes_witness :
  let v := JArr [JNum NaN; JUndefined; JNum (Finite true [] 0);
                 JObj [("a"%string, JUndefined);
                       ("b"%string, JNum (Infinity true));
                       ("c"%string, JNum (Finite true [d2; d5] (-1)))]] in
  (exists s, JSON.stringify v 2 = Some s /\ JSON.parse s = Some (jsonify v))
  /\ (jsonify v = v <-> carriable v = true)
  /\ (exists s, JSON.stringify (jsonify v) 2 = Some s
                /\ JSON.parse s = Some (jsonify v)).
Proof.
  apply (json_trip_normalizes
           (JArr [JNum NaN; JUndefined; JNum (Finite true [] 0);
                  JObj [("a"%string, JUndefined);
                        ("b"%string, JNum (Infinity true));
                        ("c"%string, JNum (Finite true [d2; d5] (-1)))]]) 2).
  - reflexivity.
  - discriminate.
Defined.

(** ** Export, import and reload of any store *)

Lemma store_text_reads_back (l : list jsval) (space : nat) :
  forallb well_formed l = true ->
  JSON.parse (stringify_text (JArr l) space) = Some (JArr (map jsonify l)).
Proof.
  intros Hl.
  destruct (stringify_parse_jsonify (JArr l) space) as (s & Hs & Hp); [done .. |].
  unfold stringify_text. by rewrite Hs.
Qed.

Lemma store_text_truthy (l : list jsval) (space : nat) :
  truthy (JStr (stringify_text (JArr l) space)) = true.
Proof.
  unfold stringify_text, JSON.stringify. cbn [JSON.serialize fmap option_fmap option_map].
  unfold JSON.wrap. destruct (map _ l); [done |].
  by destruct (JSON.gap_of_space space).
Qed.

Lemma run_from_mount_sound (storage : gmap string string) (st0 : App)
    (evs : list event) :
  mount storage = Some st0 -> forallb answer_ok evs = true ->
  sound (run st0 evs).
Proof. intros Hm Hevs. apply run_sound; [by apply (mount_sound storage) | done]. Qed.

Lemma import_of_export (st : App) :
  forallb well_formed (items st) = true ->
  items (handleImport (Some (export_document st)) st) = map jsonify (items st)
  /\ alerts (handleImport (Some (export_document st)) st) = alerts st.
Proof.
  intros Hwf. cbn [handleImport]. unfold reader_onload, export_document.
  rewrite (store_text_reads_back _ 2 Hwf).
  by rewrite items_commit_items, alerts_commit_items.
Qed.

(** X17. When the entry under the key of the component is absent, empty or
    the text of a JSON array, then in every state the component reaches
    after the mount (the widget answering a selection with a well-formed
    record or with nothing), whatever the store holds, importing the file
    that the export has just written is accepted without an alert and
    installs the store that JSON makes of the current one: the same
    records, except that every [NaN] or infinite coordinate has become
    [null] and every negative zero has become [0].  Exporting and importing
    once more changes nothing. *)
Theorem export_import_normalizes (storage : gmap string string)
    (l : list jsval) (evs : list event) :
  initial_items storage = Normal (JArr l) ->
  forallb answer_ok evs = true ->
  let st := run (started storage l) evs in
  let st' := handleImport (Some (export_document st)) st in
  mount storage = Some (started storage l)
  /\ items st' = map jsonify (items st)
  /\ alerts st' = alerts st
  /\ items (handleImport (Some (export_document st')) st') = items st'
  /\ alerts (handleImport (Some (export_document st')) st') = alerts st.
Proof.
  intros Hl Hevs. cbn zeta. pose proof (mount_started storage l Hl) as Hm.
  split; [done |].
  destruct (run_from_mount_sound storage _ evs Hm Hevs) as (Hwf & _).
  destruct (import_of_export (run (started storage l) evs) Hwf) as [Hi Ha].
  destruct (map_jsonify_again _ Hwf) as [Hwf' Hagain].
  rewrite <- Hi in Hwf', Hagain.
  destruct (import_of_export _ Hwf') as [Hi' Ha'].
  by rewrite Hi', Ha', Hagain, Ha.
Qed.

Lemma export_import_normalizes_witness :
  let storage : gmap string string :=
    <[LOCAL_STORAGE_KEY := json_text "[{'id': 'a', 'lat': -0}]"]> ∅ in
  let l := [JObj [("id"%string, JStr "a");
                  ("lat"%string, JNum (Finite true [] 0))]] in
  let st := run (started storage l)
              [SubmitAdd nowhere 1704067200000;
               SubmitAdd landing 1704067260000] in
  let st' := handleImport (Some (export_document st)) st in
  mount storage = Some (started storage l)
  /\ items st' = map jsonify (items st)
  /\ alerts st' = alerts st
  /\ items (handleImport (Some (export_document st')) st') = items st'
  /\ alerts (handleImport (Some (export_document st')) st') = alerts st.
Proof.
  apply (export_import_normalizes
           (<[LOCAL_STORAGE_KEY := json_text "[{'id': 'a', 'lat': -0}]"]> ∅)
           [JObj [("id"%string, JStr "a");
                  ("lat"%string, JNum (Finite true [] 0))]]
           [SubmitAdd nowhere 1704067200000; SubmitAdd landing 1704067260000]);
    vm_compute; reflexivity.
Defined.

(** X18. When the entry under the key of the component is absent, empty or
    the text of a JSON array, then in every state the component reaches
    after the mount (the widget answering a selection with a well-formed
    record or with nothing), a reload of the page (a new mount over local
    storage as it is) succeeds and restores the store that JSON makes of
    the current one, which is the current store itself when all its records
    are carriable; the selection, the edit mode and the waiting timers are
    not restored. *)
Theorem reload_restores_store (storage : gmap string string) (l : list jsval)
    (evs : list event) :
  initial_items storage = Normal (JArr l) ->
  forallb answer_ok evs = true ->
  let st := run (started storage l) evs in
  mount storage = Some (started storage l)
  /\ initial_items (localStorage st) = Normal (JArr (map jsonify (items st)))
  /\ mount (localStorage st)
     = Some (started (localStorage st) (map jsonify (items st)))
  /\ items (started (localStorage st) (map jsonify (items st)))
     = map jsonify (items st)
  /\ (forallb carriable (items st) = true -> map jsonify (items st) = items st)
  /\ selectedEvent (started (localStorage st) (map jsonify (items st))) = JNull
  /\ isEditing (started (localStorage st) (map jsonify (items st))) = false
  /\ timers (started (localStorage st) (map jsonify (items st))) = [].
Proof.
  intros Hl Hevs. cbn zeta. pose proof (mount_started storage l Hl) as Hm.
  split; [done |].
  destruct (run_from_mount_sound storage _ evs Hm Hevs) as (Hwf & _).
  assert (Hsync : mirror_in_sync (run (started storage l) evs)).
  { apply (run_invariant mirror_in_sync step_in_sync).
    by apply (mount_settled storage). }
  unfold mirror_in_sync in Hsync. rewrite stringify_array in Hsync.
  assert (Hinit : initial_items (localStorage (run (started storage l) evs))
                  = Normal (JArr (map jsonify (items (run (started storage l) evs))))).
  { unfold initial_items. rewrite Hsync, store_text_truthy.
    by rewrite (store_text_reads_back _ 0 Hwf). }
  split; [done |]. split; [by apply mount_started |].
  revert Hwf. generalize (run (started storage l) evs). intros st Hwf.
  unfold started.
  rewrite items_commit_items, selectedEvent_commit_items, isEditing_commit_items.
  cbn [items selectedEvent isEditing]. split; [done |].
  split; [intros Hc; by apply map_jsonify_carriable |].
  split; [done |]. split; [done |].
  match goal with
  | |- timers (commit_items ?s) = [] =>
      by destruct (commit_items_settled s eq_refl) as [_ ->]
  end.
Qed.

Lemma reload_restores_store_witness :
  let storage : gmap string string :=
    <[LOCAL_STORAGE_KEY := json_text "[{'id': 'a', 'lat': -0}]"]> ∅ in
  let l := [JObj [("id"%string, JStr "a");
                  ("lat"%string, JNum (Finite true [] 0))]] in
  let st := run (started storage l)
              [SubmitAdd far_away 1704067200000;
               SubmitAdd landing 1704067260000; ClickEdit] in
  mount storage = Some (started storage l)
  /\ initial_items (localStorage st) = Normal (JArr (map jsonify (items st)))
  /\ mount (localStorage st)
     = Some (started (localStorage st) (map jsonify (items st)))
  /\ items (started (localStorage st) (map jsonify (items st)))
     = map jsonify (items st)
  /\ (forallb carriable (items st) = true -> map jsonify (items st) = items st)
  /\ selectedEvent (started (localStorage st) (map jsonify (items st))) = JNull
  /\ isEditing (started (localStorage st) (map jsonify (items st))) = false
  /\ timers (started (localStorage st) (map jsonify (items st))) = [].
Proof.
  apply (reload_restores_store
           (<[LOCAL_STORAGE_KEY := json_text "[{'id': 'a', 'lat': -0}]"]> ∅)
           [JObj [("id"%string, JStr "a");
                  ("lat"%string, JNum (Finite true [] 0))]]
           [SubmitAdd far_away 1704067200000;
            SubmitAdd landing 1704067260000; ClickEdit]);
    vm_compute; reflexivity.
Defined.

(** ** The coordinates in the edit form *)

Lemma parseFloat_signed (neg : bool) (d : digit) (t : text) :
  parseFloat (string_of_list_ascii
                ((if neg then ["-"%char] else []) ++ digit_char d :: t))
  = decimal_literal neg (digit_char d :: t).
Proof.
  unfold parseFloat, lit. rewrite list_ascii_of_string_of_list_ascii.
  by destruct neg, d.
Qed.

Lemma decimal_literal_toString (neg : bool) (ds : list digit) (e : Z) :
  significant ds ->
  decimal_literal neg (finite_toString ds e) = Finite neg ds e.
Proof.
  intros Hsig. pose proof Hsig as (d & ds' & d' & ds'' & Hds & _ & Hd & _).
  assert (Hlen : length ds = S (length ds')) by (by rewrite Hds).
  unfold finite_toString, decimal_literal.
  set (k := Z.of_nat (length ds)). set (n := e + k).
  destruct ((k <=? n) && (n <=? 21)) eqn:HA;
    [| destruct ((0 <? n) && (n <=? 21)) eqn:HB;
       [| destruct ((-6 <? n) && (n <=? 0)) eqn:HC]].
  - apply andb_true_iff in HA as [H1%Z.leb_le H2%Z.leb_le].
    unfold digits_text at 1 2. rewrite <- map_app.
    fold (digits_text (ds ++ zeros (Z.to_nat (n - k)))).
    rewrite <- (app_nil_r (digits_text _)), take_digits_text by done.
    rewrite app_nil_r. destruct (ds ++ zeros (Z.to_nat (n - k))) as [| x xs] eqn:Hx.
    { by rewrite Hds in Hx. }
    rewrite <- Hx. cbn [with_exponent exponent_part length].
    rewrite (normalize_trailing neg _ ds _ Hsig). f_equal. subst n k. lia.
  - apply andb_true_iff in HB as [H1%Z.ltb_lt H2%Z.leb_le].
    assert (Hnk : n < k).
    { destruct (Z.leb_spec k n); [| done]. cbn in HA.
      apply Z.leb_gt in HA. lia. }
    rewrite take_digits_text by done.
    rewrite <- (app_nil_r (digits_text (skipn _ _))), take_digits_text by done.
    rewrite firstn_skipn. rewrite Hds at 1. rewrite <- Hds.
    cbn [with_exponent exponent_part].
    rewrite (normalize_significant _ _ _ Hsig). f_equal.
    rewrite length_skipn. subst n k. lia.
  - apply andb_true_iff in HC as [H1%Z.ltb_lt H2%Z.leb_le].
    cbn [take_digits char_digit].
    unfold digits_text at 1 2. rewrite <- map_app.
    fold (digits_text (zeros (Z.to_nat (- n)) ++ ds)).
    rewrite <- (app_nil_r (digits_text _)), take_digits_text by done.
    cbn [app with_exponent exponent_part].
    change (d0 :: zeros ?i ++ ds) with (zeros (S i) ++ ds).
    rewrite (normalize_leading neg _ ds _ Hsig). f_equal.
    rewrite length_app. unfold zeros. rewrite repeat_length. subst n k. lia.
  - rewrite Hds. destruct ds' as [| f fs].
    + change (digit_char d :: ?t) with (digits_text [d] ++ t).
      rewrite take_digits_text by done.
      assert (Hex : forall z, with_exponent
                ("e"%char :: (if z <? 0 then "-"%char else "+"%char)
                   :: digits_text (digits_of_N (Z.abs_N z))) = (z, [])).
      { intros z. rewrite <- (app_nil_r (digits_text _)).
        by apply with_exponent_text. }
      cbn [app]. rewrite Hex. rewrite <- Hds, (normalize_significant _ _ _ Hsig).
      f_equal. subst n k. rewrite Hds. cbn [length]. lia.
    + change (digit_char d :: ?t) with (digits_text [d] ++ t).
      rewrite take_digits_text by done.
      rewrite take_digits_text by done.
      assert (Hex : forall z, with_exponent
                ("e"%char :: (if z <? 0 then "-"%char else "+"%char)
                   :: digits_text (digits_of_N (Z.abs_N z))) = (z, [])).
      { intros z. rewrite <- (app_nil_r (digits_text _)).
        by apply with_exponent_text. }
      cbn [app]. rewrite Hex. rewrite <- Hds, (normalize_significant _ _ _ Hsig).
      f_equal. subst n k. rewrite Hds. cbn [length]. lia.
Qed.

(** X20. [parseFloat] reads the text of a number as that number: the
    text that the edit form shows for a stored coordinate, whether a
    finite number in plain or in exponent notation, an infinity or [NaN],
    is read back on submission as the coordinate that was stored; only the
    negative zero, shown as [0], comes back as the positive zero. *)
Theorem parseFloat_reads_toString (n : jsnum) :
  canonical n = true ->
  parseFloat (string_of_list_ascii (Num.toString n))
  = if bool_decide (n = Finite true [] 0) then zero else n.
Proof.
  intros Hc. destruct n as [| [] | neg [| d ds] e]; try done.
  - cbn in Hc. apply Z.eqb_eq in Hc as ->. by destruct neg.
  - pose proof (canonical_significant _ _ _ _ Hc) as Hsig.
    rewrite bool_decide_eq_false_2 by done.
    unfold Num.toString. cbn [norm]. rewrite (normalize_significant _ _ _ Hsig).
    destruct (finite_toString_head (d :: ds) e Hsig) as (d1 & t & Ht).
    pose proof (decimal_literal_toString neg (d :: ds) e Hsig) as Hp.
    rewrite Ht in *. by rewrite parseFloat_signed.
Qed.

Lemma parseFloat_reads_toString_witness :
  parseFloat (string_of_list_ascii (Num.toString (parseFloat "-12.50e-9")))
  = parseFloat "-12.50e-9".
Proof.
  apply (parseFloat_reads_toString (parseFloat "-12.50e-9")).
  vm_compute. reflexivity.
Defined.

(** ** The selection *)

Lemma step_selection (st : App) (ev : event) :
  selectedEvent st = JNull \/ truthy (selectedEvent st) = true ->
  selectedEvent (step st ev) = JNull
  \/ truthy (selectedEvent (step st ev)) = true.
Proof.
  intros Hst. destruct ev as [f now | f | | | | | file | found |]; cbn [step].
  - right. unfold handleAddEvent. by rewrite selectedEvent_commit_items.
  - unfold handleEditSubmit.
    destruct (map_c _ (items st)); cbn [bind settle]; [| done].
    right. by rewrite selectedEvent_commit_items.
  - unfold handleDeleteEvent.
    destruct (truthy (selectedEvent st)) eqn:Hsel; cbn [negb settle];
      [| by destruct Hst as [H | H]; [left |]].
    destruct (filter_c _ (items st)); cbn [bind settle]; [| by right].
    left. by rewrite selectedEvent_commit_items.
  - done.
  - done.
  - done.
  - destruct file as [result |]; [| done]. cbn [handleImport].
    unfold reader_onload. destruct (JSON.parse result) as [[] |]; try done.
    by rewrite selectedEvent_commit_items.
  - cbn. unfold or_else. destruct (truthy found) eqn:Hf; [by right | by left].
  - unfold timer_callback. destruct (timers st) as [| [i closed] rest]; [done |].
    destruct (find_c _ closed) as [v |]; [| done].
    destruct (truthy v) eqn:Hv; [by right | done].
Qed.

(** X21. When the entry under the key of the component is absent, empty
    or the text of a JSON array, then after the mount, whatever the widget
    answers to a selection and whatever a deferred selection finds, the
    selection cell of the component holds either [null] or a truthy value:
    an [undefined] or any other falsy answer is stored as [null], so that
    the test [!selectedEvent] of the delete handler and of the page is a
    test for [null]. *)
Theorem selection_is_null_or_truthy (storage : gmap string string)
    (l : list jsval) (evs : list event) :
  initial_items storage = Normal (JArr l) ->
  mount storage = Some (started storage l)
  /\ (selectedEvent (run (started storage l) evs) = JNull
      \/ truthy (selectedEvent (run (started storage l) evs)) = true).
Proof.
  intros Hl. split; [by apply mount_started |].
  apply (run_invariant
           (fun st => selectedEvent st = JNull \/ truthy (selectedEvent st) = true)
           step_selection).
  left. unfold started. by rewrite selectedEvent_commit_items.
Qed.

Lemma selection_is_null_or_truthy_witness :
  let storage : gmap string string :=
    <[LOCAL_STORAGE_KEY := json_text "[{'id': 'a'}, 7]"]> ∅ in
  let l := [JObj [("id"%string, JStr "a")]; JNum (Finite false [d7] 0)] in
  let evs := [SubmitAdd launch 1704067200000; TimelineSelect JUndefined;
              TimelineSelect (JStr ""); TimelineSelect (JNum zero)] in
  mount storage = Some (started storage l)
  /\ (selectedEvent (run (started storage l) evs) = JNull
      \/ truthy (selectedEvent (run (started storage l) evs)) = true).
Proof.
  apply (selection_is_null_or_truthy
           (<[LOCAL_STORAGE_KEY := json_text "[{'id': 'a'}, 7]"]> ∅)
           [JObj [("id"%string, JStr "a")]; JNum (Finite false [d7] 0)]
           [SubmitAdd launch 1704067200000; TimelineSelect JUndefined;
            TimelineSelect (JStr ""); TimelineSelect (JNum zero)]).
  vm_compute. reflexivity.
Defined.

(** ** A delete before the deferred selection *)






